(** * XNAT segmentation to NIfTI: decoding, merging and volume reconstruction

    A shallow embedding of the three scripts that make up the core of the
    pipeline,

      - [Step_2_3_DecodeSegmentation.py]  (function [decode_segmentation_dcm]),
      - [ConcatMultiplObjects.py]         (the merge loop of [main]),
      - [Step_2_4_NiftiGeneration.py]     (steps 2.4.1, 2.4.2 and 2.4.3),

    followed by the properties of the specification that concern them.

    Conventions.  A Python exception that is not caught by the modelled
    function is the result [None] of an [option]-valued definition.  A
    Python dict whose iteration order matters is an association list in
    insertion order; one that is only looked up is a [gmap].  A value that
    may be the Python [None] is an [option]. *)

From stdpp Require Import gmap strings list fin_maps pretty sorting.
From Stdlib Require Import ZArith.

Open Scope Z_scope.

(** ** Numbers read from DICOM attributes

    Pixel spacing, orientation cosines and positions are Python floats.
    Nothing below depends on how they round: the carrier and its two
    operations are kept abstract, the only requirement being that values
    can be compared (they are used as dictionary keys). *)

Class Scalar := {
  num : Type;
  num_eq_dec :: EqDecision num;
  num_zero : num;
  num_one : num;
  num_mul : num → num → num;
  num_sub : num → num → num
}.

(** ** numpy arrays of integers *)

Inductive dtype :=
  | UInt (bits : N)
  | SInt (bits : N).

Global Instance dtype_eq_dec : EqDecision dtype.
Proof. solve_decision. Defined.

Definition uint8 : dtype := UInt 8.
Definition int16 : dtype := SInt 16.

(** The value stored when the exact integer [v] is written to an element of
    the given type (C-style wrap-around). *)
Definition wrap (t : dtype) (v : Z) : Z :=
  match t with
  | UInt w => v mod 2 ^ Z.of_N w
  | SInt w => (v + 2 ^ (Z.of_N w - 1)) mod 2 ^ Z.of_N w - 2 ^ (Z.of_N w - 1)
  end.

(** A 2D array: element type, [(rows, cols)] and the elements in row-major
    order. *)
Record ndarray := {
  arr_dtype : dtype;
  arr_shape : nat * nat;
  arr_cells : list Z
}.

Global Instance ndarray_eq_dec : EqDecision ndarray.
Proof. solve_decision. Defined.

(** [np.zeros(shape, dtype=t)] *)
Definition np_zeros (sh : nat * nat) (t : dtype) : ndarray :=
  {| arr_dtype := t; arr_shape := sh;
     arr_cells := replicate (sh.1 * sh.2)%nat 0 |}.

(** [b] stretched to the shape [sh] by numpy's broadcasting rule: a
    dimension of length 1 is repeated, any other dimension has to agree.
    [None] is the [ValueError] for shapes that cannot be broadcast. *)
Definition broadcastable (sh : nat * nat) (b : ndarray) : Prop :=
  ((arr_shape b).1 = sh.1 ∨ (arr_shape b).1 = 1%nat)
  ∧ ((arr_shape b).2 = sh.2 ∨ (arr_shape b).2 = 1%nat).

Global Instance broadcastable_dec sh b : Decision (broadcastable sh b).
Proof. unfold broadcastable. apply _. Defined.

Definition np_broadcast_to (sh : nat * nat) (b : ndarray) : option ndarray :=
  if decide (arr_shape b = sh) then Some b
  else if decide (broadcastable sh b) then
    let row i := if decide ((arr_shape b).1 = 1%nat) then 0%nat else i in
    let col j := if decide ((arr_shape b).2 = 1%nat) then 0%nat else j in
    Some {| arr_dtype := arr_dtype b; arr_shape := sh;
            arr_cells :=
              i ← seq 0 sh.1; j ← seq 0 sh.2;
              [default 0 (arr_cells b !! (row i * (arr_shape b).2 + col j)%nat)]
         |}
  else None.

(** Whether [a += b] is accepted for the element types [ta] of [a] and [tb]
    of [b]: the sum is computed in the common type of the two and has to be
    cast back to [ta] under the rule [same_kind].  The common type of an
    unsigned and a signed type is signed (a float for [uint64]), and a
    signed or float result is not cast to an unsigned type, nor a float to
    an integer: numpy raises [UFuncTypeError]. *)
Definition iadd_casts (ta tb : dtype) : bool :=
  match ta, tb with
  | UInt _, UInt _ => true
  | SInt _, SInt _ => true
  | UInt _, SInt _ => false
  | SInt _, UInt w => bool_decide (w < 64)%N
  end.

(** [a += b]: [b] is broadcast to the shape of [a], the sum is stored with
    the element type of [a].  [None] is the exception for element types
    that are not cast and for shapes that are not broadcast. *)
Definition np_iadd (a b : ndarray) : option ndarray :=
  if iadd_casts (arr_dtype a) (arr_dtype b) then
    b' ← np_broadcast_to (arr_shape a) b;
    Some {| arr_dtype := arr_dtype a; arr_shape := arr_shape a;
            arr_cells := zip_with (λ x y, wrap (arr_dtype a) (x + y))
                                  (arr_cells a) (arr_cells b') |}
  else None.

(** [np.clip(a, lo, hi, out=a)] *)
Definition np_clip (lo hi : Z) (a : ndarray) : ndarray :=
  {| arr_dtype := arr_dtype a; arr_shape := arr_shape a;
     arr_cells := (λ v, Z.max lo (Z.min hi v)) <$> arr_cells a |}.

(** [np.any(a)] *)
Definition np_any (a : ndarray) : bool :=
  existsb (λ v, negb (v =? 0)) (arr_cells a).

(** [a.astype(t)], the conversion applied when [a] is assigned into an
    array of type [t]. *)
Definition np_astype (t : dtype) (a : ndarray) : ndarray :=
  {| arr_dtype := t; arr_shape := arr_shape a;
     arr_cells := wrap t <$> arr_cells a |}.

(** ** Frames and decoded segmentation objects

    The dictionaries built by the decoder and by the merge always carry the
    same seven keys, so a frame is a record; a value that may be [None] is
    an [option]. *)

Section Frames.
Context `{Scalar}.

Record Frame := {
  frame_index : Z;
  segment_number : option Z;
  segment_name : option string;
  segment_color : option (list Z);
  image_position_patient : option (list num);
  ref_sop_uid : option string;
  pixel_data : option ndarray
}.

Global Instance Frame_eq_dec : EqDecision Frame.
Proof. solve_decision. Defined.

(** The dictionary that the decoder returns and that is pickled. *)
Record SegData := {
  segmentation_name : string;
  segmentation_type : string;
  ref_series_uid : option string;
  ref_sop_class_uid : option string;
  pixel_spacing : option (list num);
  slice_thickness : option num;
  spacing_between_slices : option num;
  image_orientation : option (list num);
  rows : option nat;
  columns : option nat;
  num_frames : Z;
  frames : list Frame
}.

(** [seg_data["frames"] = frs; seg_data["num_frames"] = n] *)
Definition set_frames (sd : SegData) (frs : list Frame) (n : Z) : SegData :=
  {| segmentation_name := segmentation_name sd;
     segmentation_type := segmentation_type sd;
     ref_series_uid := ref_series_uid sd;
     ref_sop_class_uid := ref_sop_class_uid sd;
     pixel_spacing := pixel_spacing sd;
     slice_thickness := slice_thickness sd;
     spacing_between_slices := spacing_between_slices sd;
     image_orientation := image_orientation sd;
     rows := rows sd;
     columns := columns sd;
     num_frames := n;
     frames := frs |}.

End Frames.

(** ** ConcatMultiplObjects.py *)

Module ConcatMultiplObjects.
Section Merge.
Context `{Scalar}.

(** One entry of the merge plan.  [new_object] is [None] when the key is
    missing from the JSON object. *)
Record MergeItem := {
  old_objects : list string;
  new_object : option string
}.

(** What the loop prints. *)
Inductive Message :=
  | WarnInvalidEntry (d : MergeItem)
  | InfoNoFrames (d : MergeItem)
  | InfoMerged (d : MergeItem) (new_seg_num : Z) (added : nat).

(** The grouping key [(ref_sop_uid, tuple(ipp) if ipp else None)]. *)
Definition SliceKey : Type := string * option (list num).

Definition slice_key (uid : string) (ipp : option (list num)) : SliceKey :=
  (uid, match ipp with
        | Some (x :: l) => Some (x :: l)
        | _ => None
        end).

(** [slice_map], a dict in insertion order. *)
Definition SliceMap : Type := list (SliceKey * ndarray).

(** [if key not in slice_map: slice_map[key] = np.zeros(...)]
    followed by [slice_map[key] += px_data]. *)
Fixpoint slice_map_add (key : SliceKey) (px_data : ndarray) (m : SliceMap)
  : option SliceMap :=
  match m with
  | [] =>
      a ← np_iadd (np_zeros (arr_shape px_data) (arr_dtype px_data)) px_data;
      Some [(key, a)]
  | (k, a) :: m' =>
      if decide (k = key) then
        a' ← np_iadd a px_data; Some ((k, a') :: m')
      else
        m'' ← slice_map_add key px_data m'; Some ((k, a) :: m'')
  end.

(** The body of [for fr in frames] that fills [slice_map]. *)
Definition slice_map_step (old : list string) (m : SliceMap) (fr : Frame)
  : option SliceMap :=
  match segment_name fr with
  | Some seg_name =>
      if decide (seg_name ∈ old) then
        match pixel_data fr, ref_sop_uid fr with
        | Some px_data, Some uid =>
            slice_map_add (slice_key uid (image_position_patient fr)) px_data m
        | _, _ => Some m
        end
      else Some m
  | None => Some m
  end.

Fixpoint build_slice_map (old : list string) (m : SliceMap) (frs : list Frame)
  : option SliceMap :=
  match frs with
  | [] => Some m
  | fr :: frs' =>
      m' ← slice_map_step old m fr; build_slice_map old m' frs'
  end.

(** [for key in slice_map: np.clip(slice_map[key], 0, 1, out=slice_map[key])] *)
Definition clip_slice_map (m : SliceMap) : SliceMap :=
  (λ kv, (kv.1, np_clip 0 1 kv.2)) <$> m.

(** The loop that builds [new_frames]; [i] counts the frames emitted so
    far. *)
Fixpoint build_new_frames (start_index : Z) (i : Z) (new_seg_num : Z)
    (new_object_name : string) (m : SliceMap) : list Frame :=
  match m with
  | [] => []
  | ((uid, ipp), sum_mask) :: m' =>
      if np_any sum_mask then
        {| frame_index := start_index + i;
           segment_number := Some new_seg_num;
           segment_name := Some new_object_name;
           segment_color := None;
           image_position_patient := ipp;
           ref_sop_uid := Some uid;
           pixel_data := Some sum_mask |}
        :: build_new_frames start_index (i + 1) new_seg_num new_object_name m'
      else build_new_frames start_index i new_seg_num new_object_name m'
  end.

(** The state threaded through the directives of one object. *)
Record MergeState := {
  seg_data : SegData;
  segment_name_count : gmap string nat;
  max_seg_num : Z;
  messages : list Message
}.

(** [not old_objects or not new_object_name] *)
Definition valid_entry (d : MergeItem) : option string :=
  match old_objects d, new_object d with
  | [], _ => None
  | _, None => None
  | _, Some EmptyString => None
  | _, Some name => Some name
  end.

(** The frames one valid directive emits when run on [frs] with the
    counter at [n] *)
Definition emitted_frames (frs : list Frame) (n : Z) (d : MergeItem)
    (name : string) : option (list Frame) :=
  m ← build_slice_map (old_objects d) [] frs;
  Some (build_new_frames (Z.of_nat (length frs)) 0 (n + 1) name
          (clip_slice_map m)).

(** The body of [for merge_item in merges_for_this_seg]. *)
Definition merge_directive (st : MergeState) (d : MergeItem)
  : option MergeState :=
  match valid_entry d with
  | None =>
      Some {| seg_data := seg_data st;
              segment_name_count := segment_name_count st;
              max_seg_num := max_seg_num st;
              messages := messages st ++ [WarnInvalidEntry d] |}
  | Some new_object_name =>
      new_frames ← emitted_frames (frames (seg_data st)) (max_seg_num st) d
                     new_object_name;
      let new_seg_num := max_seg_num st + 1 in
      match new_frames with
      | [] =>
          Some {| seg_data := seg_data st;
                  segment_name_count := segment_name_count st;
                  max_seg_num := new_seg_num;
                  messages := messages st ++ [InfoNoFrames d] |}
      | _ =>
          let frames' := frames (seg_data st) ++ new_frames in
          Some {| seg_data := set_frames (seg_data st) frames'
                                         (Z.of_nat (length frames'));
                  segment_name_count :=
                    <[new_object_name := length new_frames]>
                      (segment_name_count st);
                  max_seg_num := new_seg_num;
                  messages := messages st
                    ++ [InfoMerged d new_seg_num (length new_frames)] |}
      end
  end.

Fixpoint merge_directives (st : MergeState) (ds : list MergeItem)
  : option MergeState :=
  match ds with
  | [] => Some st
  | d :: ds' => st' ← merge_directive st d; merge_directives st' ds'
  end.

(** A label array that holds only the values 0 and 1, and a frame that
    carries such an array. *)
Definition binary_array (a : ndarray) : Prop :=
  Forall (λ v, v = 0 ∨ v = 1) (arr_cells a).

Definition binary_frame (fr : Frame) : Prop :=
  ∃ a, pixel_data fr = Some a ∧ binary_array a.

(** [existing_seg_numbers] and [max(...) if ... else 0] *)
Definition existing_seg_numbers (frs : list Frame) : list Z :=
  omap segment_number frs.

Definition py_max (l : list Z) : Z :=
  match l with
  | [] => 0
  | x :: l' => foldl Z.max x l'
  end.

(** The processing of one segmentation folder once its pickle is loaded:
    [merges_for_this_seg = folder_merges + global_merges], the counter is
    set from the frames, the directives run in order. *)
Definition merge_object (sd : SegData) (counts : gmap string nat)
    (folder_merges global_merges : list MergeItem) : option MergeState :=
  merge_directives
    {| seg_data := sd;
       segment_name_count := counts;
       max_seg_num := py_max (existing_seg_numbers (frames sd));
       messages := [] |}
    (folder_merges ++ global_merges).

(** *** Notions used to state the properties of the merge *)

(** The counter never falls behind the segment numbers in use. *)
Definition counter_covers (st : MergeState) : Prop :=
  Forall (λ n, n ≤ max_seg_num st) (existing_seg_numbers (frames (seg_data st))).

(** All label arrays of the frames, or of a slice map, have the shape
    [sh] and the element type [t]. *)
Definition uniform_arrays (sh : nat * nat) (t : dtype) (frs : list Frame)
  : Prop :=
  Forall (λ fr, ∀ a, pixel_data fr = Some a →
                     arr_shape a = sh ∧ arr_dtype a = t) frs.

Definition uniform_map (sh : nat * nat) (t : dtype) (m : SliceMap) : Prop :=
  Forall (λ kv, arr_shape kv.2 = sh ∧ arr_dtype kv.2 = t) m.

(** The directives that pass the check at the head of the loop body. *)
Definition count_valid (ds : list MergeItem) : nat :=
  length (filter (λ d, is_Some (valid_entry d)) ds).

(** Every frame sits at the position that its [frame_index] names. *)
Definition indexed (frs : list Frame) : Prop :=
  ∀ i fr, frs !! i = Some fr → frame_index fr = Z.of_nat i.

(** The key under which the merge groups a frame that has a slice
    identity. *)
Definition frame_key (fr : Frame) : option SliceKey :=
  uid ← ref_sop_uid fr; Some (slice_key uid (image_position_patient fr)).

(** A frame that the first loop of a directive adds to [slice_map]. *)
Definition contributes (old : list string) (fr : Frame) (k : SliceKey)
  : Prop :=
  ∃ s px, segment_name fr = Some s ∧ s ∈ old ∧ pixel_data fr = Some px
          ∧ frame_key fr = Some k.

(** What a frame is apart from its position and its number. *)
Definition frame_content (fr : Frame)
  : option string * option (list Z) * option (list num) * option string
    * option ndarray :=
  (segment_name fr, segment_color fr, image_position_patient fr,
   ref_sop_uid fr, pixel_data fr).

(** The label array that a frame adds to the sum kept under the key
    [k] by a directive with the old names [old], if it adds one. *)
Definition contribution (old : list string) (k : SliceKey) (fr : Frame)
  : option ndarray :=
  match segment_name fr, pixel_data fr, frame_key fr with
  | Some s, Some px, Some k' =>
      if decide (s ∈ old ∧ k' = k) then Some px else None
  | _, _, _ => None
  end.

(** The arrays summed under the key [k], in frame order. *)
Definition group (old : list string) (k : SliceKey) (frs : list Frame)
  : list ndarray :=
  omap (contribution old k) frs.

(** [slice_map.get(k)] *)
Fixpoint sm_get (k : SliceKey) (m : SliceMap) : option ndarray :=
  match m with
  | [] => None
  | (k', a) :: m' => if decide (k' = k) then Some a else sm_get k m'
  end.

(** One more array added to the sum kept under a key: the sum starts as
    zeros of the shape and type of the first array. *)
Definition add_to (o : option ndarray) (px : ndarray) : option ndarray :=
  np_iadd (default (np_zeros (arr_shape px) (arr_dtype px)) o) px.

(** An array that holds as many elements as its shape says. *)
Definition arr_wf (a : ndarray) : Prop :=
  length (arr_cells a) = ((arr_shape a).1 * (arr_shape a).2)%nat.

(** The number of arrays of a list that hold 1 at position [j]. *)
Definition ones_at (j : nat) (l : list ndarray) : nat :=
  length (filter (λ px, arr_cells px !! j = Some 1) l).

End Merge.
End ConcatMultiplObjects.

(** ** Step_2_3_DecodeSegmentation.py *)

Module Step_2_3_DecodeSegmentation.
Section Decode.
Context `{Scalar}.

(** The attributes of the segmentation file that the decoder reads.  An
    attribute that may be missing is an [option]; a DICOM sequence is a
    list of items. *)

Record SegmentItem := {
  SegmentNumber : option Z;
  SegmentLabel : option string;
  RecommendedDisplayCIELabValue : option (list Z)
}.

Record SegmentIdentificationItem := {
  ReferencedSegmentNumber : option Z
}.

Record SourceImageItem := {
  ReferencedSOPInstanceUID : option string
}.

Record DerivationImageItem := {
  SourceImageSequence : option (list SourceImageItem)
}.

Record PlanePositionItem := {
  ImagePositionPatient : option (list num)
}.

Record PerFrameItem := {
  SegmentIdentificationSequence : option (list SegmentIdentificationItem);
  DerivationImageSequence : option (list DerivationImageItem);
  PlanePositionSequence : option (list PlanePositionItem)
}.

Record PixelMeasuresItem := {
  pm_SliceThickness : option num;
  pm_SpacingBetweenSlices : option num;
  pm_PixelSpacing : option (list num)
}.

Record PlaneOrientationItem := {
  po_ImageOrientationPatient : option (list num)
}.

Record SharedItem := {
  PixelMeasuresSequence : option (list PixelMeasuresItem);
  PlaneOrientationSequence : option (list PlaneOrientationItem)
}.

Record ReferencedSeriesItem := {
  SeriesInstanceUID : option string
}.

(** [ds.pixel_array]: the access raises when the file has no decodable
    pixel data; a file with a single frame gives a 2D array, one with
    several frames a 3D array, here the list of its planes. *)
Inductive PixelArray :=
  | NoPixelData
  | Plane2D (a : ndarray)
  | Volume3D (dt : dtype) (planes : list ndarray).

Record Dataset := {
  SeriesDescription : option string;
  SegmentationType : option string;
  ReferencedSeriesSequence : option (list ReferencedSeriesItem);
  ReferencedSOPClassUID : option string;
  Rows : option nat;
  Columns : option nat;
  SharedFunctionalGroupsSequence : option (list SharedItem);
  SegmentSequence : option (list SegmentItem);
  NumberOfFrames : option Z;
  PerFrameFunctionalGroupsSequence : option (list PerFrameItem);
  pixel_array : PixelArray
}.

(** [hasattr(x, "Seq") and len(x.Seq) > 0], then [x.Seq[0]] *)
Definition first_item {A} (s : option (list A)) : option A :=
  match s with
  | Some (it :: _) => Some it
  | _ => None
  end.

(** Truthiness of a string that may be [None]. *)
Definition truthy_str (s : option string) : option string :=
  match s with
  | Some EmptyString => None
  | _ => s
  end.

(** Truthiness of a list that may be [None]. *)
Definition truthy_list {A} (l : option (list A)) : option (list A) :=
  match l with
  | Some [] => None
  | _ => l
  end.

(** [segment_map]: segment number -> (name, color). *)
Definition segment_map_step (m : gmap Z (string * option (list Z)))
    (seg_item : SegmentItem) : gmap Z (string * option (list Z)) :=
  match SegmentNumber seg_item with
  | Some seg_num =>
      if decide (seg_num = 0) then m
      else
        <[seg_num :=
            (default ("Label_" +:+ pretty seg_num)
                     (truthy_str (SegmentLabel seg_item)),
             RecommendedDisplayCIELabValue seg_item)]> m
  | None => m
  end.

Definition build_segment_map (ds : Dataset)
  : gmap Z (string * option (list Z)) :=
  match SegmentSequence ds with
  | Some items => foldl segment_map_step ∅ items
  | None => ∅
  end.

(** [pixel_array_3d.shape[0]] *)
Definition depth (pa : PixelArray) : option nat :=
  match pa with
  | NoPixelData => None
  | Plane2D a => Some (arr_shape a).1
  | Volume3D _ planes => Some (length planes)
  end.

(** [pixel_array_3d.dtype] *)
Definition pa_dtype (pa : PixelArray) : option dtype :=
  match pa with
  | NoPixelData => None
  | Plane2D a => Some (arr_dtype a)
  | Volume3D dt _ => Some dt
  end.

(** [pixel_array_3d[frame_index, :, :]]: three indices into a 2D array
    raise, as does an index past the last plane. *)
Definition plane (pa : PixelArray) (frame_index : nat) : option ndarray :=
  match pa with
  | Volume3D _ planes => planes !! frame_index
  | _ => None
  end.

(** The body of the loop over [range(num_frames)] when the per-frame
    metadata is used. *)
Definition decode_frame (ds : Dataset)
    (segment_map : gmap Z (string * option (list Z)))
    (frame_index : nat) : option Frame :=
  frame ← default [] (PerFrameFunctionalGroupsSequence ds) !! frame_index;
  let segment_number :=
    seg_id_seq_item ← first_item (SegmentIdentificationSequence frame);
    ReferencedSegmentNumber seg_id_seq_item in
  let entry :=
    n ← segment_number;
    if decide (n = 0) then None else segment_map !! n in
  let ref_sop_uid_this_frame :=
    deriv_item ← first_item (DerivationImageSequence frame);
    src ← first_item (SourceImageSequence deriv_item);
    ReferencedSOPInstanceUID src in
  let ipp :=
    pp ← first_item (PlanePositionSequence frame);
    ImagePositionPatient pp in
  d ← depth (pixel_array ds);
  frame_pixel_data ←
    (if decide (frame_index < d)%nat then plane (pixel_array ds) frame_index
     else
       r ← Rows ds; c ← Columns ds; dt ← pa_dtype (pixel_array ds);
       Some (np_zeros (r, c) dt));
  Some {| frame_index := Z.of_nat frame_index;
          segment_number := segment_number;
          segment_name := fst <$> entry;
          segment_color := entry ≫= snd;
          image_position_patient := ipp;
          ref_sop_uid := ref_sop_uid_this_frame;
          pixel_data := Some frame_pixel_data |}.

(** The body of the fallback loop. *)
Definition fallback_frame (ds : Dataset) (frame_index : nat) : option Frame :=
  px ← plane (pixel_array ds) frame_index;
  Some {| frame_index := Z.of_nat frame_index;
          segment_number := None;
          segment_name := None;
          segment_color := None;
          image_position_patient := None;
          ref_sop_uid := None;
          pixel_data := Some px |}.

(** [num_frames = getattr(ds, "NumberOfFrames", 0)] *)
Definition declared_num_frames (ds : Dataset) : Z :=
  default 0 (NumberOfFrames ds).

(** [hasattr(ds, "PerFrameFunctionalGroupsSequence") and
     len(ds.PerFrameFunctionalGroupsSequence) == num_frames] *)
Definition per_frame_ok (ds : Dataset) : bool :=
  match PerFrameFunctionalGroupsSequence ds with
  | Some items =>
      bool_decide (Z.of_nat (length items) = declared_num_frames ds)
  | None => false
  end.

(** The frame list, from [pixel_array_3d = ds.pixel_array] to the end of
    the [if]/[else]. *)
Definition decode_frames (ds : Dataset) : option (list Frame) :=
  d ← depth (pixel_array ds);
  if per_frame_ok ds then
    mapM (decode_frame ds (build_segment_map ds))
         (seq 0 (Z.to_nat (declared_num_frames ds)))
  else
    mapM (fallback_frame ds) (seq 0 d).

(** [decode_segmentation_dcm], once the file has been read into [ds]. *)
Definition decode_segmentation_dcm (ds : Dataset) : option SegData :=
  let shared := first_item (SharedFunctionalGroupsSequence ds) in
  let pm := shared ≫= λ it, first_item (PixelMeasuresSequence it) in
  let po := shared ≫= λ it, first_item (PlaneOrientationSequence it) in
  frs ← decode_frames ds;
  Some {| segmentation_name :=
            default "Unnamed_Segmentation" (SeriesDescription ds);
          segmentation_type := default "UNKNOWN" (SegmentationType ds);
          ref_series_uid :=
            truthy_str (first_item (ReferencedSeriesSequence ds)
                          ≫= SeriesInstanceUID);
          ref_sop_class_uid := truthy_str (ReferencedSOPClassUID ds);
          pixel_spacing := pm ≫= λ it, truthy_list (pm_PixelSpacing it);
          slice_thickness := pm ≫= pm_SliceThickness;
          spacing_between_slices := pm ≫= pm_SpacingBetweenSlices;
          image_orientation :=
            po ≫= λ it, truthy_list (po_ImageOrientationPatient it);
          rows := Rows ds;
          columns := Columns ds;
          num_frames := Z.of_nat (length frs);
          frames := frs |}.

(** A frame that carries an index and label data only: no segment, no
    slice identity. *)
Definition null_identity (fr : Frame) : Prop :=
  segment_number fr = None ∧ segment_name fr = None
  ∧ segment_color fr = None ∧ image_position_patient fr = None
  ∧ ref_sop_uid fr = None.

(** *** The metadata that [main] adds to the catalog

    [Counter(fr.get("segment_name") for fr in frames_list if ... is not
    None)], a dict in the order of first occurrence. *)
Fixpoint counter_add (s : string) (c : list (string * nat))
  : list (string * nat) :=
  match c with
  | [] => [(s, 1%nat)]
  | (k, n) :: c' =>
      if decide (k = s) then (k, S n) :: c' else (k, n) :: counter_add s c'
  end.

Definition name_counter (frames_list : list Frame) : list (string * nat) :=
  foldl (λ c fr, match segment_name fr with
                 | Some s => counter_add s c
                 | None => c
                 end) [] frames_list.

(** The fields [num_frames], [segment_name_count] and [ref_series_uid]
    that [main] writes into the record of a segmentation. *)
Record Prepared := {
  prep_num_frames : Z;
  prep_segment_name_count : list (string * nat);
  prep_ref_series_uid : option string
}.

Definition prepare (decoded_dict : SegData) : Prepared :=
  {| prep_num_frames := num_frames decoded_dict;
     prep_segment_name_count := name_counter (frames decoded_dict);
     prep_ref_series_uid := ref_series_uid decoded_dict |}.

(** The number of frames that carry the name [s]. *)
Definition count_name (s : string) (frs : list Frame) : nat :=
  length (filter (λ fr, segment_name fr = Some s) frs).

(** A table of counts agrees with a frame list: a name is listed exactly
    when some frame carries it, with the number of those frames. *)
Definition counts_agree (m : gmap string nat) (frs : list Frame) : Prop :=
  ∀ s, m !! s = if decide (count_name s frs = 0%nat) then None
                else Some (count_name s frs).

End Decode.
End Step_2_3_DecodeSegmentation.

(** ** Step_2_4_NiftiGeneration.py *)

Module Step_2_4_NiftiGeneration.
Section Nifti.
Context `{Scalar}.

(** *** 2.4.1: matching [ref_series_uid] against the study's series *)

(** One entry of [StudySeries_info.json]; also the value stored under
    ["series_info"]. *)
Record SeriesInfo := {
  series_folder_path : string;
  series_number : option string;
  series_uid : option string;
  series_description : option string
}.

(** One entry of ["selected_segmentations"].  For ["series_info"] the
    outer [None] is a missing key and [Some None] is the JSON [null]. *)
Record SegInfo := {
  si_ref_series_uid : option string;
  pkl_file : option string;
  series_info : option (option SeriesInfo)
}.

Definition set_series_info (seg_info : SegInfo) (v : option SeriesInfo)
  : SegInfo :=
  {| si_ref_series_uid := si_ref_series_uid seg_info;
     pkl_file := pkl_file seg_info;
     series_info := Some v |}.

(** The inner [for series_key, series_info in study_series_data.items()]
    with its [break]. *)
Fixpoint find_matching_series (study_series_data : list (string * SeriesInfo))
    (ref_uid : string) : option (string * SeriesInfo) :=
  match study_series_data with
  | [] => None
  | (series_key, info) :: rest =>
      if decide (series_uid info = Some ref_uid) then Some (series_key, info)
      else find_matching_series rest ref_uid
  end.

(** Truthiness of a string that may be [None]. *)
Definition truthy_opt (s : option string) : option string :=
  match s with
  | Some EmptyString => None
  | _ => s
  end.

(** The body of the loop over the segmentations. *)
Definition resolve_series (study_series_data : list (string * SeriesInfo))
    (seg_info : SegInfo) : SegInfo :=
  match si_ref_series_uid seg_info with
  | None | Some EmptyString => seg_info
  | Some ref_uid =>
      match find_matching_series study_series_data ref_uid with
      | Some (_, matched_series_info) =>
          set_series_info seg_info
            (Some {| series_folder_path := series_folder_path matched_series_info;
                     series_number := series_number matched_series_info;
                     series_uid := series_uid matched_series_info;
                     series_description := series_description matched_series_info |})
      | None => set_series_info seg_info None
      end
  end.

(** The data written to [Ready2Nifti_info.json]. *)
Definition step_2_4_1_create_ready2nifti
    (seg_dict : list (string * SegInfo))
    (study_series_data : list (string * SeriesInfo))
  : list (string * SegInfo) :=
  (λ kv, (kv.1, resolve_series study_series_data kv.2)) <$> seg_dict.

(** *** Reading a series folder *)

(** The attributes of one slice file that the loaders read. *)
Record SliceDataset := {
  InstanceNumber : option Z;
  Rows : option nat;
  Columns : option nat;
  PixelSpacing : option (list num);
  SliceThickness : option num;
  ImageOrientationPatient : option (list num);
  ImagePositionPatient : option (list num);
  SOPInstanceUID : option string;
  pixel_array : option ndarray
}.

(** [getattr(ds, "InstanceNumber", 0)] *)
Definition sort_key (ds : SliceDataset) : Z := default 0 (InstanceNumber ds).

(** [slices.sort(key=sort_key)]: a stable sort, slices with equal keys keep
    the order in which the files were enumerated. *)
Fixpoint insert_slice (ds : SliceDataset) (l : list SliceDataset)
  : list SliceDataset :=
  match l with
  | [] => [ds]
  | ds' :: l' =>
      if decide (sort_key ds ≤ sort_key ds') then ds :: ds' :: l'
      else ds' :: insert_slice ds l'
  end.

Definition sort_slices (l : list SliceDataset) : list SliceDataset :=
  foldr insert_slice [] l.

(** A 3D array [(rows, cols, n_slices)], kept as the list of its planes
    along the last axis. *)
Definition shape3 : Type := nat * nat * nat.

Record Volume := {
  vol_dtype : dtype;
  vol_shape : shape3;
  vol_planes : list ndarray
}.

(** [np.zeros((rows, cols, n_slices), dtype=t)] *)
Definition np_zeros3 (sh : shape3) (t : dtype) : Volume :=
  {| vol_dtype := t; vol_shape := sh;
     vol_planes := replicate sh.2 (np_zeros sh.1 t) |}.

(** [vol[:, :, idx] = arr], for [arr] of the shape of a plane. *)
Definition vol_set (v : Volume) (idx : nat) (arr : ndarray) : Volume :=
  {| vol_dtype := vol_dtype v; vol_shape := vol_shape v;
     vol_planes := <[idx := np_astype (vol_dtype v) arr]> (vol_planes v) |}.

(** A 4x4 matrix as the list of its rows. *)
Definition Affine : Type := list (list num).

Definition affine_zeros : Affine :=
  replicate 4 (replicate 4 num_zero).

(** [affine[i, j] = x] *)
Definition affine_set (i j : nat) (x : num) (a : Affine) : Affine :=
  alter (λ row, <[j := x]> row) i a.

(** [affine[0:3, j] = v]: [v] has three components, or one that is
    broadcast; anything else raises. *)
Definition affine_set_col (j : nat) (v : list num) (a : Affine)
  : option Affine :=
  match v with
  | [x] => Some (affine_set 0 j x (affine_set 1 j x (affine_set 2 j x a)))
  | [x; y; z] =>
      Some (affine_set 0 j x (affine_set 1 j y (affine_set 2 j z a)))
  | _ => None
  end.

(** [np.cross(a, b)] for two 3-vectors.  With vectors of any other length
    either [np.cross] or one of the column assignments that follow it
    raises, so those cases are the error. *)
Definition np_cross (a b : list num) : option (list num) :=
  match a, b with
  | [a0; a1; a2], [b0; b1; b2] =>
      Some [num_sub (num_mul a1 b2) (num_mul a2 b1);
            num_sub (num_mul a2 b0) (num_mul a0 b2);
            num_sub (num_mul a0 b1) (num_mul a1 b0)]
  | _, _ => None
  end.

(** [v * s] *)
Definition np_scale (v : list num) (s : num) : list num :=
  (λ c, num_mul c s) <$> v.

(** The loop [for idx, ds in enumerate(slices): volume_3d[:, :, idx] =
    ds.pixel_array].  The assignment broadcasts the pixel array to
    [(rows, cols)] and raises when it cannot. *)
Fixpoint fill_volume (v : Volume) (idx : nat) (slices : list SliceDataset)
  : option Volume :=
  match slices with
  | [] => Some v
  | ds :: rest =>
      arr ← pixel_array ds;
      plane ← np_broadcast_to (vol_shape v).1 arr;
      fill_volume (vol_set v idx plane) (S idx) rest
  end.

(** [load_dicom_series], on the datasets of the folder's [*.dcm] files in
    the order of their sorted names. *)
Definition load_dicom_series (files : list SliceDataset)
  : option (Volume * Affine * shape3) :=
  match sort_slices files with
  | [] => None
  | (sample_ds :: _) as slices =>
      rows ← Rows sample_ds;
      cols ← Columns sample_ds;
      let px_spacing :=
        match PixelSpacing sample_ds with
        | Some l => l
        | None => [num_one; num_one]
        end in
      let slice_thick :=
        match SliceThickness sample_ds with
        | Some t => t
        | None => num_one
        end in
      let iop :=
        match ImageOrientationPatient sample_ds with
        | Some l => l
        | None => [num_one; num_zero; num_zero; num_zero; num_one; num_zero]
        end in
      let n_slices := length slices in
      volume_3d ← fill_volume (np_zeros3 (rows, cols, n_slices) int16) 0 slices;
      let row_cos := take 3 iop in
      let col_cos := take 3 (drop 3 iop) in
      slice_cos ← np_cross row_cos col_cos;
      sp0 ← px_spacing !! 0%nat;
      sp1 ← px_spacing !! 1%nat;
      let affine := affine_set 3 3 num_one affine_zeros in
      affine ← affine_set_col 0 (np_scale row_cos sp0) affine;
      affine ← affine_set_col 1 (np_scale col_cos sp1) affine;
      affine ← affine_set_col 2 (np_scale slice_cos slice_thick) affine;
      affine ←
        match ImagePositionPatient sample_ds with
        | Some ipp => affine_set_col 3 ipp affine
        | None => Some affine
        end;
      Some (volume_3d, affine, (rows, cols, n_slices))
  end.

(** [load_sop_uid_order], the local function of step 2.4.3, on the same
    input. *)
Definition load_sop_uid_order (files : list SliceDataset)
  : option (list (option string) * shape3 * Affine * dtype) :=
  match files with
  | [] => None
  | _ =>
      match sort_slices files with
      | [] => None
      | (first :: _) as slices =>
          rows ← Rows first;
          cols ← Columns first;
          let px_spacing := default [num_one; num_one] (PixelSpacing first) in
          let slice_thick := default num_one (SliceThickness first) in
          let iop :=
            default [num_one; num_zero; num_zero; num_zero; num_one; num_zero]
                    (ImageOrientationPatient first) in
          let row_cos := take 3 iop in
          let col_cos := take 3 (drop 3 iop) in
          slice_cos ← np_cross row_cos col_cos;
          s0 ← px_spacing !! 0%nat;
          s1 ← px_spacing !! 1%nat;
          let aff := affine_set 3 3 num_one affine_zeros in
          aff ← affine_set_col 0 (np_scale row_cos s0) aff;
          aff ← affine_set_col 1 (np_scale col_cos s1) aff;
          aff ← affine_set_col 2 (np_scale slice_cos slice_thick) aff;
          aff ←
            match ImagePositionPatient first with
            | Some ipp => affine_set_col 3 ipp aff
            | None => Some aff
            end;
          let sop_list := SOPInstanceUID <$> slices in
          test_arr ← pixel_array first;
          Some (sop_list, (rows, cols, length slices), aff, arr_dtype test_arr)
      end
  end.

(** *** Files *)

(** What [nib.load] gives for a readable file, and what
    [nib.Nifti1Image(data, affine)] holds. *)
Record NiftiImage := {
  img_shape : list nat;
  img_dtype : dtype;
  img_planes : list ndarray;
  img_affine : Affine
}.

Definition Nifti1Image (v : Volume) (aff : Affine) : NiftiImage :=
  {| img_shape := [(vol_shape v).1.1; (vol_shape v).1.2; (vol_shape v).2];
     img_dtype := vol_dtype v;
     img_planes := vol_planes v;
     img_affine := aff |}.

(** The content of a file of the output folder: an image, or bytes on
    which [nib.load] raises. *)
Inductive StoredFile :=
  | Unreadable (raw : list Z)
  | Readable (img : NiftiImage).

(** [shape_] as the tuple compared with [existing.shape]. *)
Definition shape_tuple (sh : shape3) : list nat := [sh.1.1; sh.1.2; sh.2].

(** What the scripts read: the pickles by path, and for every folder that
    exists the datasets of its [*.dcm] files in the order of their sorted
    names.  [nib_saves path img] tells whether [nib.Nifti1Image] and
    [nib.save] go through for the image [img] at [path]: nibabel raises on
    an affine from which it cannot build a header, and the write raises on
    a path that cannot be created. *)
Record Inputs := {
  pickles : gmap string SegData;
  dicom_dirs : gmap string (list SliceDataset);
  nib_saves : string → NiftiImage → bool
}.

(** [str(x)] for a string that may be [None]. *)
Definition py_str (x : option string) : string := default "None" x.

Definition path_join (dir name : string) : string := dir +:+ "/" +:+ name.

(** What steps 2.4.2 and 2.4.3 print. *)
Inductive Message :=
  | SkipInvalidPath (series_number : option string) (series_path : string)
  | FoundExisting (nii_name : string) (shape : list nat)
  | ErrorLoading (series_number : option string)
  | Created (nii_name : string) (shape : list nat)
  | SkipPkl (seg_folder_name : string)
  | SkipSeries (seg_folder_name : string)
  | UnableToLoad (series_number : string)
  | WarnShapeMismatch (seg_folder_name : string) (seg_name : option string)
      (slice_idx : nat).

(** [os.path.isdir(series_path)] together with the listing of the folder;
    the empty path is rejected before. *)
Definition list_dir (inp : Inputs) (series_path : string)
  : option (list SliceDataset) :=
  if decide (series_path = "") then None else dicom_dirs inp !! series_path.

(** [nib.save(nib.Nifti1Image(data, affine), nii_path)].  The call sits in
    no [try] in either step: [None] is the exception that ends the run. *)
Definition nib_save (inp : Inputs) (nii_path : string) (data : Volume)
    (affine : Affine) (fs : gmap string StoredFile)
  : option (gmap string StoredFile) :=
  if nib_saves inp nii_path (Nifti1Image data affine)
  then Some (<[nii_path := Readable (Nifti1Image data affine)]> fs)
  else None.

(** *** 2.4.2: the NIfTI of each referenced series *)

Record State242 := {
  fs242 : gmap string StoredFile;
  processed_series : gmap (option string) string;
  log242 : list Message
}.

(** The body of the loop of [step_2_4_2_create_original_nifti]; [None]
    when the write raises. *)
Definition original_nifti_step (overwrite : bool) (inp : Inputs)
    (out_dir : string) (st : State242) (seg_info : SegInfo)
  : option State242 :=
  match series_info seg_info with
  | Some (Some info) =>
      let series_number := series_number info in
      let series_path := series_folder_path info in
      match list_dir inp series_path with
      | None =>
          Some {| fs242 := fs242 st; processed_series := processed_series st;
                  log242 := log242 st
                    ++ [SkipInvalidPath series_number series_path] |}
      | Some files =>
          if decide (is_Some (processed_series st !! series_number))
          then Some st
          else
            let nii_name := py_str series_number +:+ ".nii" in
            let nii_path := path_join out_dir nii_name in
            let create :=
              match load_dicom_series files with
              | None =>
                  Some {| fs242 := fs242 st;
                          processed_series := processed_series st;
                          log242 := log242 st ++ [ErrorLoading series_number] |}
              | Some (vol_3d, aff, dims) =>
                  fs ← nib_save inp nii_path vol_3d aff (fs242 st);
                  Some {| fs242 := fs;
                          processed_series :=
                            <[series_number := nii_path]> (processed_series st);
                          log242 := log242 st
                            ++ [Created nii_name
                                  (shape_tuple (vol_shape vol_3d))] |}
              end in
            match fs242 st !! nii_path, overwrite with
            | Some (Readable existing_img), false =>
                Some {| fs242 := fs242 st;
                        processed_series :=
                          <[series_number := nii_path]> (processed_series st);
                        log242 := log242 st
                          ++ [FoundExisting nii_name
                                (img_shape existing_img)] |}
            | _, _ => create
            end
      end
  | _ => Some st
  end.

Fixpoint original_nifti_loop (overwrite : bool) (inp : Inputs)
    (out_dir : string) (st : State242) (seg_dict : list (string * SegInfo))
  : option State242 :=
  match seg_dict with
  | [] => Some st
  | (_, seg_info) :: rest =>
      st' ← original_nifti_step overwrite inp out_dir st seg_info;
      original_nifti_loop overwrite inp out_dir st' rest
  end.

Definition step_2_4_2_create_original_nifti (overwrite : bool) (inp : Inputs)
    (out_dir : string) (fs : gmap string StoredFile)
    (seg_dict : list (string * SegInfo)) : option State242 :=
  original_nifti_loop overwrite inp out_dir
    {| fs242 := fs; processed_series := ∅; log242 := [] |} seg_dict.

(** *** 2.4.3: one NIfTI per segment name of each segmentation *)

(** [sop_uid_to_index], filled by
    [for i, suid in enumerate(sop_uid_list): sop_uid_to_index[suid] = i]. *)
Fixpoint index_sop_uids (i : nat) (sop_uid_list : list (option string))
    (m : gmap (option string) nat) : gmap (option string) nat :=
  match sop_uid_list with
  | [] => m
  | suid :: rest => index_sop_uids (S i) rest (<[suid := i]> m)
  end.

Definition sop_uid_to_index (sop_uid_list : list (option string))
  : gmap (option string) nat :=
  index_sop_uids 0 sop_uid_list ∅.

(** [segment_frames_map], a [defaultdict(list)] in insertion order. *)
Definition SegmentFramesMap : Type :=
  list (option string * list (nat * ndarray)).

(** [segment_frames_map[seg_name].append(entry)] *)
Fixpoint sfm_append (seg_name : option string) (entry : nat * ndarray)
    (m : SegmentFramesMap) : SegmentFramesMap :=
  match m with
  | [] => [(seg_name, [entry])]
  | (k, l) :: m' =>
      if decide (k = seg_name) then (k, l ++ [entry]) :: m'
      else (k, l) :: sfm_append seg_name entry m'
  end.

(** [sopid in sop_uid_to_index and frame_2d is not None], and the pair
    that is then appended. *)
Definition frame_entry (index : gmap (option string) nat) (fr : Frame)
  : option (nat * ndarray) :=
  match index !! ref_sop_uid fr, pixel_data fr with
  | Some slice_index, Some frame_2d => Some (slice_index, frame_2d)
  | _, _ => None
  end.

(** The body of [for fr in frames]. *)
Definition group_frame (index : gmap (option string) nat)
    (m : SegmentFramesMap) (fr : Frame) : SegmentFramesMap :=
  match frame_entry index fr with
  | Some entry => sfm_append (segment_name fr) entry m
  | None => m
  end.

Definition segment_frames_map (index : gmap (option string) nat)
    (frs : list Frame) : SegmentFramesMap :=
  foldl (group_frame index) [] frs.

(** [mask_2d.shape[0] == shape_[0] and mask_2d.shape[1] == shape_[1]] *)
Definition fits (shape_ : shape3) (mask_2d : ndarray) : Prop :=
  (arr_shape mask_2d).1 = shape_.1.1 ∧ (arr_shape mask_2d).2 = shape_.1.2.

Global Instance fits_dec shape_ mask_2d : Decision (fits shape_ mask_2d).
Proof. unfold fits. apply _. Defined.

(** The body of [for slice_idx, mask_2d in slices_info]. *)
Definition place_mask (seg_folder_name : string) (seg_name : option string)
    (shape_ : shape3) (st : Volume * list Message) (e : nat * ndarray)
  : Volume * list Message :=
  if decide (fits shape_ e.2)
  then (vol_set st.1 e.1 e.2, st.2)
  else (st.1, st.2 ++ [WarnShapeMismatch seg_folder_name seg_name e.1]).

(** [mask_3d] after the placement loop, and the warnings printed. *)
Definition build_mask (seg_folder_name : string) (seg_name : option string)
    (shape_ : shape3) (slices_info : list (nat * ndarray))
  : Volume * list Message :=
  foldl (place_mask seg_folder_name seg_name shape_)
        (np_zeros3 shape_ uint8, []) slices_info.

(** The end of the loop over the segment names: the check of an existing
    file, then the write; [None] when the write raises. *)
Definition save_seg_nifti (overwrite : bool) (inp : Inputs)
    (out_dir nii_name : string) (mask_3d : Volume) (aff_ : Affine)
    (shape_ : shape3) (fs : gmap string StoredFile)
  : option (gmap string StoredFile * list Message) :=
  let nii_path := path_join out_dir nii_name in
  let write :=
    fs' ← nib_save inp nii_path mask_3d aff_ fs;
    Some (fs', [Created nii_name (shape_tuple (vol_shape mask_3d))]) in
  match fs !! nii_path, overwrite with
  | Some (Readable existing), false =>
      if decide (img_shape existing = shape_tuple shape_) then
        Some (fs, [FoundExisting nii_name (img_shape existing)])
      else write
  | _, _ => write
  end.

Record State243 := {
  fs243 : gmap string StoredFile;
  series_sop_uids_cache :
    gmap string (list (option string) * shape3 * Affine * dtype);
  log243 : list Message
}.

(** The body of [for seg_name, slices_info in segment_frames_map.items()]. *)
Definition seg_name_step (overwrite : bool) (inp : Inputs) (out_dir : string)
    (series_number seg_folder_name : string) (shape_ : shape3) (aff_ : Affine)
    (st : gmap string StoredFile * list Message)
    (kv : option string * list (nat * ndarray))
  : option (gmap string StoredFile * list Message) :=
  let mw := build_mask seg_folder_name kv.1 shape_ kv.2 in
  let nii_name :=
    series_number +:+ "_ON_" +:+ py_str kv.1 +:+ "__FN_" +:+ seg_folder_name
      +:+ ".nii" in
  sv ← save_seg_nifti overwrite inp out_dir nii_name mw.1 aff_ shape_ st.1;
  Some (sv.1, st.2 ++ mw.2 ++ sv.2).

Fixpoint seg_names_loop (overwrite : bool) (inp : Inputs) (out_dir : string)
    (series_number seg_folder_name : string) (shape_ : shape3) (aff_ : Affine)
    (st : gmap string StoredFile * list Message) (groups : SegmentFramesMap)
  : option (gmap string StoredFile * list Message) :=
  match groups with
  | [] => Some st
  | kv :: rest =>
      st' ← seg_name_step overwrite inp out_dir series_number seg_folder_name
              shape_ aff_ st kv;
      seg_names_loop overwrite inp out_dir series_number seg_folder_name
        shape_ aff_ st' rest
  end.

(** The body of the loop of [step_2_4_3_create_seg_nifti].  The result is
    [None] when [series_info] is the JSON [null] and the pickle exists
    ([series_info.get] then raises), and when a write raises. *)
Definition seg_nifti_step (overwrite : bool) (inp : Inputs) (out_dir : string)
    (st : State243) (seg_folder_name : string) (seg_info : SegInfo)
  : option State243 :=
  let say m :=
    {| fs243 := fs243 st; series_sop_uids_cache := series_sop_uids_cache st;
       log243 := log243 st ++ [m] |} in
  match truthy_opt (pkl_file seg_info) ≫= λ p, pickles inp !! p with
  | None => Some (say (SkipPkl seg_folder_name))
  | Some seg_data =>
      match series_info seg_info with
      | Some None => None
      | None => Some (say (SkipSeries seg_folder_name))
      | Some (Some info) =>
          match truthy_opt (series_number info),
                list_dir inp (series_folder_path info) with
          | Some series_number, Some files =>
              let cached :=
                match series_sop_uids_cache st !! series_number with
                | Some c => Some c
                | None => load_sop_uid_order files
                end in
              match cached with
              | None => Some (say (UnableToLoad series_number))
              | Some (sop_uid_list, shape_, aff_, vol_dtype_) =>
                  let index := sop_uid_to_index sop_uid_list in
                  let groups := segment_frames_map index (frames seg_data) in
                  r ← seg_names_loop overwrite inp out_dir series_number
                        seg_folder_name shape_ aff_
                        (fs243 st, log243 st) groups;
                  Some {| fs243 := r.1;
                          series_sop_uids_cache :=
                            <[series_number :=
                                (sop_uid_list, shape_, aff_, vol_dtype_)]>
                              (series_sop_uids_cache st);
                          log243 := r.2 |}
              end
          | _, _ => Some (say (SkipSeries seg_folder_name))
          end
      end
  end.

Fixpoint seg_nifti_loop (overwrite : bool) (inp : Inputs) (out_dir : string)
    (st : State243) (seg_dict : list (string * SegInfo)) : option State243 :=
  match seg_dict with
  | [] => Some st
  | (seg_folder_name, seg_info) :: rest =>
      st' ← seg_nifti_step overwrite inp out_dir st seg_folder_name seg_info;
      seg_nifti_loop overwrite inp out_dir st' rest
  end.

Definition step_2_4_3_create_seg_nifti (overwrite : bool) (inp : Inputs)
    (out_dir : string) (fs : gmap string StoredFile)
    (seg_dict : list (string * SegInfo)) : option State243 :=
  seg_nifti_loop overwrite inp out_dir
    {| fs243 := fs; series_sop_uids_cache := ∅; log243 := [] |} seg_dict.

(** *** Notions used to state the properties of step 2.4.3 *)

(** The list stored under [seg_name], empty when the key is missing. *)
Fixpoint sfm_get (seg_name : option string) (m : SegmentFramesMap)
  : list (nat * ndarray) :=
  match m with
  | [] => []
  | (k, l) :: m' => if decide (k = seg_name) then l else sfm_get seg_name m'
  end.

(** The pairs contributed by the frames of one segment name, in the order
    of the frames. *)
Definition entries (index : gmap (option string) nat)
    (seg_name : option string) (frs : list Frame) : list (nat * ndarray) :=
  omap (frame_entry index) (filter (λ fr, segment_name fr = seg_name) frs).

(** The effect of the placement loop on the mask alone, and the warnings
    alone. *)
Definition place_plane (shape_ : shape3) (v : Volume) (e : nat * ndarray)
  : Volume :=
  if decide (fits shape_ e.2) then vol_set v e.1 e.2 else v.

Definition mismatch_warnings (seg_folder_name : string)
    (seg_name : option string) (shape_ : shape3)
    (slices_info : list (nat * ndarray)) : list Message :=
  omap (λ e, if decide (fits shape_ e.2) then None
             else Some (WarnShapeMismatch seg_folder_name seg_name e.1))
       slices_info.

(** The planes that a volume holds are as many and as large as its shape
    says. *)
Definition vol_wf (v : Volume) : Prop :=
  length (vol_planes v) = (vol_shape v).2
  ∧ Forall (λ a, arr_shape a = (vol_shape v).1) (vol_planes v).

(** A path that holds an image that [nib.load] reads. *)
Definition readable_at (fs : gmap string StoredFile) (path : string) : Prop :=
  ∃ img, fs !! path = Some (Readable img).

(** The name of the file that step 2.4.2 writes for a series. *)
Definition series_nii_path (out_dir : string) (info : SeriesInfo) : string :=
  path_join out_dir (py_str (series_number info) +:+ ".nii").

(** A record for which step 2.4.2, run without the overwrite flag, has
    nothing to write: it names no series, or a folder that does not exist,
    or a series whose file is in place, or one that cannot be loaded. *)
Definition settled (inp : Inputs) (out_dir : string)
    (fs : gmap string StoredFile) (seg_info : SegInfo) : Prop :=
  match series_info seg_info with
  | Some (Some info) =>
      match list_dir inp (series_folder_path info) with
      | Some files =>
          readable_at fs (series_nii_path out_dir info)
          ∨ load_dicom_series files = None
      | None => True
      end
  | _ => True
  end.

(** Every series that step 2.4.2 has marked as processed has its file. *)
Definition processed_have_files (out_dir : string) (st : State242) : Prop :=
  ∀ sn p, processed_series st !! sn = Some p →
          readable_at (fs242 st) (path_join out_dir (py_str sn +:+ ".nii")).

(** The name of the file that step 2.4.3 writes for a segment. *)
Definition seg_nii_path (out_dir series_number seg_folder_name : string)
    (seg_name : option string) : string :=
  path_join out_dir
    (series_number +:+ "_ON_" +:+ py_str seg_name +:+ "__FN_"
       +:+ seg_folder_name +:+ ".nii").

(** A path that holds an image of the given shape. *)
Definition shaped_at (fs : gmap string StoredFile) (shape_ : shape3)
    (path : string) : Prop :=
  ∃ img, fs !! path = Some (Readable img)
         ∧ img_shape img = shape_tuple shape_.

End Nifti.
End Step_2_4_NiftiGeneration.

(** ** Step_2_2_SelectSegmentations.py *)

Module Step_2_2_SelectSegmentations.
Section Select.

(** [str.lower]; nothing below depends on what it does to a character. *)
Variable lower : string → string.

(** One entry of [Segmentations_info.json]. *)
Record AssessorInfo := {
  assessor_folder_path : string;
  segmentor_name : option string;
  created_time : option string;
  exported_name : option string;
  ref_class_uid : option string;
  assessor_ref_series_uid : option string;
  errors : option string
}.

(** A dict from folder name to entry, in insertion order. *)
Definition SegInfoDict : Type := list (string * AssessorInfo).

(** [d[k]] *)
Fixpoint dict_get (k : string) (d : SegInfoDict) : option AssessorInfo :=
  match d with
  | [] => None
  | (k', v) :: d' => if decide (k' = k) then Some v else dict_get k d'
  end.

(** [d[k] = v]: a key that is present keeps its place. *)
Fixpoint dict_set (k : string) (v : AssessorInfo) (d : SegInfoDict)
  : SegInfoDict :=
  match d with
  | [] => [(k, v)]
  | (k', v') :: d' =>
      if decide (k' = k) then (k', v) :: d' else (k', v') :: dict_set k v d'
  end.

(** [info_dict.get("exported_name", "")] when it is truthy. *)
Definition exported (v : AssessorInfo) : option string :=
  match exported_name v with
  | Some (String c e) => Some (String c e)
  | _ => None
  end.

(** [folder_map] and [exported_map] *)
Definition folder_map (seg_info : SegInfoDict) : gmap string string :=
  foldl (λ m kv, <[lower kv.1 := kv.1]> m) ∅ seg_info.

Definition exported_map (seg_info : SegInfoDict) : gmap string string :=
  foldl (λ m kv, match exported kv.2 with
                 | Some e => <[lower e := kv.1]> m
                 | None => m
                 end) ∅ seg_info.

(** [found_key] for one request: the folder names are tried first. *)
Definition find_key (seg_info : SegInfoDict) (requested_name : string)
  : option string :=
  match folder_map seg_info !! lower requested_name with
  | Some k => Some k
  | None => exported_map seg_info !! lower requested_name
  end.

(** The body of [for requested_name in user_requests]; [None] is the
    [KeyError] of [seg_info[found_key]]. *)
Definition match_step (seg_info : SegInfoDict)
    (acc : option (SegInfoDict * list string)) (requested_name : string)
  : option (SegInfoDict * list string) :=
  mn ← acc;
  match find_key seg_info requested_name with
  | Some found_key =>
      v ← dict_get found_key seg_info;
      Some (dict_set found_key v mn.1, mn.2)
  | None => Some (mn.1, mn.2 ++ [requested_name])
  end.

(** [match_segmentations] *)
Definition match_segmentations (user_requests : list string)
    (seg_info : SegInfoDict) : option (SegInfoDict * list string) :=
  if decide ("all" ∈ lower <$> user_requests) then Some (seg_info, [])
  else foldl (match_step seg_info) (Some ([], [])) user_requests.

(** The exported names that can be asked for, lowered. *)
Definition exported_lowers (seg_info : SegInfoDict) : list string :=
  omap (λ kv, lower <$> exported kv.2) seg_info.

(** A request that names a segmentation, by its folder or by its exported
    name, whatever the case of the letters. *)
Definition known (seg_info : SegInfoDict) (requested_name : string) : Prop :=
  lower requested_name ∈ lower <$> seg_info.*1
  ∨ lower requested_name ∈ exported_lowers seg_info.

Global Instance known_dec seg_info r : Decision (known seg_info r).
Proof. unfold known. apply _. Defined.

End Select.

(** [str.lower] on ASCII text. *)
Definition lower_ascii (c : Ascii.ascii) : Ascii.ascii :=
  let n := Ascii.nat_of_ascii c in
  if ((65 <=? n) && (n <=? 90))%nat then Ascii.ascii_of_nat (n + 32) else c.

Fixpoint ascii_lower (s : string) : string :=
  match s with
  | EmptyString => EmptyString
  | String c s' => String (lower_ascii c) (ascii_lower s')
  end.

End Step_2_2_SelectSegmentations.

(** ** A concrete carrier for the examples: integer coordinates *)

Definition Z_scalar : Scalar :=
  {| num := Z; num_zero := 0; num_one := 1;
     num_mul := Z.mul; num_sub := Z.sub |}.

(** ** Concrete objects used in the examples *)

Module Examples.
Section Data.
#[local] Existing Instance Z_scalar.
Import ConcatMultiplObjects.

(** A 1x1 label array. *)
Definition cell (v : Z) : ndarray :=
  {| arr_dtype := uint8; arr_shape := (1, 1)%nat; arr_cells := [v] |}.

Definition frame_of (idx : Z) (number : option Z) (name : option string)
    (uid : option string) (px : ndarray) : Frame :=
  {| frame_index := idx; segment_number := number; segment_name := name;
     segment_color := None; image_position_patient := None;
     ref_sop_uid := uid; pixel_data := Some px |}.

Definition object_of (frs : list Frame) : SegData :=
  {| segmentation_name := "Segmentation"; segmentation_type := "BINARY";
     ref_series_uid := Some "1.2.3"; ref_sop_class_uid := None;
     pixel_spacing := None; slice_thickness := None;
     spacing_between_slices := None; image_orientation := None;
     rows := Some 1%nat; columns := Some 1%nat;
     num_frames := Z.of_nat (length frs); frames := frs |}.

Definition start_state (sd : SegData) : MergeState :=
  {| seg_data := sd; segment_name_count := ∅;
     max_seg_num := py_max (existing_seg_numbers (frames sd));
     messages := [] |}.

(** Two slices: on the first A = 1 and B = 0, on the second A = 1 and
    B = 1. *)
Definition two_slices : SegData :=
  object_of [frame_of 0 (Some 1) (Some "A") (Some "uid.1") (cell 1);
             frame_of 1 (Some 2) (Some "B") (Some "uid.1") (cell 0);
             frame_of 2 (Some 1) (Some "A") (Some "uid.2") (cell 1);
             frame_of 3 (Some 2) (Some "B") (Some "uid.2") (cell 1)].

Definition merge_A_B_into_C : MergeItem :=
  {| old_objects := ["A"; "B"]; new_object := Some "C" |}.

Definition two_slices_merged : MergeState :=
  {| seg_data :=
       set_frames two_slices
         (frames two_slices
          ++ [frame_of 4 (Some 3) (Some "C") (Some "uid.1") (cell 1);
              frame_of 5 (Some 3) (Some "C") (Some "uid.2") (cell 1)]) 6;
     segment_name_count := {[ "C" := 2%nat ]};
     max_seg_num := 3;
     messages := [InfoMerged merge_A_B_into_C 3 2] |}.

(** An object with the single segment A, numbered 1. *)
Definition only_A : SegData :=
  object_of [frame_of 0 (Some 1) (Some "A") (Some "uid.1") (cell 1)].

Definition merge_X_into_Y : MergeItem :=
  {| old_objects := ["X"]; new_object := Some "Y" |}.

Definition merge_A_into_B : MergeItem :=
  {| old_objects := ["A"]; new_object := Some "B" |}.

End Data.

Section DecoderData.
#[local] Existing Instance Z_scalar.
Import Step_2_3_DecodeSegmentation.

Definition per_frame_item (number : Z) (uid : string) : PerFrameItem :=
  {| SegmentIdentificationSequence :=
       Some [{| ReferencedSegmentNumber := Some number |}];
     DerivationImageSequence :=
       Some [{| SourceImageSequence :=
                  Some [{| ReferencedSOPInstanceUID := Some uid |}] |}];
     PlanePositionSequence :=
       Some [{| ImagePositionPatient := Some [0; 0; 5] |}] |}.

(** A segmentation file with two planes and the segments 1 (labelled
    Liver) and 2 (no label). *)
Definition seg_file (declared : option Z) (per_frame : option (list PerFrameItem))
  : Dataset :=
  {| SeriesDescription := Some "Seg";
     SegmentationType := Some "BINARY";
     ReferencedSeriesSequence := Some [{| SeriesInstanceUID := Some "1.2.3" |}];
     ReferencedSOPClassUID := None;
     Rows := Some 1%nat;
     Columns := Some 1%nat;
     SharedFunctionalGroupsSequence := None;
     SegmentSequence :=
       Some [{| SegmentNumber := Some 1; SegmentLabel := Some "Liver";
                RecommendedDisplayCIELabValue := None |};
             {| SegmentNumber := Some 2; SegmentLabel := None;
                RecommendedDisplayCIELabValue := Some [1; 2; 3] |}];
     NumberOfFrames := declared;
     PerFrameFunctionalGroupsSequence := per_frame;
     pixel_array := Volume3D uint8 [cell 1; cell 0] |}.

Definition decoded_of (frs : list Frame) : SegData :=
  {| segmentation_name := "Seg"; segmentation_type := "BINARY";
     ref_series_uid := Some "1.2.3"; ref_sop_class_uid := None;
     pixel_spacing := None; slice_thickness := None;
     spacing_between_slices := None; image_orientation := None;
     rows := Some 1%nat; columns := Some 1%nat;
     num_frames := Z.of_nat (length frs); frames := frs |}.

(** Well-formed: two per-frame items for two declared frames. *)
Definition seg_file_ok : Dataset :=
  seg_file (Some 2) (Some [per_frame_item 1 "uid.1"; per_frame_item 2 "uid.2"]).

Definition seg_file_ok_decoded : SegData :=
  decoded_of
    [{| frame_index := 0; segment_number := Some 1;
        segment_name := Some "Liver"; segment_color := None;
        image_position_patient := Some [0; 0; 5];
        ref_sop_uid := Some "uid.1"; pixel_data := Some (cell 1) |};
     {| frame_index := 1; segment_number := Some 2;
        segment_name := Some "Label_2"; segment_color := Some [1; 2; 3];
        image_position_patient := Some [0; 0; 5];
        ref_sop_uid := Some "uid.2"; pixel_data := Some (cell 0) |}].

(** Three frames declared, one per-frame item, two planes. *)
Definition seg_file_mismatch : Dataset :=
  seg_file (Some 3) (Some [per_frame_item 1 "uid.1"]).

Definition seg_file_mismatch_decoded : SegData :=
  decoded_of
    [{| frame_index := 0; segment_number := None; segment_name := None;
        segment_color := None; image_position_patient := None;
        ref_sop_uid := None; pixel_data := Some (cell 1) |};
     {| frame_index := 1; segment_number := None; segment_name := None;
        segment_color := None; image_position_patient := None;
        ref_sop_uid := None; pixel_data := Some (cell 0) |}].

End DecoderData.

Section NiftiData.
#[local] Existing Instance Z_scalar.
Import Step_2_4_NiftiGeneration.

(** A 1x1 plane of an image slice. *)
Definition ct_cell (v : Z) : ndarray :=
  {| arr_dtype := int16; arr_shape := (1, 1)%nat; arr_cells := [v] |}.

(** A 1x2 label array, too wide for the series below. *)
Definition wide : ndarray :=
  {| arr_dtype := uint8; arr_shape := (1, 2)%nat; arr_cells := [1; 1] |}.

Definition slice_file (instance : Z) (uid : option string) (px : ndarray)
  : SliceDataset :=
  {| InstanceNumber := Some instance;
     Rows := Some 1%nat;
     Columns := Some 1%nat;
     PixelSpacing := Some [2; 3];
     SliceThickness := Some 5;
     ImageOrientationPatient := Some [1; 0; 0; 0; 1; 0];
     ImagePositionPatient := Some [10; 20; 30];
     SOPInstanceUID := uid;
     pixel_array := Some px |}.

(** Series 5: two slices, enumerated against their instance numbers. *)
Definition series_5 : list SliceDataset :=
  [slice_file 2 (Some "uid.2") (ct_cell 7);
   slice_file 1 (Some "uid.1") (ct_cell 9)].

Definition series_5_volume : Volume :=
  {| vol_dtype := int16; vol_shape := (1, 1, 2)%nat;
     vol_planes := [ct_cell 9; ct_cell 7] |}.

Definition series_5_affine : Affine :=
  [[2; 0; 0; 10]; [0; 3; 0; 20]; [0; 0; 5; 30]; [0; 0; 0; 1]].

Definition series_5_uids : list (option string) :=
  [Some "uid.1"; Some "uid.2"].

(** A series whose only slice file has no SOPInstanceUID. *)
Definition series_anon : list SliceDataset :=
  [slice_file 1 None (ct_cell 9)].

Definition info_of (path number uid : string) : SeriesInfo :=
  {| series_folder_path := path; series_number := Some number;
     series_uid := Some uid; series_description := Some "CT" |}.

(** A catalog in which the identity 1.2.3 occurs twice. *)
Definition catalog : list (string * SeriesInfo) :=
  [("1", info_of "/scans/1" "1" "1.2.100");
   ("5", info_of "/scans/5" "5" "1.2.3");
   ("6", info_of "/scans/6" "6" "1.2.3")].

Definition seg_record (ref_uid : option string) : SegInfo :=
  {| si_ref_series_uid := ref_uid; pkl_file := Some "/seg/SEG.pkl";
     series_info := None |}.

Definition resolved_record (info : SeriesInfo) : SegInfo :=
  {| si_ref_series_uid := series_uid info; pkl_file := Some "/seg/SEG.pkl";
     series_info := Some (Some info) |}.

(** Frames of segment A: two on the first slice, then one too wide and one
    that fits on the second slice. *)
Definition frame_a1 : Frame :=
  frame_of 0 (Some 1) (Some "A") (Some "uid.1") (cell 1).
Definition frame_a2 : Frame :=
  frame_of 1 (Some 1) (Some "A") (Some "uid.1") (cell 0).
Definition frame_wide : Frame :=
  frame_of 2 (Some 1) (Some "A") (Some "uid.2") wide.
Definition frame_a3 : Frame :=
  frame_of 3 (Some 1) (Some "A") (Some "uid.2") (cell 1).

(** Two more frames of segment A on the first slice: one of 16-bit
    values, one too wide. *)
Definition frame_300 : Frame :=
  frame_of 1 (Some 1) (Some "A") (Some "uid.1")
    {| arr_dtype := int16; arr_shape := (1, 1)%nat; arr_cells := [300] |}.
Definition frame_wide_1 : Frame :=
  frame_of 2 (Some 1) (Some "A") (Some "uid.1") wide.

(** A frame of segment A without slice identity. *)
Definition frame_anon : Frame :=
  frame_of 0 (Some 1) (Some "A") None (cell 1).

(** In the examples every image is one that nibabel saves. *)
Definition inputs_of (frs : list Frame) (files : list SliceDataset) : Inputs :=
  {| pickles := {[ "/seg/SEG.pkl" := object_of frs ]};
     dicom_dirs := {[ "/scans/5" := files ]};
     nib_saves := λ _ _, true |}.

Definition ready2nifti : list (string * SegInfo) :=
  [("SEG", resolved_record (info_of "/scans/5" "5" "1.2.3"))].

(** An image of one slice, left over in the output folder. *)
Definition stale_image : NiftiImage :=
  {| img_shape := [1; 1; 1]%nat; img_dtype := int16;
     img_planes := [ct_cell 0]; img_affine := series_5_affine |}.

Definition stale_folder (name : string) : gmap string StoredFile :=
  {[ path_join "/out/NIFTI" name := Readable stale_image ]}.

(** A one-slice copy of series 5 in another folder: the same series
    number and slice identifier, another geometry. *)
Definition series_5_copy : list SliceDataset :=
  [{| InstanceNumber := Some 1;
      Rows := Some 1%nat;
      Columns := Some 1%nat;
      PixelSpacing := Some [7; 7];
      SliceThickness := Some 9;
      ImageOrientationPatient := Some [1; 0; 0; 0; 1; 0];
      ImagePositionPatient := Some [0; 0; 0];
      SOPInstanceUID := Some "uid.1";
      pixel_array := Some (ct_cell 9) |}].

Definition two_folder_inputs : Inputs :=
  {| pickles := {[ "/seg/SEG.pkl" := object_of [frame_a1] ]};
     dicom_dirs := {[ "/scans/5" := series_5;
                      "/scans/5_copy" := series_5_copy ]};
     nib_saves := λ _ _, true |}.

(** Two segmentations, the second on the copy. *)
Definition two_folder_records : list (string * SegInfo) :=
  [("SEG", resolved_record (info_of "/scans/5" "5" "1.2.3"));
   ("SEG_2", resolved_record (info_of "/scans/5_copy" "5" "1.2.9"))].

End NiftiData.

Section MoreData.
#[local] Existing Instance Z_scalar.
Import ConcatMultiplObjects Step_2_3_DecodeSegmentation.

(** A directive for the decoded file: both of its segments into one. *)
Definition merge_Liver_Label_2 : MergeItem :=
  {| old_objects := ["Liver"; "Label_2"]; new_object := Some "Both" |}.

(** A file whose pixel data is a single 2D array, with no frame declared
    and empty per-frame metadata. *)
Definition single_plane_file : Dataset :=
  {| SeriesDescription := Some "Seg";
     SegmentationType := Some "BINARY";
     ReferencedSeriesSequence := None;
     ReferencedSOPClassUID := None;
     Rows := Some 1%nat;
     Columns := Some 1%nat;
     SharedFunctionalGroupsSequence := None;
     SegmentSequence := None;
     NumberOfFrames := None;
     PerFrameFunctionalGroupsSequence := Some [];
     pixel_array := Plane2D (cell 1) |}.

(** The object of two slices with the name counts that the decoder
    records for it. *)
Definition two_slices_counted : MergeState :=
  {| seg_data := two_slices;
     segment_name_count := list_to_map (name_counter (frames two_slices));
     max_seg_num := 2;
     messages := [] |}.

End MoreData.

Section SelectData.
Import Step_2_2_SelectSegmentations.

Definition assessor (path : string) (exported_as : option string)
  : AssessorInfo :=
  {| assessor_folder_path := path; segmentor_name := Some "reader";
     created_time := None; exported_name := exported_as;
     ref_class_uid := None; assessor_ref_series_uid := Some "1.2.3";
     errors := None |}.

(** Two segmentations; the exported name of the second is, but for the
    case of its letters, the folder name of the first. *)
Definition assessors : SegInfoDict :=
  [("SEG_1", assessor "/assessors/SEG_1/SEG" (Some "Liver"));
   ("SEG_2", assessor "/assessors/SEG_2/SEG" (Some "seg_1"))].

End SelectData.
End Examples.

(** * Properties of the merge (ConcatMultiplObjects.py) *)

Section MergeFacts.
Context `{Scalar}.
Import ConcatMultiplObjects.

Lemma clip_01 (v : Z) : Z.max 0 (Z.min 1 v) = 0 ∨ Z.max 0 (Z.min 1 v) = 1.
Proof. lia. Qed.

Lemma np_clip_binary (a : ndarray) : binary_array (np_clip 0 1 a).
Proof.
  unfold binary_array, np_clip; simpl.
  apply Forall_fmap, Forall_true. intros v; simpl. apply clip_01.
Qed.

Lemma build_new_frames_binary start i n name (m : SliceMap) :
  Forall binary_frame (build_new_frames start i n name (clip_slice_map m)).
Proof.
  revert i. induction m as [|[[uid ipp] a] m IH]; intros i; simpl.
  - constructor.
  - destruct (np_any (np_clip 0 1 a)); [constructor|]; auto.
    exists (np_clip 0 1 a). split; [reflexivity|apply np_clip_binary].
Qed.

Lemma build_new_frames_number start i n name (m : SliceMap) :
  Forall (λ fr, segment_number fr = Some n ∧ segment_name fr = Some name)
         (build_new_frames start i n name m).
Proof.
  revert i. induction m as [|[[uid ipp] a] m IH]; intros i; simpl.
  - constructor.
  - destruct (np_any a); [constructor|]; auto.
Qed.

(** The frames of a directive are numbered from the current frame count
    on. *)
Lemma build_new_frames_index start i n name (m : SliceMap) k fr :
  build_new_frames start i n name m !! k = Some fr →
  frame_index fr = start + i + Z.of_nat k.
Proof.
  revert i k. induction m as [|[[uid ipp] a] m IH]; intros i k; simpl.
  - by rewrite lookup_nil.
  - destruct (np_any a); [|by apply IH].
    destruct k as [|k]; simpl.
    + intros [= <-]; simpl. lia.
    + intros Hk. apply IH in Hk. lia.
Qed.

(** What one directive does to the state. *)
Lemma merge_directive_inv st d st' :
  merge_directive st d = Some st' →
  ∃ added,
    frames (seg_data st') = frames (seg_data st) ++ added
    ∧ Forall binary_frame added
    ∧ Forall (λ fr, segment_number fr = Some (max_seg_num st + 1)) added
    ∧ (max_seg_num st' = max_seg_num st
       ∨ max_seg_num st' = max_seg_num st + 1)
    ∧ (added ≠ [] → max_seg_num st' = max_seg_num st + 1).
Proof.
  unfold merge_directive. destruct (valid_entry d) as [name|].
  - destruct (emitted_frames _ _ _ _) as [new|] eqn:E; simpl; [|done].
    assert (Forall binary_frame new
            ∧ Forall (λ fr, segment_number fr = Some (max_seg_num st + 1)) new)
      as [Hb Hn].
    { unfold emitted_frames in E.
      destruct (build_slice_map _ _ _) as [m|]; simpl in E; [|done].
      injection E as <-. split; [apply build_new_frames_binary|].
      eapply Forall_impl; [apply build_new_frames_number|]. by intros ? [? _]. }
    destruct new as [|fr new].
    + intros [= <-]; simpl. exists []. rewrite app_nil_r. naive_solver.
    + intros [= <-]; simpl. exists (fr :: new). naive_solver.
  - intros [= <-]; simpl. exists []. rewrite app_nil_r.
    repeat split; auto; done.
Qed.

Lemma merge_directives_inv ds : ∀ st st',
  merge_directives st ds = Some st' →
  ∃ added,
    frames (seg_data st') = frames (seg_data st) ++ added
    ∧ Forall binary_frame added
    ∧ max_seg_num st ≤ max_seg_num st'.
Proof.
  induction ds as [|d ds IH]; intros st st'; simpl.
  - intros [= <-]. exists []. rewrite app_nil_r. split_and!; [done|done|lia].
  - destruct (merge_directive st d) as [st1|] eqn:E; simpl; [|done].
    intros Hrest. apply merge_directive_inv in E as (a1 & E1 & B1 & _ & M1 & _).
    apply IH in Hrest as (a2 & E2 & B2 & M2).
    exists (a1 ++ a2). rewrite E2, E1, app_assoc.
    split_and!; [done|by apply Forall_app|lia].
Qed.

Lemma foldl_max_ge (l : list Z) : ∀ x,
  x ≤ foldl Z.max x l ∧ Forall (λ y, y ≤ foldl Z.max x l) l.
Proof.
  induction l as [|y l IH]; intros x; simpl.
  - split; [lia|constructor].
  - destruct (IH (Z.max x y)) as [H1 H2]. split; [lia|].
    constructor; [lia|done].
Qed.

Lemma py_max_ge (l : list Z) : Forall (λ y, y ≤ py_max l) l.
Proof.
  destruct l as [|x l]; simpl; [constructor|].
  destruct (foldl_max_ge l x). by constructor.
Qed.

Lemma existing_seg_numbers_app (a b : list Frame) :
  existing_seg_numbers (a ++ b)
  = existing_seg_numbers a ++ existing_seg_numbers b.
Proof. apply omap_app. Qed.

Lemma existing_seg_numbers_const (n : Z) (l : list Frame) :
  Forall (λ fr, segment_number fr = Some n) l →
  Forall (λ k, k = n) (existing_seg_numbers l).
Proof.
  induction 1 as [|fr l Hfr _ IH]; simpl; [constructor|].
  unfold existing_seg_numbers in *; simpl. rewrite Hfr; simpl.
  by constructor.
Qed.

Lemma merge_directive_covers st d st' :
  counter_covers st → merge_directive st d = Some st' → counter_covers st'.
Proof.
  unfold counter_covers. intros Hc Hd.
  apply merge_directive_inv in Hd as (added & -> & _ & Hn & Hm & Hne).
  rewrite existing_seg_numbers_app. apply Forall_app. split.
  - eapply Forall_impl; [exact Hc|]. simpl; intros; lia.
  - destruct added as [|fr added]; [constructor|].
    specialize (Hne ltac:(done)).
    apply existing_seg_numbers_const in Hn.
    eapply Forall_impl; [exact Hn|]. simpl; intros; lia.
Qed.

Lemma merge_directives_covers ds : ∀ st st',
  counter_covers st → merge_directives st ds = Some st' → counter_covers st'.
Proof.
  induction ds as [|d ds IH]; intros st st' Hc; simpl.
  - by intros [= <-].
  - destruct (merge_directive st d) as [st1|] eqn:E; simpl; [|done].
    apply IH. by eapply merge_directive_covers.
Qed.

(** The frames emitted by one directive share one segment number, which is
    above every segment number that the object holds when the directive
    runs. *)
Lemma merge_number_fresh sd counts ds1 d st st' :
  merge_directives
    {| seg_data := sd; segment_name_count := counts;
       max_seg_num := py_max (existing_seg_numbers (frames sd));
       messages := [] |} ds1 = Some st →
  merge_directive st d = Some st' →
  ∃ added,
    frames (seg_data st') = frames (seg_data st) ++ added
    ∧ Forall (λ fr, segment_number fr = Some (max_seg_num st + 1)) added
    ∧ Forall (λ n, n < max_seg_num st + 1)
             (existing_seg_numbers (frames (seg_data st))).
Proof.
  intros Hrun Hd.
  apply merge_directives_covers in Hrun; [|apply py_max_ge].
  apply merge_directive_inv in Hd as (added & E & _ & Hn & _).
  exists added. split_and!; [done|done|].
  eapply Forall_impl; [exact Hrun|]. simpl; intros; lia.
Qed.

(** Two directives of one run that both emit frames get strictly
    increasing segment numbers. *)
Lemma merge_numbers_increase st d st1 ds st2 d' st3 a1 a2 f1 f2 :
  merge_directive st d = Some st1 →
  frames (seg_data st1) = frames (seg_data st) ++ a1 →
  merge_directives st1 ds = Some st2 →
  merge_directive st2 d' = Some st3 →
  frames (seg_data st3) = frames (seg_data st2) ++ a2 →
  f1 ∈ a1 → f2 ∈ a2 →
  ∃ n1 n2, segment_number f1 = Some n1 ∧ segment_number f2 = Some n2
           ∧ n1 < n2.
Proof.
  intros H1 E1 Hds H2 E2 I1 I2.
  apply merge_directive_inv in H1 as (b1 & E1' & _ & N1 & _ & M1).
  rewrite E1' in E1. apply app_inv_head in E1 as ->.
  apply merge_directives_inv in Hds as (_ & _ & _ & Mds).
  apply merge_directive_inv in H2 as (b2 & E2' & _ & N2 & _ & _).
  rewrite E2' in E2. apply app_inv_head in E2 as ->.
  rewrite Forall_forall in N1, N2.
  exists (max_seg_num st + 1), (max_seg_num st2 + 1).
  split_and!; [by apply N1|by apply N2|].
  assert (a1 ≠ []) as Hne by (intros ->; by apply elem_of_nil in I1).
  specialize (M1 Hne). lia.
Qed.

(** *** The merge completes when the label arrays share one shape and
    one element type *)

Lemma iadd_casts_refl t : iadd_casts t t = true.
Proof. by destruct t. Qed.

(** On arrays of one shape whose element types are cast, [+=] adds
    element by element. *)
Lemma np_iadd_same (a b : ndarray) :
  iadd_casts (arr_dtype a) (arr_dtype b) = true →
  arr_shape b = arr_shape a →
  np_iadd a b
  = Some {| arr_dtype := arr_dtype a; arr_shape := arr_shape a;
            arr_cells := zip_with (λ x y, wrap (arr_dtype a) (x + y))
                                  (arr_cells a) (arr_cells b) |}.
Proof.
  intros Hc Hs. unfold np_iadd, np_broadcast_to. rewrite Hc.
  by rewrite decide_True.
Qed.

Lemma np_iadd_inv (a b c : ndarray) :
  np_iadd a b = Some c →
  arr_shape c = arr_shape a ∧ arr_dtype c = arr_dtype a.
Proof.
  unfold np_iadd. destruct (iadd_casts _ _); [|done].
  destruct (np_broadcast_to _ _); [|done]. by intros [= <-].
Qed.

Lemma slice_map_add_total sh t key px (m : SliceMap) :
  uniform_map sh t m → arr_shape px = sh → arr_dtype px = t →
  ∃ m', slice_map_add key px m = Some m' ∧ uniform_map sh t m'.
Proof.
  intros Hm Hpx Ht. induction Hm as [|[k a] m Ha Hm IH]; simpl.
  - rewrite np_iadd_same; [|apply iadd_casts_refl|done]. simpl.
    eexists; split; [done|]. constructor; [by simpl|constructor].
  - simpl in Ha. destruct Ha as [Has Hat]. destruct (decide (k = key)).
    + rewrite np_iadd_same;
        [|rewrite Hat, Ht; apply iadd_casts_refl|congruence].
      simpl. eexists; split; [done|]. by constructor.
    + destruct IH as (m' & -> & Hm'); simpl.
      eexists; split; [done|]. by constructor.
Qed.

Lemma build_slice_map_total sh t old frs : ∀ m : SliceMap,
  uniform_arrays sh t frs → uniform_map sh t m →
  ∃ m', build_slice_map old m frs = Some m' ∧ uniform_map sh t m'.
Proof.
  induction frs as [|fr frs IH]; intros m Hf Hm; simpl.
  - eauto.
  - apply Forall_cons in Hf as [Hfr Hf].
    assert (∃ m1, slice_map_step old m fr = Some m1 ∧ uniform_map sh t m1)
      as (m1 & -> & Hm1).
    { unfold slice_map_step.
      destruct (segment_name fr); [|eauto].
      destruct (decide _); [|eauto].
      destruct (pixel_data fr) as [px|] eqn:Epx; [|eauto].
      destruct (ref_sop_uid fr); [|eauto].
      destruct (Hfr px eq_refl) as [? ?].
      by apply slice_map_add_total. }
    simpl. by apply IH.
Qed.

Lemma build_new_frames_uniform sh t start i n name (m : SliceMap) :
  uniform_map sh t m →
  uniform_arrays sh t (build_new_frames start i n name m).
Proof.
  intros Hm. revert i.
  induction Hm as [|[[uid ipp] a] m Ha Hm IH]; intros i; simpl.
  - constructor.
  - destruct (np_any a); [|apply IH].
    constructor; [|apply IH]. simpl. by intros ? [= <-].
Qed.

Lemma merge_directive_total sh t st d :
  uniform_arrays sh t (frames (seg_data st)) →
  ∃ st', merge_directive st d = Some st'
         ∧ uniform_arrays sh t (frames (seg_data st')).
Proof.
  intros Hu. unfold merge_directive.
  destruct (valid_entry d) as [name|]; [|eauto].
  unfold emitted_frames.
  destruct (build_slice_map_total sh t (old_objects d) _ [] Hu)
    as (m & -> & Hm); [constructor|]; simpl.
  assert (uniform_map sh t (clip_slice_map m)) as Hc.
  { unfold uniform_map, clip_slice_map. by apply Forall_fmap. }
  pose proof (build_new_frames_uniform sh t
    (Z.of_nat (length (frames (seg_data st)))) 0 (max_seg_num st + 1) name _ Hc)
    as Hnew.
  destruct (build_new_frames _ _ _ _ _) as [|fr new]; [eauto|].
  eexists; split; [done|]. simpl. by apply Forall_app.
Qed.

(** The merge of an object runs to its end when its label arrays have one
    shape and one element type. *)
Lemma merge_object_total sh t sd counts folder_merges global_merges :
  uniform_arrays sh t (frames sd) →
  is_Some (merge_object sd counts folder_merges global_merges).
Proof.
  unfold merge_object. generalize (folder_merges ++ global_merges).
  generalize (py_max (existing_seg_numbers (frames sd))).
  generalize (@nil Message).
  intros msgs n ds Hu.
  set (st := {| seg_data := sd; segment_name_count := counts;
                max_seg_num := n; messages := msgs |}).
  assert (uniform_arrays sh t (frames (seg_data st))) as Hst by done.
  clearbody st. revert st Hst.
  induction ds as [|d ds IH]; intros st Hst; simpl; [eauto|].
  destruct (merge_directive_total sh t st d Hst) as (st' & -> & Hst'); simpl.
  by apply IH.
Qed.

(** C3.  Merge binariness: whatever the frames of the object hold, every
    frame that a merge directive emits carries a label array whose values
    are all 0 or 1; sums of overlapping source masks are clipped to [0, 1]
    before the frames are built. *)
Theorem merge_binariness st d st' i fr :
  merge_directive st d = Some st' →
  (length (frames (seg_data st)) ≤ i)%nat →
  frames (seg_data st') !! i = Some fr →
  binary_frame fr.
Proof.
  intros Hd Hi Hfr.
  apply merge_directive_inv in Hd as (added & E & Hb & _).
  rewrite E, lookup_app_r in Hfr by done.
  rewrite Forall_forall in Hb. apply Hb.
  by eapply list_elem_of_lookup_2.
Qed.

(** C7.  Merge is non-destructive: after a merge plan has been applied to
    an object, every frame that the object had before is still at the same
    position of the frame list, unchanged. *)
Theorem merge_non_destructive sd counts folder_merges global_merges st' i fr :
  merge_object sd counts folder_merges global_merges = Some st' →
  frames sd !! i = Some fr →
  frames (seg_data st') !! i = Some fr.
Proof.
  unfold merge_object. intros Hrun Hfr.
  apply merge_directives_inv in Hrun as (added & E & _); simpl in E.
  rewrite E. by apply lookup_app_l_Some.
Qed.

End MergeFacts.

Section MergeExamples.
#[local] Existing Instance Z_scalar.
Import ConcatMultiplObjects Examples.

(** The example of the specification: merging A and B into C on the two
    slices gives two new frames with the shared number 3; on the second
    slice the sum 2 is clipped to 1. *)
Example merge_two_slices :
  (λ st, frames (seg_data st))
    <$> merge_object two_slices ∅ [] [merge_A_B_into_C]
  = Some (frames two_slices
          ++ [frame_of 4 (Some 3) (Some "C") (Some "uid.1") (cell 1);
              frame_of 5 (Some 3) (Some "C") (Some "uid.2") (cell 1)]).
Proof. vm_compute. reflexivity. Qed.

Lemma merge_binariness_witness :
  merge_directive (start_state two_slices) merge_A_B_into_C
  = Some two_slices_merged
  ∧ binary_frame (frame_of 5 (Some 3) (Some "C") (Some "uid.2") (cell 1)).
Proof.
  assert (merge_directive (start_state two_slices) merge_A_B_into_C
          = Some two_slices_merged) as E by (vm_compute; reflexivity).
  split; [exact E|].
  apply (merge_binariness _ _ _ 5%nat _ E); [simpl; lia|reflexivity].
Defined.

Lemma merge_non_destructive_witness :
  merge_object two_slices ∅ [] [merge_A_B_into_C] = Some two_slices_merged
  ∧ frames (seg_data two_slices_merged) !! 3%nat
    = Some (frame_of 3 (Some 2) (Some "B") (Some "uid.2") (cell 1)).
Proof.
  assert (merge_object two_slices ∅ [] [merge_A_B_into_C]
          = Some two_slices_merged) as E by (vm_compute; reflexivity).
  split; [exact E|].
  apply (merge_non_destructive _ _ _ _ _ 3%nat _ E). reflexivity.
Defined.

(** C2, evaluated.  The counter is read from the frames once, before the
    first directive, and is advanced by every valid directive, also by one
    that emits no frame.  On an object whose only segment has number 1, a
    directive that matches nothing followed by a directive that merges A
    into B gives B the number 3, while the largest number present when the
    second directive runs is 1, so that maximum plus one is 2. *)
Theorem merge_number_after_empty_directive :
  ∃ st1 st2 fr,
    merge_directive (start_state only_A) merge_X_into_Y = Some st1
    ∧ frames (seg_data st1) = frames only_A
    ∧ merge_directive st1 merge_A_into_B = Some st2
    ∧ frames (seg_data st2) = frames (seg_data st1) ++ [fr]
    ∧ segment_number fr = Some 3
    ∧ py_max (existing_seg_numbers (frames (seg_data st1))) + 1 = 2.
Proof.
  eexists _, _, _. split_and!.
  - vm_compute. reflexivity.
  - reflexivity.
  - vm_compute. reflexivity.
  - reflexivity.
  - reflexivity.
  - reflexivity.
Qed.

End MergeExamples.

(** * Properties of the decoder (Step_2_3_DecodeSegmentation.py) *)

Section DecoderFacts.
Context `{Scalar}.
Import Step_2_3_DecodeSegmentation.

Lemma per_frame_ok_true ds :
  per_frame_ok ds = true ↔
  ∃ items, PerFrameFunctionalGroupsSequence ds = Some items
           ∧ Z.of_nat (length items) = declared_num_frames ds.
Proof.
  unfold per_frame_ok. destruct (PerFrameFunctionalGroupsSequence ds) as [l|].
  - rewrite bool_decide_eq_true. split.
    + intros Hl. by exists l.
    + by intros (items & [= <-] & Hl).
  - split; [done|]. by intros (items & Hp & _).
Qed.

Lemma fallback_frame_null ds i fr :
  fallback_frame ds i = Some fr → null_identity fr.
Proof.
  unfold fallback_frame. destruct (plane _ _); simpl; [|done].
  intros [= <-]. by repeat split.
Qed.

Lemma decode_frames_length ds frs :
  decode_frames ds = Some frs →
  if per_frame_ok ds
  then Z.of_nat (length frs) = declared_num_frames ds
  else depth (pixel_array ds) = Some (length frs) ∧ Forall null_identity frs.
Proof.
  unfold decode_frames.
  destruct (depth (pixel_array ds)) as [d|]; simpl; [|done].
  destruct (per_frame_ok ds) eqn:Hok; intros Hm.
  - apply length_mapM in Hm. rewrite length_seq in Hm.
    apply per_frame_ok_true in Hok as (items & _ & Hlen). lia.
  - split.
    + apply length_mapM in Hm. rewrite length_seq in Hm. by rewrite Hm.
    + apply mapM_Some_1 in Hm.
      induction Hm as [|i fr l k Hfr _ IH]; constructor; [|done].
      by eapply fallback_frame_null.
Qed.

(** C4.  Frame count: when the per-frame metadata is present and as long
    as the declared number of frames, the decoded frame list has exactly
    the declared number of entries; otherwise there is one frame per plane
    of the pixel array, each without segment and slice identity; and the
    recorded [num_frames] is always the length of the frame list. *)
Theorem decode_frame_count ds sd :
  decode_segmentation_dcm ds = Some sd →
  num_frames sd = Z.of_nat (length (frames sd))
  ∧ (∀ items,
       PerFrameFunctionalGroupsSequence ds = Some items →
       Z.of_nat (length items) = declared_num_frames ds →
       Z.of_nat (length (frames sd)) = declared_num_frames ds)
  ∧ ((PerFrameFunctionalGroupsSequence ds = None
      ∨ ∃ items, PerFrameFunctionalGroupsSequence ds = Some items
                 ∧ Z.of_nat (length items) ≠ declared_num_frames ds) →
     depth (pixel_array ds) = Some (length (frames sd))
     ∧ Forall null_identity (frames sd)).
Proof.
  unfold decode_segmentation_dcm.
  destruct (decode_frames ds) as [frs|] eqn:E; simpl; [|done].
  intros [= <-]; simpl. apply decode_frames_length in E.
  split_and!; [done| |].
  - intros items Hp Hl.
    assert (per_frame_ok ds = true) as Hok
      by (apply per_frame_ok_true; eauto).
    by rewrite Hok in E.
  - intros Hbad.
    assert (per_frame_ok ds = false) as Hok.
    { apply not_true_is_false. rewrite per_frame_ok_true.
      intros (items & Hp & Hl). destruct Hbad as [Hn|(items' & Hp' & Hl')];
        congruence. }
    by rewrite Hok in E.
Qed.

(** The decoder returns an object as soon as the pixel data is a stack of
    planes and either [Rows] and [Columns] are present or no more frames
    are declared than there are planes. *)
Lemma decode_segmentation_dcm_total ds dt planes :
  pixel_array ds = Volume3D dt planes →
  (is_Some (Rows ds) ∧ is_Some (Columns ds)
   ∨ declared_num_frames ds ≤ Z.of_nat (length planes)) →
  is_Some (decode_segmentation_dcm ds).
Proof.
  intros Hpa Hsize. unfold decode_segmentation_dcm.
  assert (is_Some (decode_frames ds)) as [frs ->]; [|by simpl; eauto].
  unfold decode_frames. rewrite Hpa; simpl.
  destruct (per_frame_ok ds) eqn:Hok.
  - apply per_frame_ok_true in Hok as (items & Hp & Hl).
    apply mapM_is_Some_2, Forall_forall. intros i Hi.
    apply elem_of_seq in Hi. simpl.
    unfold decode_frame. rewrite Hp, Hpa; simpl.
    destruct (lookup_lt_is_Some_2 items i) as [it ->]; [lia|]; simpl.
    destruct (decide (i < length planes)%nat) as [Hlt|Hge].
    + destruct (lookup_lt_is_Some_2 planes i Hlt) as [a ->]. by simpl; eauto.
    + destruct Hsize as [[[r ->] [c ->]]|Hle]; [by simpl; eauto|lia].
  - apply mapM_is_Some_2, Forall_forall. intros i Hi.
    apply elem_of_seq in Hi. simpl.
    unfold fallback_frame. rewrite Hpa; simpl.
    destruct (lookup_lt_is_Some_2 planes i) as [a ->]; [lia|]. by simpl; eauto.
Qed.

End DecoderFacts.

Section DecoderExamples.
#[local] Existing Instance Z_scalar.
Import Step_2_3_DecodeSegmentation Examples.

Example decode_well_formed :
  decode_segmentation_dcm seg_file_ok = Some seg_file_ok_decoded.
Proof. vm_compute. reflexivity. Qed.

Example decode_mismatch :
  decode_segmentation_dcm seg_file_mismatch = Some seg_file_mismatch_decoded.
Proof. vm_compute. reflexivity. Qed.

Lemma decode_frame_count_witness :
  decode_segmentation_dcm seg_file_mismatch = Some seg_file_mismatch_decoded
  ∧ num_frames seg_file_mismatch_decoded = 2
  ∧ depth (pixel_array seg_file_mismatch) = Some 2%nat
  ∧ Forall null_identity (frames seg_file_mismatch_decoded).
Proof.
  assert (decode_segmentation_dcm seg_file_mismatch
          = Some seg_file_mismatch_decoded) as E by (vm_compute; reflexivity).
  destruct (decode_frame_count _ _ E) as (Hn & _ & Hfb).
  split_and!; [exact E|exact Hn| |].
  - apply Hfb. right. eexists. split; [reflexivity|]. vm_compute. discriminate.
  - apply Hfb. right. eexists. split; [reflexivity|]. vm_compute. discriminate.
Defined.

End DecoderExamples.

(** * Properties of step 2.4.1 (the reference-series resolver) *)

Section ResolverFacts.
Context `{Scalar}.
Import Step_2_4_NiftiGeneration.

Lemma find_matching_series_first pre key info post ref_uid :
  Forall (λ kv : string * SeriesInfo, series_uid kv.2 ≠ Some ref_uid) pre →
  series_uid info = Some ref_uid →
  find_matching_series (pre ++ (key, info) :: post) ref_uid = Some (key, info).
Proof.
  intros Hpre Hinfo. induction Hpre as [|[k i] pre Hk _ IH]; simpl.
  - by rewrite decide_True.
  - simpl in Hk. by rewrite decide_False.
Qed.

Lemma find_matching_series_none study ref_uid :
  Forall (λ kv : string * SeriesInfo, series_uid kv.2 ≠ Some ref_uid) study →
  find_matching_series study ref_uid = None.
Proof.
  induction 1 as [|[k i] study Hk _ IH]; simpl; [done|].
  simpl in Hk. by rewrite decide_False.
Qed.

(** An object without a declared series identity is left as it is: no
    ["series_info"] is attached, not even a null one. *)
Lemma resolve_series_undeclared study seg_info :
  truthy_opt (si_ref_series_uid seg_info) = None →
  resolve_series study seg_info = seg_info.
Proof.
  unfold resolve_series. by destruct (si_ref_series_uid seg_info) as [[|]|].
Qed.

(** C9.  The resolver compares the declared series identity of an object
    with the [series_uid] of the catalog entries by equality of strings;
    the first entry that matches is attached, also when later entries
    match too, and when no entry matches the record gets a null
    ["series_info"]. *)
Theorem resolve_series_first_match study seg_info ref_uid :
  si_ref_series_uid seg_info = Some ref_uid →
  ref_uid ≠ "" →
  (∀ pre key info post,
     study = pre ++ (key, info) :: post →
     Forall (λ kv, series_uid kv.2 ≠ Some ref_uid) pre →
     series_uid info = Some ref_uid →
     series_info (resolve_series study seg_info) = Some (Some info))
  ∧ (Forall (λ kv, series_uid kv.2 ≠ Some ref_uid) study →
     series_info (resolve_series study seg_info) = Some None).
Proof.
  intros Hdecl Hne. unfold resolve_series. rewrite Hdecl.
  destruct ref_uid as [|c ref_uid]; [done|]. split.
  - intros pre key info post -> Hpre Hinfo.
    rewrite find_matching_series_first by done. simpl. by destruct info.
  - intros Hnone. by rewrite find_matching_series_none.
Qed.

End ResolverFacts.

(** * Properties of the two series loaders *)

Section LoaderFacts.
Context `{Scalar}.
Import Step_2_4_NiftiGeneration.

Lemma np_zeros3_wf sh t : vol_wf (np_zeros3 sh t).
Proof.
  split; simpl.
  - apply length_replicate.
  - by apply Forall_replicate.
Qed.

Lemma vol_set_wf v idx arr :
  vol_wf v → arr_shape arr = (vol_shape v).1 → vol_wf (vol_set v idx arr).
Proof.
  intros [Hl Hf] Ha. split; simpl.
  - by rewrite length_insert.
  - by apply Forall_insert.
Qed.

Lemma np_broadcast_to_shape sh (b b' : ndarray) :
  np_broadcast_to sh b = Some b' →
  arr_shape b' = sh ∧ (arr_shape b = sh → b' = b).
Proof.
  unfold np_broadcast_to.
  destruct (decide (arr_shape b = sh)) as [Hs|Hs]; [by intros [= <-]|].
  destruct (decide (broadcastable sh b)); [|done]. by intros [= <-].
Qed.

Lemma fill_volume_shape slices : ∀ v idx v',
  fill_volume v idx slices = Some v' →
  vol_shape v' = vol_shape v ∧ (vol_wf v → vol_wf v').
Proof.
  induction slices as [|ds slices IH]; intros v idx v'; simpl.
  - by intros [= <-].
  - destruct (pixel_array ds) as [arr|]; simpl; [|done].
    destruct (np_broadcast_to _ arr) as [b|] eqn:Eb; simpl; [|done].
    apply np_broadcast_to_shape in Eb as [Hb _].
    intros Hrest. apply IH in Hrest as [Hs Hw]. simpl in Hs.
    split; [done|]. intros Hv. apply Hw. by apply vol_set_wf.
Qed.

Lemma fill_volume_first v idx ds slices v' :
  fill_volume v idx (ds :: slices) = Some v' → is_Some (pixel_array ds).
Proof. simpl. destruct (pixel_array ds); [eauto|done]. Qed.

#[local] Arguments fill_volume : simpl never.

Lemma sort_slices_nil files : sort_slices files = [] → files = [].
Proof.
  destruct files as [|ds files]; [done|]. simpl.
  destruct (sort_slices files) as [|ds' l]; simpl; [done|].
  by destruct (decide _).
Qed.

(** Whenever the loader of step 2.4.2 returns, the loader of step 2.4.3
    returns on the same folder, with the same shape and the same affine. *)
Lemma load_sop_uid_order_agrees files vol aff dims :
  load_dicom_series files = Some (vol, aff, dims) →
  ∃ sop_list dt,
    load_sop_uid_order files = Some (sop_list, dims, aff, dt)
    ∧ length sop_list = dims.2.
Proof.
  unfold load_dicom_series, load_sop_uid_order.
  destruct (sort_slices files) as [|first slices] eqn:Es; [done|].
  destruct files as [|f0 files]; [done|].
  destruct (Rows first) as [r|]; simpl; [|done].
  destruct (Columns first) as [c|]; simpl; [|done].
  destruct (fill_volume _ _ _) as [v|] eqn:Ev; simpl; [|done].
  apply fill_volume_first in Ev as [arr Harr].
  destruct (np_cross _ _) as [sc|]; simpl; [|done].
  unfold default.
  destruct (_ !! 0%nat) as [s0|]; simpl; [|done].
  destruct (_ !! 1%nat) as [s1|]; simpl; [|done].
  destruct (affine_set_col 0 _ _) as [a0|]; simpl; [|done].
  destruct (affine_set_col 1 _ _) as [a1|]; simpl; [|done].
  destruct (affine_set_col 2 _ _) as [a2|]; simpl; [|done].
  destruct (match ImagePositionPatient first with
            | Some ipp => affine_set_col 3 ipp a2
            | None => Some a2
            end) as [a3|]; simpl; [|done].
  intros [= <- <- <-]. rewrite Harr; simpl.
  eexists _, _. split; [done|]. simpl. by rewrite length_fmap.
Qed.

Lemma load_dicom_series_wf files vol aff dims :
  load_dicom_series files = Some (vol, aff, dims) →
  vol_shape vol = dims ∧ vol_wf vol.
Proof.
  unfold load_dicom_series.
  destruct (sort_slices files) as [|first slices] eqn:Es; [done|].
  destruct (Rows first) as [r|]; simpl; [|done].
  destruct (Columns first) as [c|]; simpl; [|done].
  destruct (fill_volume _ _ _) as [v|] eqn:Ev; simpl; [|done].
  intros Hrest.
  assert (vol = v ∧ dims = (r, c, S (length slices))) as [-> ->].
  { destruct (np_cross _ _); simpl in Hrest; [|done].
    destruct (_ !! 0%nat); simpl in Hrest; [|done].
    destruct (_ !! 1%nat); simpl in Hrest; [|done].
    destruct (affine_set_col 0 _ _); simpl in Hrest; [|done].
    destruct (affine_set_col 1 _ _); simpl in Hrest; [|done].
    destruct (affine_set_col 2 _ _) as [a2|]; simpl in Hrest; [|done].
    destruct (match ImagePositionPatient first with
              | Some ipp => affine_set_col 3 ipp a2
              | None => Some a2
              end); simpl in Hrest; [|done].
    by injection Hrest as <- _ <-. }
  apply fill_volume_shape in Ev as [Hs Hw]. simpl in Hs.
  split; [done|]. apply Hw, np_zeros3_wf.
Qed.

End LoaderFacts.

(** * Properties of step 2.4.3 (label volumes) *)

Section LabelVolumeFacts.
Context `{Scalar}.
Import Step_2_4_NiftiGeneration.

(** *** The lookup from instance identifier to slice index *)

Lemma index_sop_uids_Some l : ∀ i0 m k i,
  index_sop_uids i0 l m !! k = Some i →
  (∃ j, i = (i0 + j)%nat ∧ l !! j = Some k
        ∧ ∀ j', (j < j')%nat → l !! j' ≠ Some k)
  ∨ (m !! k = Some i ∧ k ∉ l).
Proof.
  induction l as [|suid l IH]; intros i0 m k i; simpl.
  - intros Hm. right. split; [done|]. apply not_elem_of_nil.
  - intros Hl. apply IH in Hl as [(j & -> & Hj & Hlast)|[Hm Hk]].
    + left. exists (S j). split_and!; [lia|done|].
      intros [|j'] Hlt; [lia|]. simpl. apply Hlast. lia.
    + destruct (decide (suid = k)) as [->|Hne].
      * rewrite lookup_insert_eq in Hm. injection Hm as <-.
        left. exists 0%nat. split_and!; [lia|done|].
        intros [|j'] Hlt; [lia|]. simpl. intros Hj'.
        apply Hk. by eapply list_elem_of_lookup_2.
      * rewrite lookup_insert_ne in Hm by done.
        right. split; [done|]. by apply not_elem_of_cons.
Qed.

Lemma index_sop_uids_None l : ∀ i0 m k,
  index_sop_uids i0 l m !! k = None → k ∉ l.
Proof.
  induction l as [|suid l IH]; intros i0 m k; simpl.
  - intros _. apply not_elem_of_nil.
  - intros Hl. apply not_elem_of_cons. split; [|by eapply IH].
    intros ->.
    assert (∀ l i0 (m : gmap (option string) nat) k,
              is_Some (m !! k) → is_Some (index_sop_uids i0 l m !! k)) as Hk.
    { clear. induction l as [|s l IH]; intros i0 m k Hm; simpl; [done|].
      apply IH. destruct (decide (s = k)) as [->|].
      - rewrite lookup_insert_eq. eauto.
      - by rewrite lookup_insert_ne. }
    destruct (Hk l (S i0) (<[suid := i0]> m) suid) as [x Hx].
    { rewrite lookup_insert_eq. eauto. }
    congruence.
Qed.

(** An identifier is mapped to the index of the last slice that carries
    it, and to nothing when no slice carries it. *)
Lemma sop_uid_to_index_Some sop_uid_list k i :
  sop_uid_to_index sop_uid_list !! k = Some i →
  sop_uid_list !! i = Some k
  ∧ ∀ j, (i < j)%nat → sop_uid_list !! j ≠ Some k.
Proof.
  unfold sop_uid_to_index. intros Hl.
  apply index_sop_uids_Some in Hl as [(j & -> & Hj & Hlast)|[Hm _]].
  - done.
  - by rewrite lookup_empty in Hm.
Qed.

Lemma sop_uid_to_index_None sop_uid_list k :
  sop_uid_to_index sop_uid_list !! k = None ↔ k ∉ sop_uid_list.
Proof.
  split.
  - apply index_sop_uids_None.
  - intros Hk. destruct (sop_uid_to_index sop_uid_list !! k) as [i|] eqn:E;
      [|done].
    apply sop_uid_to_index_Some in E as [E _].
    exfalso. apply Hk. by eapply list_elem_of_lookup_2.
Qed.

(** *** The grouping of the frames by segment name *)

Lemma sfm_get_append s s' e (m : SegmentFramesMap) :
  sfm_get s (sfm_append s' e m)
  = if decide (s' = s) then sfm_get s m ++ [e] else sfm_get s m.
Proof.
  induction m as [|[k l] m IH]; simpl.
  - destruct (decide (s' = s)); by simpl.
  - destruct (decide (k = s')) as [->|Hk]; simpl.
    + destruct (decide (s' = s)); by simpl.
    + destruct (decide (k = s)) as [->|]; [by rewrite decide_False|done].
Qed.

Lemma sfm_append_keys s e (m : SegmentFramesMap) :
  (sfm_append s e m).*1 = if decide (s ∈ m.*1) then m.*1 else m.*1 ++ [s].
Proof.
  induction m as [|[k l] m IH].
  - by destruct (decide (s ∈ ([] : SegmentFramesMap).*1))
      as [Hin%elem_of_nil|].
  - change (((k, l) :: m).*1) with (k :: m.*1).
    change (sfm_append s e ((k, l) :: m))
      with (if decide (k = s) then (k, l ++ [e]) :: m
            else (k, l) :: sfm_append s e m).
    destruct (decide (k = s)) as [->|Hk].
    + rewrite decide_True; [done|apply elem_of_cons; by left].
    + change (((k, l) :: sfm_append s e m).*1)
        with (k :: (sfm_append s e m).*1).
      rewrite IH. destruct (decide (s ∈ m.*1)) as [Hin|Hnin].
      * rewrite decide_True; [done|apply elem_of_cons; by right].
      * rewrite decide_False; [done|].
        apply not_elem_of_cons. split; [done|done].
Qed.

Lemma sfm_get_elem s l (m : SegmentFramesMap) :
  NoDup m.*1 → (s, l) ∈ m → sfm_get s m = l.
Proof.
  induction m as [|[k l'] m IH]; simpl; intros Hnd Hin.
  - by apply elem_of_nil in Hin.
  - apply NoDup_cons in Hnd as [Hk Hnd].
    apply elem_of_cons in Hin as [[= <- <-]|Hin].
    + by rewrite decide_True.
    + rewrite decide_False; [by apply IH|].
      intros ->. apply Hk. apply list_elem_of_fmap. by exists (s, l).
Qed.

Lemma segment_frames_map_keys index frs :
  NoDup (segment_frames_map index frs).*1.
Proof.
  unfold segment_frames_map.
  induction frs as [|fr frs IH] using rev_ind; simpl; [constructor|].
  rewrite foldl_snoc. unfold group_frame at 1.
  destruct (frame_entry index fr); [|done].
  rewrite sfm_append_keys. destruct (decide _) as [|Hnin]; [done|].
  apply NoDup_app. split_and!; [done| |apply NoDup_singleton].
  intros x Hx ->%list_elem_of_singleton. done.
Qed.

Lemma segment_frames_map_get index frs s :
  sfm_get s (segment_frames_map index frs) = entries index s frs.
Proof.
  unfold segment_frames_map, entries.
  induction frs as [|fr frs IH] using rev_ind; simpl; [done|].
  rewrite foldl_snoc, filter_app, omap_app, <- IH.
  rewrite filter_cons, filter_nil.
  unfold group_frame at 1.
  destruct (frame_entry index fr) as [e|] eqn:He.
  - rewrite sfm_get_append.
    destruct (decide (segment_name fr = s)); simpl.
    + by rewrite He.
    + by rewrite app_nil_r.
  - destruct (decide (segment_name fr = s)); simpl.
    + by rewrite He, app_nil_r.
    + by rewrite app_nil_r.
Qed.

(** Every group holds exactly the pairs of the frames of its name, in
    frame order. *)
Lemma segment_frames_map_elem index frs s l :
  (s, l) ∈ segment_frames_map index frs → l = entries index s frs.
Proof.
  intros Hin. rewrite <- segment_frames_map_get.
  symmetry. apply sfm_get_elem; [apply segment_frames_map_keys|done].
Qed.

Lemma entries_elem index s frs i a :
  (i, a) ∈ entries index s frs ↔
  ∃ fr, fr ∈ frs ∧ segment_name fr = s ∧ pixel_data fr = Some a
        ∧ index !! ref_sop_uid fr = Some i.
Proof.
  unfold entries. rewrite list_elem_of_omap. split.
  - intros (fr & Hfr & He). apply list_elem_of_filter in Hfr as [Hs Hfr].
    exists fr. unfold frame_entry in He.
    destruct (index !! ref_sop_uid fr); [|done].
    destruct (pixel_data fr); [|done].
    by injection He as <- <-.
  - intros (fr & Hfr & Hs & Hp & Hi). exists fr. split.
    + by apply list_elem_of_filter.
    + unfold frame_entry. by rewrite Hi, Hp.
Qed.

Lemma entries_app index s (l1 l2 : list Frame) :
  entries index s (l1 ++ l2) = entries index s l1 ++ entries index s l2.
Proof. unfold entries. by rewrite filter_app, omap_app. Qed.

Lemma entries_cons index s fr (l : list Frame) :
  entries index s (fr :: l)
  = (if decide (segment_name fr = s)
     then option_list (frame_entry index fr) else [])
    ++ entries index s l.
Proof.
  unfold entries. rewrite filter_cons.
  destruct (decide (segment_name fr = s)); simpl; [|done].
  by destruct (frame_entry index fr).
Qed.

(** *** The placement loop *)

Lemma foldl_place_mask folder s sh l : ∀ v w,
  foldl (place_mask folder s sh) (v, w) l
  = (foldl (place_plane sh) v l, w ++ mismatch_warnings folder s sh l).
Proof.
  unfold mismatch_warnings.
  induction l as [|e l IH]; intros v w; simpl.
  - by rewrite app_nil_r.
  - unfold place_mask at 2, place_plane at 2; simpl.
    destruct (decide (fits sh e.2)); rewrite IH; [done|].
    by rewrite <- app_assoc.
Qed.

Lemma build_mask_eq folder s sh l :
  build_mask folder s sh l
  = (foldl (place_plane sh) (np_zeros3 sh uint8) l,
     mismatch_warnings folder s sh l).
Proof. unfold build_mask. by rewrite foldl_place_mask. Qed.

Lemma mismatch_warnings_app folder s sh l1 l2 :
  mismatch_warnings folder s sh (l1 ++ l2)
  = mismatch_warnings folder s sh l1 ++ mismatch_warnings folder s sh l2.
Proof. apply omap_app. Qed.

Lemma fits_shape sh a : fits sh a ↔ arr_shape a = sh.1.
Proof.
  unfold fits. destruct (arr_shape a) as [ar ac], sh as [[r c] k]; simpl.
  split; [by intros [-> ->]|by intros [= -> ->]].
Qed.

Lemma foldl_place_plane_shape sh l : ∀ v,
  vol_shape (foldl (place_plane sh) v l) = vol_shape v
  ∧ vol_dtype (foldl (place_plane sh) v l) = vol_dtype v
  ∧ length (vol_planes (foldl (place_plane sh) v l)) = length (vol_planes v).
Proof.
  induction l as [|e l IH]; intros v; simpl; [done|].
  destruct (IH (place_plane sh v e)) as (-> & -> & ->).
  unfold place_plane. destruct (decide _); simpl; [|done].
  by rewrite length_insert.
Qed.

Lemma foldl_place_plane_wf sh l : ∀ v,
  vol_shape v = sh → vol_wf v → vol_wf (foldl (place_plane sh) v l).
Proof.
  induction l as [|e l IH]; intros v Hs Hw; simpl; [done|].
  unfold place_plane at 2. destruct (decide (fits sh e.2)) as [Hf|]; [|auto].
  apply IH; [done|]. apply vol_set_wf; [done|].
  rewrite Hs. by apply fits_shape.
Qed.

(** A plane on which nothing that fits is placed keeps its content. *)
Lemma foldl_place_plane_other sh i l : ∀ v,
  (∀ a, (i, a) ∈ l → ¬ fits sh a) →
  vol_planes (foldl (place_plane sh) v l) !! i = vol_planes v !! i.
Proof.
  induction l as [|[j a] l IH]; intros v Hno; simpl; [done|].
  rewrite IH.
  - unfold place_plane; simpl. destruct (decide (fits sh a)) as [Hf|]; [|done].
    simpl. apply list_lookup_insert_ne. intros ->.
    eapply Hno; [|exact Hf]. apply elem_of_cons. by left.
  - intros a' Hin. apply Hno. apply elem_of_cons. by right.
Qed.

(** The last pair that fits and addresses plane [i] decides its content. *)
Lemma foldl_place_plane_last sh i a l1 l2 v :
  fits sh a → (i < length (vol_planes v))%nat →
  (∀ a', (i, a') ∈ l2 → ¬ fits sh a') →
  vol_planes (foldl (place_plane sh) v (l1 ++ (i, a) :: l2)) !! i
  = Some (np_astype (vol_dtype v) a).
Proof.
  intros Hf Hi Hno. rewrite foldl_app. simpl.
  rewrite foldl_place_plane_other by done.
  destruct (foldl_place_plane_shape sh l1 v) as (_ & Hd & Hl).
  unfold place_plane at 1; simpl. rewrite decide_True by done. simpl.
  rewrite Hd. apply list_lookup_insert_eq. by rewrite Hl.
Qed.

(** A plane of the mask is a plane of zeros or one of the arrays placed
    on it. *)
Lemma foldl_place_plane_origin sh l : ∀ v j p,
  vol_planes (foldl (place_plane sh) v l) !! j = Some p →
  vol_planes v !! j = Some p
  ∨ ∃ a, (j, a) ∈ l ∧ fits sh a ∧ p = np_astype (vol_dtype v) a.
Proof.
  induction l as [|[i a] l IH]; intros v j p; simpl; [by left|].
  intros Hp. apply IH in Hp as [Hp|(a' & Hin & Hf & ->)].
  - unfold place_plane in Hp; simpl in Hp.
    destruct (decide (fits sh a)) as [Hf|]; [|by left]. simpl in Hp.
    destruct (decide (i = j)) as [->|Hne].
    + destruct (decide (j < length (vol_planes v))%nat).
      * rewrite list_lookup_insert_eq in Hp by done. injection Hp as <-.
        right. exists a. split_and!; [|done|done]. apply elem_of_cons. by left.
      * rewrite list_insert_ge in Hp by lia. by left.
    + rewrite list_lookup_insert_ne in Hp by done. by left.
  - right. exists a'. split_and!; [apply elem_of_cons; by right|done|].
    unfold place_plane. by destruct (decide _).
Qed.

Lemma np_astype_uint8_id a :
  arr_dtype a = uint8 → Forall (λ v, 0 ≤ v < 256) (arr_cells a) →
  np_astype uint8 a = a.
Proof.
  destruct a as [t sh cells]; simpl. intros -> Hc.
  unfold np_astype; simpl. f_equal.
  induction Hc as [|v l Hv _ IH]; [done|].
  rewrite fmap_cons, IH. f_equal.
  unfold wrap, uint8. change (2 ^ Z.of_N 8) with 256. by apply Z.mod_small.
Qed.

Lemma load_sop_uid_order_length files sop_list shape_ aff_ dt :
  load_sop_uid_order files = Some (sop_list, shape_, aff_, dt) →
  length sop_list = shape_.2.
Proof.
  unfold load_sop_uid_order. destruct files as [|f0 files]; [done|].
  destruct (sort_slices _) as [|first slices]; [done|].
  intros Hl.
  repeat match type of Hl with
  | context [mbind _ ?o] => destruct o; simpl in Hl; [|done]
  end.
  injection Hl as <- <- _ _. simpl. by rewrite length_fmap.
Qed.

Lemma frame_entry_index sop_list fr i a :
  frame_entry (sop_uid_to_index sop_list) fr = Some (i, a) →
  pixel_data fr = Some a ∧ sop_list !! i = Some (ref_sop_uid fr)
  ∧ (i < length sop_list)%nat.
Proof.
  unfold frame_entry.
  destruct (sop_uid_to_index sop_list !! ref_sop_uid fr) as [j|] eqn:Ej;
    [|done].
  destruct (pixel_data fr) as [b|]; [|done].
  intros [= <- <-]. apply sop_uid_to_index_Some in Ej as [Ej _].
  split_and!; [done|done|by eapply lookup_lt_Some].
Qed.

(** *** Slice mapping *)

(** A pair [(i, a)] is only ever queued for a segment when [a] is the
    label array of a frame of that segment whose slice identity is what
    the [i]-th slice of the sorted series carries. *)
Lemma placement_requires_identity sop_list frs s l i a :
  (s, l) ∈ segment_frames_map (sop_uid_to_index sop_list) frs →
  (i, a) ∈ l →
  ∃ fr, fr ∈ frs ∧ segment_name fr = s ∧ pixel_data fr = Some a
        ∧ sop_list !! i = Some (ref_sop_uid fr).
Proof.
  intros Hl Hin. apply segment_frames_map_elem in Hl as ->.
  apply entries_elem in Hin as (fr & Hfr & Hs & Hp & Hi).
  apply sop_uid_to_index_Some in Hi as [Hi _]. by exists fr.
Qed.

(** A plane of a mask that is not zero was put there by such a pair. *)
Lemma mask_plane_origin folder s shape_ l j p :
  vol_planes (build_mask folder s shape_ l).1 !! j = Some p →
  p = np_zeros shape_.1 uint8
  ∨ ∃ a, (j, a) ∈ l ∧ fits shape_ a ∧ p = np_astype uint8 a.
Proof.
  rewrite build_mask_eq. simpl. intros Hp.
  apply foldl_place_plane_origin in Hp as [Hp|Hp]; [left|by right].
  simpl in Hp. by apply lookup_replicate in Hp as [-> _].
Qed.

(** A frame whose slice identity is carried by no slice of the series
    contributes nothing. *)
Lemma unmatched_frame_dropped sop_list fr :
  ref_sop_uid fr ∉ sop_list →
  frame_entry (sop_uid_to_index sop_list) fr = None.
Proof.
  intros Hn. apply sop_uid_to_index_None in Hn.
  unfold frame_entry. by rewrite Hn.
Qed.

(** A frame without slice identity contributes nothing, provided every
    slice of the series carries an instance identifier. *)
Lemma absent_identity_dropped sop_list fr :
  None ∉ sop_list → ref_sop_uid fr = None →
  frame_entry (sop_uid_to_index sop_list) fr = None.
Proof. intros Hn Hf. apply unmatched_frame_dropped. by rewrite Hf. Qed.

(** C8.  Geometry mismatch: a frame whose label array has not the rows and
    columns of the reference series is not placed, the mask is the one
    that the other frames give and is built from unaltered arrays, one
    warning is printed for the frame, and the frames before and after it
    are processed as usual. *)
Theorem shape_mismatch_skips_frame index folder shape_ pre fr post i a :
  frame_entry index fr = Some (i, a) →
  ¬ fits shape_ a →
  (build_mask folder (segment_name fr) shape_
     (entries index (segment_name fr) (pre ++ fr :: post))).1
  = (build_mask folder (segment_name fr) shape_
       (entries index (segment_name fr) (pre ++ post))).1
  ∧ (build_mask folder (segment_name fr) shape_
       (entries index (segment_name fr) (pre ++ fr :: post))).2
    = (build_mask folder (segment_name fr) shape_
         (entries index (segment_name fr) pre)).2
      ++ [WarnShapeMismatch folder (segment_name fr) i]
      ++ (build_mask folder (segment_name fr) shape_
            (entries index (segment_name fr) post)).2.
Proof.
  intros He Hf. rewrite !build_mask_eq. simpl.
  rewrite !entries_app, entries_cons, decide_True by done.
  rewrite He. simpl. split.
  - rewrite !foldl_app. simpl. unfold place_plane at 2. simpl.
    by rewrite decide_False.
  - rewrite mismatch_warnings_app. f_equal.
    unfold mismatch_warnings at 1. simpl. by rewrite decide_False.
Qed.

(** The batch goes on: the step for one segmentation returns a state
    unless its ["series_info"] is the JSON [null] (see [seg_nifti_step]) or
    a write raises. *)
Lemma save_seg_nifti_total overwrite inp out_dir nii_name mask aff_ shape_ fs :
  (∀ p img, nib_saves inp p img = true) →
  is_Some (save_seg_nifti overwrite inp out_dir nii_name mask aff_ shape_ fs).
Proof.
  intros Hw. unfold save_seg_nifti, nib_save. rewrite Hw. simpl.
  destruct (fs !! _) as [[raw|ex]|], overwrite; eauto.
  destruct (decide _); eauto.
Qed.

Lemma seg_names_loop_total overwrite inp out_dir sn folder shape_ aff_ groups :
  (∀ p img, nib_saves inp p img = true) →
  ∀ st, is_Some (seg_names_loop overwrite inp out_dir sn folder shape_ aff_
                   st groups).
Proof.
  intros Hw. induction groups as [|kv groups IH]; intros st; simpl; [eauto|].
  unfold seg_name_step at 1.
  destruct (save_seg_nifti_total overwrite inp out_dir
              (sn +:+ "_ON_" +:+ py_str kv.1 +:+ "__FN_" +:+ folder +:+ ".nii")
              (build_mask folder kv.1 shape_ kv.2).1 aff_ shape_ st.1 Hw)
    as [sv ->].
  simpl. apply IH.
Qed.

Lemma seg_nifti_step_total overwrite inp out_dir st seg_folder_name seg_info :
  series_info seg_info ≠ Some None →
  (∀ p img, nib_saves inp p img = true) →
  is_Some (seg_nifti_step overwrite inp out_dir st seg_folder_name seg_info).
Proof.
  intros Hs Hw. unfold seg_nifti_step.
  destruct (_ ≫= _) as [seg_data|]; [|eauto].
  destruct (series_info seg_info) as [[info|]|]; [|done|eauto].
  destruct (truthy_opt _) as [sn|]; [|eauto].
  destruct (list_dir _ _) as [files|]; [|eauto].
  assert (∀ sops shape_ aff_ (dt : dtype),
    is_Some
      (seg_names_loop overwrite inp out_dir sn seg_folder_name shape_ aff_
         (fs243 st, log243 st)
         (segment_frames_map (sop_uid_to_index sops) (frames seg_data))
       ≫= λ r, Some {| fs243 := r.1;
                       series_sop_uids_cache :=
                         <[sn := (sops, shape_, aff_, dt)]>
                           (series_sop_uids_cache st);
                       log243 := r.2 |})) as Hloop.
  { intros sops shape_ aff_ dt.
    destruct (seg_names_loop_total overwrite inp out_dir sn seg_folder_name
                shape_ aff_
                (segment_frames_map (sop_uid_to_index sops) (frames seg_data))
                Hw (fs243 st, log243 st)) as [r ->].
    simpl. eauto. }
  destruct (series_sop_uids_cache st !! sn) as [[[[? ?] ?] ?]|].
  - apply Hloop.
  - destruct (load_sop_uid_order files) as [[[[? ?] ?] ?]|]; [apply Hloop|eauto].
Qed.

Lemma sfm_get_in s (m : SegmentFramesMap) :
  sfm_get s m ≠ [] → (s, sfm_get s m) ∈ m.
Proof.
  induction m as [|[k l] m IH]; simpl; [done|].
  destruct (decide (k = s)) as [->|Hk].
  - intros _. apply elem_of_cons. by left.
  - intros Hne. apply elem_of_cons. right. by apply IH.
Qed.

(** C10.  Collisions: when several frames of one segment name resolve to
    the same slice, the group that the code builds for that name gives
    the slice the array of the last of them, in frame order, whose shape
    is that of the series, as it is stored in the unsigned 8-bit mask (for
    an array of that type: the array itself); a colliding frame of another
    shape is passed over with the shape warning.  Nothing is accumulated,
    and the only warnings are those for arrays of the wrong shape. *)
Theorem last_frame_wins files sop_list shape_ aff_ dt folder s pre fr post i a :
  load_sop_uid_order files = Some (sop_list, shape_, aff_, dt) →
  segment_name fr = s →
  frame_entry (sop_uid_to_index sop_list) fr = Some (i, a) →
  fits shape_ a →
  (∀ fr' a', fr' ∈ post → segment_name fr' = s →
     frame_entry (sop_uid_to_index sop_list) fr' = Some (i, a') →
     ¬ fits shape_ a') →
  ∃ slices_info,
    (s, slices_info)
    ∈ segment_frames_map (sop_uid_to_index sop_list) (pre ++ fr :: post)
    ∧ vol_planes (build_mask folder s shape_ slices_info).1 !! i
      = Some (np_astype uint8 a)
    ∧ (arr_dtype a = uint8 → Forall (λ v, 0 ≤ v < 256) (arr_cells a) →
       vol_planes (build_mask folder s shape_ slices_info).1 !! i = Some a)
    ∧ (∀ w,
         w ∈ (build_mask folder s shape_ slices_info).2 →
         ∃ j a', (j, a') ∈ slices_info
                 ∧ ¬ fits shape_ a' ∧ w = WarnShapeMismatch folder s j).
Proof.
  intros Hload Hs He Hf Hlast.
  apply load_sop_uid_order_length in Hload.
  destruct (frame_entry_index _ _ _ _ He) as (_ & _ & Hi).
  exists (entries (sop_uid_to_index sop_list) s (pre ++ fr :: post)).
  assert (vol_planes
    (build_mask folder s shape_
       (entries (sop_uid_to_index sop_list) s (pre ++ fr :: post))).1 !! i
    = Some (np_astype uint8 a)) as Hplane.
  { rewrite build_mask_eq. simpl.
    rewrite entries_app, entries_cons, decide_True, He by done. simpl.
    apply (foldl_place_plane_last shape_ i a _ _ (np_zeros3 shape_ uint8));
      [done|simpl; rewrite length_replicate; lia|].
    intros a' Hin. apply entries_elem in Hin as (fr' & Hfr' & Hs' & Hp & Hx).
    eapply Hlast; [done|done|]. unfold frame_entry. by rewrite Hx, Hp. }
  split_and!; [|done| |].
  - rewrite <- segment_frames_map_get. apply sfm_get_in.
    rewrite segment_frames_map_get, entries_app, entries_cons.
    rewrite decide_True, He by done. simpl.
    intros Hnil. apply app_eq_nil in Hnil as [_ Hnil]. discriminate.
  - intros Hd Hc. by rewrite Hplane, np_astype_uint8_id.
  - intros w. rewrite build_mask_eq. simpl. unfold mismatch_warnings.
    rewrite list_elem_of_omap. intros ([j a'] & Hin & Hw). simpl in Hw.
    destruct (decide (fits shape_ a')); [done|].
    injection Hw as <-. by exists j, a'.
Qed.

End LabelVolumeFacts.

Section NiftiExamples.
#[local] Existing Instance Z_scalar.
Import Step_2_4_NiftiGeneration Examples.

Example load_series_5 :
  load_dicom_series series_5
  = Some (series_5_volume, series_5_affine, (1, 1, 2)%nat).
Proof. vm_compute. reflexivity. Qed.

Example load_order_series_5 :
  load_sop_uid_order series_5
  = Some (series_5_uids, (1, 1, 2)%nat, series_5_affine, int16).
Proof. vm_compute. reflexivity. Qed.

Example resolve_no_match :
  series_info (resolve_series catalog (seg_record (Some "9.9.9")))
  = Some None.
Proof. vm_compute. reflexivity. Qed.

Example resolve_undeclared :
  series_info (resolve_series catalog (seg_record None)) = None.
Proof. reflexivity. Qed.

Lemma resolve_series_first_match_witness :
  si_ref_series_uid (seg_record (Some "1.2.3")) = Some "1.2.3"
  ∧ series_info (resolve_series catalog (seg_record (Some "1.2.3")))
    = Some (Some (info_of "/scans/5" "5" "1.2.3")).
Proof.
  split; [reflexivity|].
  apply (proj1 (resolve_series_first_match catalog
                  (seg_record (Some "1.2.3")) "1.2.3" eq_refl
                  ltac:(discriminate))
           [("1", info_of "/scans/1" "1" "1.2.100")] "5" _
           [("6", info_of "/scans/6" "6" "1.2.3")]).
  - reflexivity.
  - repeat constructor. simpl. discriminate.
  - reflexivity.
Defined.

Lemma shape_mismatch_skips_frame_witness :
  frame_entry (sop_uid_to_index series_5_uids) frame_wide = Some (1%nat, wide)
  ∧ ¬ fits (1, 1, 2)%nat wide
  ∧ (build_mask "SEG" (Some "A") (1, 1, 2)%nat
       (entries (sop_uid_to_index series_5_uids) (Some "A")
          [frame_a1; frame_wide; frame_a3])).2
    = [WarnShapeMismatch "SEG" (Some "A") 1].
Proof.
  assert (frame_entry (sop_uid_to_index series_5_uids) frame_wide
          = Some (1%nat, wide)) as E by (vm_compute; reflexivity).
  assert (¬ fits (1, 1, 2)%nat wide) as N
    by (unfold fits; simpl; lia).
  split_and!; [exact E|exact N|].
  exact (proj2 (shape_mismatch_skips_frame _ "SEG" (1, 1, 2)%nat
                  [frame_a1] frame_wide [frame_a3] _ _ E N)).
Defined.

Lemma last_frame_wins_witness :
  load_sop_uid_order series_5
  = Some (series_5_uids, (1, 1, 2)%nat, series_5_affine, int16)
  ∧ ∃ slices_info,
      (Some "A", slices_info)
      ∈ segment_frames_map (sop_uid_to_index series_5_uids)
          [frame_a1; frame_a2; frame_wide_1]
      ∧ vol_planes (build_mask "SEG" (Some "A") (1, 1, 2)%nat slices_info).1
          !! 0%nat
        = Some (cell 0).
Proof.
  assert (load_sop_uid_order series_5
          = Some (series_5_uids, (1, 1, 2)%nat, series_5_affine, int16)) as E
    by (vm_compute; reflexivity).
  split; [exact E|].
  destruct (last_frame_wins _ _ _ _ _ "SEG" (Some "A")
              [frame_a1] frame_a2 [frame_wide_1] 0%nat (cell 0) E eq_refl)
    as (l & Hin & _ & Hplane & _).
  - vm_compute. reflexivity.
  - unfold fits. simpl. lia.
  - intros fr' a' Hin _ He.
    apply list_elem_of_singleton in Hin as ->.
    vm_compute in He. injection He as <-. unfold fits. simpl. lia.
  - exists l. split; [exact Hin|].
    apply Hplane; [reflexivity|]. repeat constructor; simpl; lia.
Defined.

(** C10 as it is written fails: of three frames of segment A that resolve
    to the first slice, the last in frame order is too wide and is passed
    over with a warning, and the slice holds the array of the frame before
    it, whose value 300 is stored in the 8-bit mask as 44. *)
Lemma misshapen_last_frame_does_not_win :
  ∃ st img,
    step_2_4_3_create_seg_nifti false
      (inputs_of [frame_a1; frame_300; frame_wide_1] series_5)
      "/out/NIFTI" ∅ ready2nifti = Some st
    ∧ frame_entry (sop_uid_to_index series_5_uids) frame_a1
      = Some (0%nat, cell 1)
    ∧ frame_entry (sop_uid_to_index series_5_uids) frame_300
      = Some (0%nat, {| arr_dtype := int16; arr_shape := (1, 1)%nat;
                        arr_cells := [300] |})
    ∧ frame_entry (sop_uid_to_index series_5_uids) frame_wide_1
      = Some (0%nat, wide)
    ∧ fs243 st !! "/out/NIFTI/5_ON_A__FN_SEG.nii" = Some (Readable img)
    ∧ img_planes img !! 0%nat = Some (cell 44)
    ∧ Some (cell 44) ≠ pixel_data frame_wide_1
    ∧ Some (cell 44) ≠ pixel_data frame_300
    ∧ log243 st = [WarnShapeMismatch "SEG" (Some "A") 0;
                   Created "5_ON_A__FN_SEG.nii" [1; 1; 2]%nat].
Proof.
  eexists _, _. split_and!.
  - vm_compute. reflexivity.
  - vm_compute. reflexivity.
  - vm_compute. reflexivity.
  - vm_compute. reflexivity.
  - vm_compute. reflexivity.
  - vm_compute. reflexivity.
  - discriminate.
  - discriminate.
  - vm_compute. reflexivity.
Qed.

(** C5, evaluated.  The loader records [None] for a slice file without
    SOPInstanceUID, and [None] then is a key of the lookup from identifier
    to slice index.  A frame without slice identity is therefore found in
    the lookup and written to the slice of that file, where it should have
    been dropped. *)
Theorem frame_without_identity_is_placed :
  load_sop_uid_order series_anon
  = Some ([None], (1, 1, 1)%nat, series_5_affine, int16)
  ∧ ref_sop_uid frame_anon = None
  ∧ frame_entry (sop_uid_to_index [None]) frame_anon = Some (0%nat, cell 1)
  ∧ ∃ st,
      step_2_4_3_create_seg_nifti false (inputs_of [frame_anon] series_anon)
        "/out/NIFTI" ∅ ready2nifti = Some st
      ∧ log243 st = [Created "5_ON_A__FN_SEG.nii" [1; 1; 1]%nat]
      ∧ fs243 st !! "/out/NIFTI/5_ON_A__FN_SEG.nii"
        = Some (Readable {| img_shape := [1; 1; 1]%nat; img_dtype := uint8;
                            img_planes := [cell 1];
                            img_affine := series_5_affine |}).
Proof.
  split_and!; [vm_compute; reflexivity|reflexivity|vm_compute; reflexivity|].
  eexists. split_and!.
  - vm_compute. reflexivity.
  - reflexivity.
  - vm_compute. reflexivity.
Qed.

(** With identifiers on every slice the same frame is dropped and no file
    is written for its segment. *)
Example frame_without_identity_dropped :
  (λ st, (fs243 st, log243 st))
    <$> step_2_4_3_create_seg_nifti false (inputs_of [frame_anon] series_5)
          "/out/NIFTI" ∅ ready2nifti
  = Some (∅, []).
Proof. vm_compute. reflexivity. Qed.

End NiftiExamples.

(** * Properties of the output policy (steps 2.4.2 and 2.4.3) *)

Section OutputPolicyFacts.
Context `{Scalar}.
Import Step_2_4_NiftiGeneration.

(** Step 2.4.3 leaves an existing file of the expected shape alone. *)
Lemma save_seg_nifti_skips inp out_dir nii_name mask_3d aff_ shape_ fs
    existing :
  fs !! path_join out_dir nii_name = Some (Readable existing) →
  img_shape existing = shape_tuple shape_ →
  save_seg_nifti false inp out_dir nii_name mask_3d aff_ shape_ fs
  = Some (fs, [FoundExisting nii_name (img_shape existing)]).
Proof.
  intros Hfs Hshape. unfold save_seg_nifti. rewrite Hfs.
  by rewrite decide_True.
Qed.

(** Step 2.4.3 writes the file when it is asked to overwrite, when there
    is no file, when the file cannot be read and when its shape is not
    the expected one; the run ends there when the write raises. *)
Lemma save_seg_nifti_writes overwrite inp out_dir nii_name mask_3d aff_ shape_
    fs :
  overwrite = true
  ∨ fs !! path_join out_dir nii_name = None
  ∨ (∃ raw, fs !! path_join out_dir nii_name = Some (Unreadable raw))
  ∨ (∃ existing, fs !! path_join out_dir nii_name = Some (Readable existing)
                 ∧ img_shape existing ≠ shape_tuple shape_) →
  save_seg_nifti overwrite inp out_dir nii_name mask_3d aff_ shape_ fs
  = if nib_saves inp (path_join out_dir nii_name) (Nifti1Image mask_3d aff_)
    then Some (<[path_join out_dir nii_name
                   := Readable (Nifti1Image mask_3d aff_)]> fs,
               [Created nii_name (shape_tuple (vol_shape mask_3d))])
    else None.
Proof.
  unfold save_seg_nifti, nib_save.
  assert ((if nib_saves inp (path_join out_dir nii_name)
                (Nifti1Image mask_3d aff_)
           then Some (<[path_join out_dir nii_name
                          := Readable (Nifti1Image mask_3d aff_)]> fs)
           else None)
          ≫= (λ fs', Some (fs', [Created nii_name
                                   (shape_tuple (vol_shape mask_3d))]))
          = if nib_saves inp (path_join out_dir nii_name)
                 (Nifti1Image mask_3d aff_)
            then Some (<[path_join out_dir nii_name
                           := Readable (Nifti1Image mask_3d aff_)]> fs,
                       [Created nii_name (shape_tuple (vol_shape mask_3d))])
            else None) as Hw by (by destruct (nib_saves _ _ _)).
  intros [->|[Hn|[[raw Hr]|(existing & He & Hs)]]].
  - by destruct (fs !! _) as [[|]|].
  - by rewrite Hn.
  - by rewrite Hr.
  - rewrite He. destruct overwrite; [done|]. by rewrite decide_False.
Qed.

(** Step 2.4.2 leaves an existing readable file alone, whatever its
    shape. *)
Lemma original_nifti_step_keeps_readable inp out_dir st seg_info info files
    existing :
  series_info seg_info = Some (Some info) →
  list_dir inp (series_folder_path info) = Some files →
  fs242 st !! path_join out_dir (py_str (series_number info) +:+ ".nii")
  = Some (Readable existing) →
  fs242 <$> original_nifti_step false inp out_dir st seg_info
  = Some (fs242 st).
Proof.
  intros Hi Hd Hfs. unfold original_nifti_step. rewrite Hi, Hd.
  destruct (decide _); [done|]. by rewrite Hfs.
Qed.

(** Step 2.4.2 writes the file anew when the existing one cannot be read
    and the series loads; the run ends there when the write raises. *)
Lemma original_nifti_step_rewrites_unreadable inp out_dir st seg_info info
    files raw vol aff dims :
  series_info seg_info = Some (Some info) →
  list_dir inp (series_folder_path info) = Some files →
  processed_series st !! series_number info = None →
  fs242 st !! path_join out_dir (py_str (series_number info) +:+ ".nii")
  = Some (Unreadable raw) →
  load_dicom_series files = Some (vol, aff, dims) →
  fs242 <$> original_nifti_step false inp out_dir st seg_info
  = if nib_saves inp
         (path_join out_dir (py_str (series_number info) +:+ ".nii"))
         (Nifti1Image vol aff)
    then Some (<[path_join out_dir (py_str (series_number info) +:+ ".nii")
                   := Readable (Nifti1Image vol aff)]> (fs242 st))
    else None.
Proof.
  intros Hi Hd Hp Hfs Hl. unfold original_nifti_step. rewrite Hi, Hd.
  rewrite decide_False by (rewrite Hp; by intros [? ?]).
  rewrite Hfs, Hl. unfold nib_save. by destruct (nib_saves _ _ _).
Qed.

End OutputPolicyFacts.

Section OutputPolicyExamples.
#[local] Existing Instance Z_scalar.
Import Step_2_4_NiftiGeneration Examples.

(** C1, evaluated.  Step 2.4.2 loads an existing file and reads its shape,
    but compares it with nothing: with a one-slice image left under the
    name of series 5, whose folder holds two slices, a run without the
    overwrite flag reports the file as found and writes nothing. *)
Theorem original_nifti_keeps_mismatched_file :
  load_dicom_series series_5
  = Some (series_5_volume, series_5_affine, (1, 1, 2)%nat)
  ∧ img_shape stale_image ≠ shape_tuple (1, 1, 2)%nat
  ∧ fs242 <$> step_2_4_2_create_original_nifti false (inputs_of [] series_5)
                "/out/NIFTI" (stale_folder "5.nii") ready2nifti
    = Some (stale_folder "5.nii")
  ∧ log242 <$> step_2_4_2_create_original_nifti false (inputs_of [] series_5)
                 "/out/NIFTI" (stale_folder "5.nii") ready2nifti
    = Some [FoundExisting "5.nii" [1; 1; 1]%nat].
Proof.
  split_and!.
  - vm_compute. reflexivity.
  - discriminate.
  - vm_compute. reflexivity.
  - vm_compute. reflexivity.
Qed.

(** Step 2.4.3 in the same situation writes the label volume anew. *)
Example seg_nifti_replaces_mismatched_file :
  (λ st, (fs243 st !! "/out/NIFTI/5_ON_A__FN_SEG.nii", log243 st))
    <$> step_2_4_3_create_seg_nifti false (inputs_of [frame_a1] series_5)
          "/out/NIFTI" (stale_folder "5_ON_A__FN_SEG.nii") ready2nifti
  = Some (Some (Readable {| img_shape := [1; 1; 2]%nat; img_dtype := uint8;
                            img_planes := [cell 1; cell 0];
                            img_affine := series_5_affine |}),
          [Created "5_ON_A__FN_SEG.nii" [1; 1; 2]%nat]).
Proof. vm_compute. reflexivity. Qed.

End OutputPolicyExamples.

(** * Further properties of the merge *)

Section MergeMore.
Context `{Scalar}.
Import ConcatMultiplObjects.

Lemma merge_directive_counter st d st' :
  merge_directive st d = Some st' →
  max_seg_num st'
  = max_seg_num st + (if valid_entry d is Some _ then 1 else 0).
Proof.
  unfold merge_directive. destruct (valid_entry d) as [name|].
  - destruct (emitted_frames _ _ _ _) as [[|fr new]|]; simpl; [| |done];
      by intros [= <-].
  - intros [= <-]. simpl. lia.
Qed.

Lemma merge_directives_counter ds : ∀ st st',
  merge_directives st ds = Some st' →
  max_seg_num st' = max_seg_num st + Z.of_nat (count_valid ds).
Proof.
  unfold count_valid.
  induction ds as [|d ds IH]; intros st st'; simpl.
  - intros [= <-]. lia.
  - destruct (merge_directive st d) as [st1|] eqn:E; simpl; [|done].
    intros Hrest. apply IH in Hrest. apply merge_directive_counter in E.
    rewrite filter_cons.
    destruct (decide (is_Some (valid_entry d))) as [[name Hv]|Hn].
    + rewrite Hv in E. simpl. lia.
    + destruct (valid_entry d) as [name|]; [exfalso; eauto|]. lia.
Qed.

(** X1.  The counter of segment numbers is read from the frames once and
    then advanced by one for every directive that passes the validity
    check, whether the directive emits frames or not; a directive that is
    skipped as invalid takes no number. *)
Theorem merge_counter_counts_valid sd counts folder_merges global_merges st' :
  merge_object sd counts folder_merges global_merges = Some st' →
  max_seg_num st'
  = py_max (existing_seg_numbers (frames sd))
    + Z.of_nat (count_valid (folder_merges ++ global_merges)).
Proof.
  unfold merge_object. intros Hrun.
  by apply merge_directives_counter in Hrun.
Qed.

(** X2.  The frames that a directive emits all carry one segment number,
    and that number is larger than every segment number that the object
    holds when the directive runs. *)
Theorem merge_number_is_fresh sd counts before d st st' i fr :
  merge_directives
    {| seg_data := sd; segment_name_count := counts;
       max_seg_num := py_max (existing_seg_numbers (frames sd));
       messages := [] |} before = Some st →
  merge_directive st d = Some st' →
  (length (frames (seg_data st)) ≤ i)%nat →
  frames (seg_data st') !! i = Some fr →
  segment_number fr = Some (max_seg_num st + 1)
  ∧ Forall (λ n, n < max_seg_num st + 1)
           (existing_seg_numbers (frames (seg_data st))).
Proof.
  intros Hrun Hd Hi Hfr.
  destruct (merge_number_fresh _ _ _ _ _ _ Hrun Hd) as (added & E & Hn & Hlt).
  split; [|done].
  rewrite E, lookup_app_r in Hfr by done.
  rewrite Forall_forall in Hn. apply Hn. by eapply list_elem_of_lookup_2.
Qed.

(** X3.  Of two directives of one run that both emit frames, the later
    one gets the larger segment number. *)
Theorem merge_numbers_grow st d st1 between st2 d' st3 i j f1 f2 :
  merge_directive st d = Some st1 →
  merge_directives st1 between = Some st2 →
  merge_directive st2 d' = Some st3 →
  (length (frames (seg_data st)) ≤ i)%nat →
  frames (seg_data st1) !! i = Some f1 →
  (length (frames (seg_data st2)) ≤ j)%nat →
  frames (seg_data st3) !! j = Some f2 →
  ∃ n1 n2, segment_number f1 = Some n1 ∧ segment_number f2 = Some n2
           ∧ n1 < n2.
Proof.
  intros H1 Hb H2 Hi Hf1 Hj Hf2.
  destruct (merge_directive_inv _ _ _ H1) as (a1 & E1 & _).
  destruct (merge_directive_inv _ _ _ H2) as (a2 & E2 & _).
  apply (merge_numbers_increase st d st1 between st2 d' st3 a1 a2);
    try done.
  - rewrite E1, lookup_app_r in Hf1 by done. by eapply list_elem_of_lookup_2.
  - rewrite E2, lookup_app_r in Hf2 by done. by eapply list_elem_of_lookup_2.
Qed.

(** X4.  When the label arrays of all frames of an object have one shape
    and one element type, the merge of that object runs to its end,
    whatever the plan: no in-place sum is refused. *)
Theorem merge_completes sh t sd counts folder_merges global_merges :
  uniform_arrays sh t (frames sd) →
  ∃ st', merge_object sd counts folder_merges global_merges = Some st'
         ∧ (length (frames sd) ≤ length (frames (seg_data st')))%nat.
Proof.
  intros Hu.
  destruct (merge_object_total sh t sd counts folder_merges global_merges Hu)
    as [st' Hst'].
  exists st'. split; [done|].
  unfold merge_object in Hst'.
  apply merge_directives_inv in Hst' as (added & E & _). simpl in E.
  rewrite E, length_app. lia.
Qed.

(** *** Where the emitted frames come from *)

Lemma slice_map_add_keys key px (m m' : SliceMap) :
  slice_map_add key px m = Some m' →
  m'.*1 = if decide (key ∈ m.*1) then m.*1 else m.*1 ++ [key].
Proof.
  revert m'. induction m as [|[k a] m IH]; intros m'.
  - cbn [slice_map_add]. destruct (np_iadd _ _); [|done].
    intros [= <-]. by destruct (decide (key ∈ ([] : SliceMap).*1))
      as [Hin%elem_of_nil|].
  - cbn [slice_map_add]. change (((k, a) :: m).*1) with (k :: m.*1).
    destruct (decide (k = key)) as [->|Hk].
    + destruct (np_iadd a px); [|done]. intros [= <-]. cbn.
      rewrite decide_True; [done|apply elem_of_cons; by left].
    + destruct (slice_map_add key px m) as [m''|]; [|done].
      intros [= <-]. cbn. rewrite (IH m'' eq_refl).
      destruct (decide (key ∈ m.*1)) as [Hin|Hnin].
      * rewrite decide_True; [done|apply elem_of_cons; by right].
      * rewrite decide_False; [done|].
        apply not_elem_of_cons. split; [|done]. by intros ->.
Qed.

Lemma slice_map_step_keys old (m m' : SliceMap) fr :
  slice_map_step old m fr = Some m' →
  (NoDup m.*1 → NoDup m'.*1)
  ∧ ∀ k, k ∈ m'.*1 → k ∈ m.*1 ∨ contributes old fr k.
Proof.
  unfold slice_map_step.
  destruct (segment_name fr) as [s|] eqn:Es; [|intros [= <-]; by auto].
  destruct (decide (s ∈ old)) as [Hs|]; [|intros [= <-]; by auto].
  destruct (pixel_data fr) as [px|] eqn:Ep; [|intros [= <-]; by auto].
  destruct (ref_sop_uid fr) as [uid|] eqn:Eu; [|intros [= <-]; by auto].
  intros Hadd. apply slice_map_add_keys in Hadd. rewrite Hadd.
  destruct (decide _) as [Hin|Hnin]; [by auto|]. split.
  - intros Hnd. apply NoDup_app. split_and!; [done| |apply NoDup_singleton].
    by intros x Hx ->%list_elem_of_singleton.
  - intros k [Hk|Hk%list_elem_of_singleton]%elem_of_app; [by left|].
    right. exists s, px. split_and!; [done|done|done|].
    unfold frame_key. rewrite Eu. simpl. by rewrite Hk.
Qed.

Lemma build_slice_map_keys old frs : ∀ m m' : SliceMap,
  build_slice_map old m frs = Some m' →
  (NoDup m.*1 → NoDup m'.*1)
  ∧ ∀ k, k ∈ m'.*1 → k ∈ m.*1 ∨ ∃ fr, fr ∈ frs ∧ contributes old fr k.
Proof.
  induction frs as [|fr frs IH]; intros m m'; simpl.
  - intros [= <-]. by auto.
  - destruct (slice_map_step old m fr) as [m1|] eqn:E1; simpl; [|done].
    intros Hrest. apply IH in Hrest as [Hnd Hk].
    apply slice_map_step_keys in E1 as [Hnd1 Hk1]. split; [by auto|].
    intros k Hin. apply Hk in Hin as [Hin|(fr' & Hfr' & Hc)].
    + apply Hk1 in Hin as [Hin|Hc]; [by left|].
      right. exists fr. split; [apply elem_of_cons; by left|done].
    + right. exists fr'. split; [apply elem_of_cons; by right|done].
Qed.

Lemma build_new_frames_elem start i n name (m : SliceMap) fr :
  fr ∈ build_new_frames start i n name m →
  ∃ uid ipp a,
    ((uid, ipp), a) ∈ m ∧ np_any a = true
    ∧ segment_name fr = Some name ∧ segment_color fr = None
    ∧ image_position_patient fr = ipp ∧ ref_sop_uid fr = Some uid
    ∧ pixel_data fr = Some a.
Proof.
  revert i. induction m as [|[[uid ipp] a] m IH]; intros i; simpl.
  - by intros ?%elem_of_nil.
  - destruct (np_any a) eqn:Ea.
    + intros [->|Hin]%elem_of_cons.
      * exists uid, ipp, a. simpl. split_and!; try done.
        apply elem_of_cons. by left.
      * apply IH in Hin as (u & p & b & Hin & Hrest).
        exists u, p, b. split; [apply elem_of_cons; by right|done].
    + intros Hin. apply IH in Hin as (u & p & b & Hin & Hrest).
      exists u, p, b. split; [apply elem_of_cons; by right|done].
Qed.

Lemma build_new_frames_distinct start i n name (m : SliceMap) :
  NoDup m.*1 →
  NoDup ((λ fr, (ref_sop_uid fr, image_position_patient fr))
           <$> build_new_frames start i n name m).
Proof.
  revert i. induction m as [|[[uid ipp] a] m IH]; intros i Hnd; simpl.
  - constructor.
  - apply NoDup_cons in Hnd as [Hk Hnd].
    destruct (np_any a); [|by apply IH]. simpl.
    constructor; [|by apply IH].
    intros (fr & Hfr & Hin)%list_elem_of_fmap.
    apply build_new_frames_elem in Hin
      as (u & p & b & Hin & _ & _ & _ & Hp & Hu & _).
    rewrite Hu, Hp in Hfr. injection Hfr as -> ->.
    apply Hk. apply list_elem_of_fmap. by exists ((u, p), b).
Qed.

Lemma clip_slice_map_keys (m : SliceMap) : (clip_slice_map m).*1 = m.*1.
Proof.
  unfold clip_slice_map. rewrite <- list_fmap_compose.
  by apply list_fmap_ext.
Qed.

Lemma emitted_frames_inv frs n d name new :
  emitted_frames frs n d name = Some new →
  NoDup ((λ fr, (ref_sop_uid fr, image_position_patient fr)) <$> new)
  ∧ ∀ fr', fr' ∈ new →
      segment_name fr' = Some name ∧ segment_color fr' = None
      ∧ (∃ a, pixel_data fr' = Some a ∧ np_any a = true)
      ∧ ∃ fr k, fr ∈ frs ∧ contributes (old_objects d) fr k
                ∧ ref_sop_uid fr' = Some k.1
                ∧ image_position_patient fr' = k.2.
Proof.
  unfold emitted_frames.
  destruct (build_slice_map _ _ _) as [m|] eqn:Em; simpl; [|done].
  intros [= <-]. apply build_slice_map_keys in Em as [Hnd Hk]. split.
  - apply build_new_frames_distinct. rewrite clip_slice_map_keys.
    apply Hnd. constructor.
  - intros fr' Hin. apply build_new_frames_elem in Hin
      as (uid & ipp & a & Hin & Hany & Hn & Hc & Hp & Hu & Hpx).
    split_and!; [done|done|by exists a|].
    assert ((uid, ipp) ∈ (clip_slice_map m).*1) as Hkey.
    { apply list_elem_of_fmap. by exists ((uid, ipp), a). }
    rewrite clip_slice_map_keys in Hkey.
    apply Hk in Hkey as [Hnil%elem_of_nil|(fr & Hfr & Hcon)]; [done|].
    by exists fr, (uid, ipp).
Qed.

Lemma merge_directive_emitted st d st' :
  merge_directive st d = Some st' →
  match valid_entry d with
  | Some name =>
      ∃ new, emitted_frames (frames (seg_data st)) (max_seg_num st) d name
             = Some new
             ∧ frames (seg_data st') = frames (seg_data st) ++ new
  | None => frames (seg_data st') = frames (seg_data st)
  end.
Proof.
  unfold merge_directive. destruct (valid_entry d) as [name|].
  - destruct (emitted_frames _ _ _ _) as [new|]; simpl; [|done].
    destruct new as [|fr new].
    + intros [= <-]. exists []. simpl. by rewrite app_nil_r.
    + intros [= <-]. by exists (fr :: new).
  - by intros [= <-].
Qed.

(** X5.  Every frame that a directive appends is named after the new
    object, has no colour, carries a label array that is not all zero, and
    takes its slice identity and position from a frame of the object whose
    segment name is listed in [old_objects] and which has label data and a
    slice identity. *)
Theorem merged_frame_provenance st d st' i fr' :
  merge_directive st d = Some st' →
  (length (frames (seg_data st)) ≤ i)%nat →
  frames (seg_data st') !! i = Some fr' →
  segment_name fr' = new_object d
  ∧ segment_color fr' = None
  ∧ (∃ a, pixel_data fr' = Some a ∧ np_any a = true)
  ∧ ∃ fr k, fr ∈ frames (seg_data st)
            ∧ contributes (old_objects d) fr k
            ∧ ref_sop_uid fr' = Some k.1
            ∧ image_position_patient fr' = k.2.
Proof.
  intros Hd Hi Hfr. apply merge_directive_emitted in Hd.
  destruct (valid_entry d) as [name|] eqn:Ev.
  - destruct Hd as (new & Hnew & E).
    rewrite E, lookup_app_r in Hfr by done.
    apply list_elem_of_lookup_2 in Hfr.
    apply emitted_frames_inv in Hnew as [_ Hall].
    destruct (Hall fr' Hfr) as (Hn & Hc & Ha & Hsrc).
    split_and!; [|done|done|done].
    rewrite Hn. unfold valid_entry in Ev.
    destruct (old_objects d); [done|].
    by destruct (new_object d) as [[|]|]; simplify_eq.
  - rewrite Hd in Hfr. apply lookup_lt_Some in Hfr. lia.
Qed.

(** X6.  A directive appends at most one frame for each pair of slice
    identity and position: two frames appended by one directive differ in
    one of the two. *)
Theorem merged_frames_one_per_slice st d st' i j f1 f2 :
  merge_directive st d = Some st' →
  (length (frames (seg_data st)) ≤ i)%nat →
  (length (frames (seg_data st)) ≤ j)%nat →
  i ≠ j →
  frames (seg_data st') !! i = Some f1 →
  frames (seg_data st') !! j = Some f2 →
  (ref_sop_uid f1, image_position_patient f1)
  ≠ (ref_sop_uid f2, image_position_patient f2).
Proof.
  intros Hd Hi Hj Hij H1 H2 Heq. apply merge_directive_emitted in Hd.
  destruct (valid_entry d) as [name|].
  - destruct Hd as (new & Hnew & E).
    rewrite E, lookup_app_r in H1, H2 by done.
    apply emitted_frames_inv in Hnew as [Hnd _].
    apply Hij.
    assert (i - length (frames (seg_data st))
            = j - length (frames (seg_data st)))%nat; [|lia].
    eapply NoDup_lookup; [exact Hnd| |].
    + rewrite list_lookup_fmap, H1. reflexivity.
    + rewrite list_lookup_fmap, H2. simpl. by rewrite Heq.
  - rewrite Hd in H1. apply lookup_lt_Some in H1. lia.
Qed.

End MergeMore.

Section MergeRerun.
Context `{Scalar}.
Import ConcatMultiplObjects.

Lemma build_slice_map_app old l1 l2 : ∀ m : SliceMap,
  build_slice_map old m (l1 ++ l2)
  = build_slice_map old m l1 ≫= λ m', build_slice_map old m' l2.
Proof.
  induction l1 as [|fr l1 IH]; intros m; simpl; [done|].
  destruct (slice_map_step old m fr) as [m1|]; simpl; [apply IH|done].
Qed.

Lemma build_slice_map_skip old l : ∀ m : SliceMap,
  Forall (λ fr, ∀ s, segment_name fr = Some s → s ∉ old) l →
  build_slice_map old m l = Some m.
Proof.
  intros m Hl. induction Hl as [|fr l Hfr _ IH]; simpl; [done|].
  unfold slice_map_step. destruct (segment_name fr) as [s|]; [|done].
  by rewrite decide_False by auto.
Qed.

Lemma build_new_frames_content s1 i1 n1 s2 i2 n2 name (m : SliceMap) :
  frame_content <$> build_new_frames s1 i1 n1 name m
  = frame_content <$> build_new_frames s2 i2 n2 name m.
Proof.
  revert i1 i2. induction m as [|[[uid ipp] a] m IH]; intros i1 i2; simpl.
  - done.
  - destruct (np_any a); simpl; [f_equal|]; apply IH.
Qed.

Lemma valid_entry_new_object d name :
  valid_entry d = Some name → new_object d = Some name ∧ old_objects d ≠ [].
Proof.
  unfold valid_entry. destruct (old_objects d); [done|].
  by destruct (new_object d) as [[|]|]; intros [= <-].
Qed.

(** X7.  The merge is not idempotent: a directive whose new name is not
    among its old names, run a second time on its own result, appends the
    same frames once more (same names, positions, slice identities and
    label arrays), under the next segment number. *)
Theorem merge_rerun_duplicates st d st1 name :
  merge_directive st d = Some st1 →
  valid_entry d = Some name →
  name ∉ old_objects d →
  ∃ st2,
    merge_directive st1 d = Some st2
    ∧ frame_content <$> drop (length (frames (seg_data st1)))
                             (frames (seg_data st2))
      = frame_content <$> drop (length (frames (seg_data st)))
                               (frames (seg_data st1))
    ∧ max_seg_num st2 = max_seg_num st + 2.
Proof.
  intros Hd Hv Hname.
  pose proof (merge_directive_counter _ _ _ Hd) as Hc.
  pose proof (merge_directive_emitted _ _ _ Hd) as He.
  rewrite Hv in Hc, He. destruct He as (new & Hnew & E).
  assert (emitted_frames (frames (seg_data st1)) (max_seg_num st1) d name
          = Some (build_new_frames
                    (Z.of_nat (length (frames (seg_data st1)))) 0
                    (max_seg_num st1 + 1) name
                    (clip_slice_map
                       (default [] (build_slice_map (old_objects d) []
                                      (frames (seg_data st))))))
          ∧ new = build_new_frames
                    (Z.of_nat (length (frames (seg_data st)))) 0
                    (max_seg_num st + 1) name
                    (clip_slice_map
                       (default [] (build_slice_map (old_objects d) []
                                      (frames (seg_data st))))))
    as [Hnew2 Hnew1].
  { unfold emitted_frames in *. rewrite E, build_slice_map_app.
    destruct (build_slice_map (old_objects d) [] (frames (seg_data st)))
      as [m|]; simpl in *; [|done].
    injection Hnew as <-. split; [|done].
    rewrite build_slice_map_skip; [done|].
    apply Forall_forall. intros fr Hin s Hs.
    apply build_new_frames_elem in Hin as (_ & _ & _ & _ & _ & Hn & _).
    congruence. }
  set (new2 := build_new_frames
                 (Z.of_nat (length (frames (seg_data st1)))) 0
                 (max_seg_num st1 + 1) name
                 (clip_slice_map
                    (default [] (build_slice_map (old_objects d) []
                                   (frames (seg_data st)))))) in *.
  assert (frame_content <$> new2 = frame_content <$> new) as Hsame.
  { rewrite Hnew1. apply build_new_frames_content. }
  assert (∃ st2, merge_directive st1 d = Some st2
                 ∧ frames (seg_data st2) = frames (seg_data st1) ++ new2
                 ∧ max_seg_num st2 = max_seg_num st1 + 1)
    as (st2 & Hd2 & E2 & Hc2).
  { unfold merge_directive. rewrite Hv, Hnew2. simpl.
    destruct new2 as [|fr new2'].
    - eexists. split; [done|]. simpl. by rewrite app_nil_r.
    - eexists. by split. }
  exists st2. split_and!; [done| |lia].
  by rewrite E2, E, !drop_app_length.
Qed.

(** X8.  A directive that is invalid, or none of whose old names is the
    name of a frame, leaves the frames, [num_frames] and the name counts
    as they are. *)
Theorem merge_directive_without_match st d st' :
  merge_directive st d = Some st' →
  valid_entry d = None
  ∨ Forall (λ fr, ∀ s, segment_name fr = Some s → s ∉ old_objects d)
           (frames (seg_data st)) →
  seg_data st' = seg_data st
  ∧ segment_name_count st' = segment_name_count st.
Proof.
  unfold merge_directive. intros Hd Hcase.
  destruct (valid_entry d) as [name|] eqn:Ev.
  - destruct Hcase as [|Hno]; [done|].
    unfold emitted_frames in Hd.
    rewrite build_slice_map_skip in Hd by done. simpl in Hd.
    by injection Hd as <-.
  - by injection Hd as <-.
Qed.

End MergeRerun.

(** * The decoder and the merge together *)

Section DecodeThenMerge.
Context `{Scalar}.
Import ConcatMultiplObjects Step_2_3_DecodeSegmentation.

Lemma decode_frames_lookup ds frs i fr :
  decode_frames ds = Some frs → frs !! i = Some fr →
  if per_frame_ok ds then decode_frame ds (build_segment_map ds) i = Some fr
  else fallback_frame ds i = Some fr.
Proof.
  unfold decode_frames.
  destruct (depth (pixel_array ds)) as [d|]; simpl; [|done].
  destruct (per_frame_ok ds); intros Hm Hfr;
    apply mapM_Some_1 in Hm;
    destruct (Forall2_lookup_r _ _ _ _ _ Hm Hfr) as (x & Hx & Hdec);
    apply lookup_seq in Hx as [-> _]; done.
Qed.

Lemma decode_frames_indexed ds frs : decode_frames ds = Some frs → indexed frs.
Proof.
  intros Hd i fr Hfr. pose proof (decode_frames_lookup _ _ _ _ Hd Hfr) as Hi.
  destruct (per_frame_ok ds).
  - unfold decode_frame in Hi.
    repeat match type of Hi with
    | context [mbind _ ?o] => destruct o; simpl in Hi; [|done]
    end.
    by injection Hi as <-.
  - unfold fallback_frame in Hi. destruct (plane _ _); simpl in Hi; [|done].
    by injection Hi as <-.
Qed.

Lemma merge_directive_indexed st d st' :
  indexed (frames (seg_data st)) → merge_directive st d = Some st' →
  indexed (frames (seg_data st')).
Proof.
  intros Hix Hd. apply merge_directive_emitted in Hd.
  destruct (valid_entry d) as [name|]; [|by rewrite Hd].
  destruct Hd as (new & Hnew & ->). intros i fr Hfr.
  apply lookup_app_Some in Hfr as [Hfr|[Hi Hfr]]; [by apply Hix|].
  unfold emitted_frames in Hnew.
  destruct (build_slice_map _ _ _); simpl in Hnew; [|done].
  injection Hnew as <-. apply build_new_frames_index in Hfr. lia.
Qed.

Lemma merge_directive_num_frames st d st' :
  num_frames (seg_data st) = Z.of_nat (length (frames (seg_data st))) →
  merge_directive st d = Some st' →
  num_frames (seg_data st') = Z.of_nat (length (frames (seg_data st'))).
Proof.
  unfold merge_directive. intros Hn.
  destruct (valid_entry d) as [name|]; [|by intros [= <-]].
  destruct (emitted_frames _ _ _ _) as [[|fr new]|]; simpl; [| |done];
    by intros [= <-].
Qed.

Lemma merge_directives_keep (P : SegData → Prop) ds :
  (∀ st d st', P (seg_data st) → merge_directive st d = Some st' →
               P (seg_data st')) →
  ∀ st st', P (seg_data st) → merge_directives st ds = Some st' →
            P (seg_data st').
Proof.
  intros Hstep. induction ds as [|d ds IH]; intros st st' HP; simpl.
  - by intros [= <-].
  - destruct (merge_directive st d) as [st1|] eqn:E; simpl; [|done].
    apply IH. by eapply Hstep.
Qed.

(** X9.  The decoder numbers the frames by their position and the merge
    continues the numbering: in an object that was decoded and then
    merged, the frame at position [i] has [frame_index] [i]. *)
Theorem frame_index_is_position ds sd counts folder_merges global_merges st'
    i fr :
  decode_segmentation_dcm ds = Some sd →
  merge_object sd counts folder_merges global_merges = Some st' →
  frames (seg_data st') !! i = Some fr →
  frame_index fr = Z.of_nat i.
Proof.
  intros Hdec Hrun. revert i fr.
  change (indexed (frames (seg_data st'))).
  unfold merge_object in Hrun.
  eapply (merge_directives_keep (λ sd, indexed (frames sd))); [|..|exact Hrun].
  - by apply merge_directive_indexed.
  - simpl. unfold decode_segmentation_dcm in Hdec.
    destruct (decode_frames ds) as [frs|] eqn:E; simpl in Hdec; [|done].
    injection Hdec as <-. simpl. by eapply decode_frames_indexed.
Qed.

(** X10.  The recorded [num_frames] stays the length of the frame list:
    it is so after decoding and every directive of a merge keeps it so. *)
Theorem num_frames_is_length ds sd counts folder_merges global_merges st' :
  decode_segmentation_dcm ds = Some sd →
  merge_object sd counts folder_merges global_merges = Some st' →
  num_frames (seg_data st') = Z.of_nat (length (frames (seg_data st'))).
Proof.
  intros Hdec Hrun. unfold merge_object in Hrun.
  eapply (merge_directives_keep
            (λ sd, num_frames sd = Z.of_nat (length (frames sd))));
    [|..|exact Hrun].
  - by apply merge_directive_num_frames.
  - simpl. unfold decode_segmentation_dcm in Hdec.
    destruct (decode_frames ds) as [frs|]; simpl in Hdec; [|done].
    by injection Hdec as <-.
Qed.

End DecodeThenMerge.

(** * Further properties of the decoder *)

Section DecoderMore.
Context `{Scalar}.
Import Step_2_3_DecodeSegmentation.

Lemma decode_frames_of ds sd :
  decode_segmentation_dcm ds = Some sd → decode_frames ds = Some (frames sd).
Proof.
  unfold decode_segmentation_dcm.
  destruct (decode_frames ds) as [frs|]; simpl; [|done]. by intros [= <-].
Qed.

Lemma decode_frame_pixels_inv ds sd i fr :
  decode_segmentation_dcm ds = Some sd →
  frames sd !! i = Some fr →
  ∃ a, pixel_data fr = Some a
       ∧ (plane (pixel_array ds) i = Some a
          ∨ ∃ d r c dt,
              depth (pixel_array ds) = Some d ∧ (d ≤ i)%nat
              ∧ Rows ds = Some r ∧ Columns ds = Some c
              ∧ pa_dtype (pixel_array ds) = Some dt
              ∧ a = np_zeros (r, c) dt).
Proof.
  intros Hdec Hfr. apply decode_frames_of in Hdec.
  pose proof (decode_frames_lookup _ _ _ _ Hdec Hfr) as Hi.
  destruct (per_frame_ok ds).
  - unfold decode_frame in Hi.
    destruct (default [] (PerFrameFunctionalGroupsSequence ds) !! i)
      as [item|]; simpl in Hi; [|done].
    destruct (depth (pixel_array ds)) as [d|]; simpl in Hi; [|done].
    destruct (decide (i < d)%nat) as [Hlt|Hge].
    + destruct (plane (pixel_array ds) i) as [a|]; simpl in Hi; [|done].
      injection Hi as <-. exists a. split; [done|by left].
    + destruct (Rows ds) as [r|]; simpl in Hi; [|done].
      destruct (Columns ds) as [c|]; simpl in Hi; [|done].
      destruct (pa_dtype (pixel_array ds)) as [dt|]; simpl in Hi; [|done].
      injection Hi as <-. eexists. split; [done|].
      right. exists d, r, c, dt. split_and!; [done|lia|done..].
  - unfold fallback_frame in Hi.
    destruct (plane (pixel_array ds) i) as [a|]; simpl in Hi; [|done].
    injection Hi as <-. exists a. split; [done|by left].
Qed.

(** X11.  The label array of the decoded frame at position [i] is plane
    [i] of the pixel array; only when the pixel array has no such plane
    (more frames are declared than stored) it is a plane of zeros of
    [Rows] by [Columns], of the element type of the pixel array. *)
Theorem decoded_frame_pixels ds sd i fr :
  decode_segmentation_dcm ds = Some sd →
  frames sd !! i = Some fr →
  ∃ a, pixel_data fr = Some a
       ∧ (plane (pixel_array ds) i = Some a
          ∨ ∃ d r c dt,
              depth (pixel_array ds) = Some d ∧ (d ≤ i)%nat
              ∧ Rows ds = Some r ∧ Columns ds = Some c
              ∧ pa_dtype (pixel_array ds) = Some dt
              ∧ a = np_zeros (r, c) dt).
Proof. apply decode_frame_pixels_inv. Qed.

(** X12.  A file whose pixel data is one 2D array with at least one row (a
    segmentation with a single frame) is never decoded into frames: the
    three-index access to its first plane raises, so the decoder returns
    nothing, or an object without frames when none is to be built. *)
Theorem single_plane_gives_no_frames ds a sd :
  pixel_array ds = Plane2D a →
  (0 < (arr_shape a).1)%nat →
  decode_segmentation_dcm ds = Some sd →
  frames sd = [].
Proof.
  intros Hpa Hrows Hdec.
  destruct (frames sd) as [|fr frs] eqn:Efr; [done|]. exfalso.
  assert (frames sd !! 0%nat = Some fr) as H0 by by rewrite Efr.
  destruct (decode_frame_pixels_inv _ _ _ _ Hdec H0)
    as (b & _ & [Hpl|(d & r & c & dt & Hd & Hle & _)]).
  - by rewrite Hpa in Hpl.
  - rewrite Hpa in Hd. simpl in Hd. injection Hd as <-. lia.
Qed.

Lemma segment_map_origin items : ∀ m n v,
  foldl segment_map_step m items !! n = Some v →
  m !! n = Some v
  ∨ ∃ item, item ∈ items ∧ SegmentNumber item = Some n ∧ n ≠ 0
            ∧ v = (default ("Label_" +:+ pretty n)
                           (truthy_str (SegmentLabel item)),
                   RecommendedDisplayCIELabValue item).
Proof.
  induction items as [|it items IH]; intros m n v; simpl; [by left|].
  intros Hl. apply IH in Hl as [Hm|(item & Hin & Hrest)].
  - unfold segment_map_step in Hm.
    destruct (SegmentNumber it) as [k|] eqn:Ek; [|by left].
    destruct (decide (k = 0)); [by left|].
    destruct (decide (k = n)) as [->|Hne].
    + rewrite lookup_insert_eq in Hm. injection Hm as <-.
      right. exists it. split_and!; [apply elem_of_cons; by left|done..].
    + rewrite lookup_insert_ne in Hm by done. by left.
  - right. exists item. split; [apply elem_of_cons; by right|done].
Qed.

(** X13.  A decoded frame has a segment name only when its segment number
    is a non-zero number that a segment of the file declares; the name is
    then that segment's label, or [Label_<number>] when the label is
    missing or empty, and the colour is that segment's colour. *)
Theorem decoded_segment_name ds sd i fr s :
  decode_segmentation_dcm ds = Some sd →
  frames sd !! i = Some fr →
  segment_name fr = Some s →
  ∃ n items item,
    segment_number fr = Some n ∧ n ≠ 0
    ∧ SegmentSequence ds = Some items ∧ item ∈ items
    ∧ SegmentNumber item = Some n
    ∧ s = default ("Label_" +:+ pretty n) (truthy_str (SegmentLabel item))
    ∧ segment_color fr = RecommendedDisplayCIELabValue item.
Proof.
  intros Hdec Hfr Hs. apply decode_frames_of in Hdec.
  pose proof (decode_frames_lookup _ _ _ _ Hdec Hfr) as Hi.
  destruct (per_frame_ok ds).
  - unfold decode_frame in Hi.
    destruct (default [] (PerFrameFunctionalGroupsSequence ds) !! i)
      as [item|]; simpl in Hi; [|done].
    destruct (depth _); simpl in Hi; [|done].
    destruct (if decide _ then _ else _) as [px|]; simpl in Hi; [|done].
    injection Hi as <-. simpl in Hs |- *.
    destruct (first_item (SegmentIdentificationSequence item) ≫= _)
      as [k|]; simpl in Hs |- *; [|done].
    destruct (decide (k = 0)) as [|Hk0]; [done|].
    destruct (build_segment_map ds !! k) as [[name col]|] eqn:Em;
      simpl in Hs |- *; [|done].
    injection Hs as ->. unfold build_segment_map in Em.
    destruct (SegmentSequence ds) as [items|]; [|by rewrite lookup_empty in Em].
    apply segment_map_origin in Em as [Em|(it & Hin & Hk & _ & Hv)];
      [by rewrite lookup_empty in Em|].
    injection Hv as -> ->. by exists k, items, it.
  - unfold fallback_frame in Hi. destruct (plane _ _); simpl in Hi; [|done].
    injection Hi as <-. done.
Qed.

(** X14.  The decoder returns an object whenever the pixel data is a stack
    of planes and either [Rows] and [Columns] are present or no more
    frames are declared than planes are stored; the object then has the
    declared number of frames if the per-frame metadata has that length,
    and one frame per plane otherwise. *)
Theorem decoder_returns ds dt planes :
  pixel_array ds = Volume3D dt planes →
  is_Some (Rows ds) ∧ is_Some (Columns ds)
  ∨ declared_num_frames ds ≤ Z.of_nat (length planes) →
  ∃ sd, decode_segmentation_dcm ds = Some sd
        ∧ Z.of_nat (length (frames sd))
          = if per_frame_ok ds then declared_num_frames ds
            else Z.of_nat (length planes).
Proof.
  intros Hpa Hsize.
  destruct (decode_segmentation_dcm_total ds dt planes Hpa Hsize) as [sd Hsd].
  exists sd. split; [done|].
  apply decode_frames_of, decode_frames_length in Hsd.
  destruct (per_frame_ok ds); [done|].
  destruct Hsd as [Hd _]. rewrite Hpa in Hd. simpl in Hd.
  by injection Hd as ->.
Qed.

Lemma counter_add_keys s (c : list (string * nat)) :
  (counter_add s c).*1 = if decide (s ∈ c.*1) then c.*1 else c.*1 ++ [s].
Proof.
  induction c as [|[k n] c IH].
  - by destruct (decide (s ∈ ([] : list (string * nat)).*1))
      as [Hin%elem_of_nil|].
  - change (((k, n) :: c).*1) with (k :: c.*1). cbn [counter_add].
    destruct (decide (k = s)) as [->|Hk].
    + rewrite decide_True; [done|apply elem_of_cons; by left].
    + change (((k, n) :: counter_add s c).*1)
        with (k :: (counter_add s c).*1).
      rewrite IH. destruct (decide (s ∈ c.*1)) as [Hin|Hnin].
      * rewrite decide_True; [done|apply elem_of_cons; by right].
      * rewrite decide_False; [done|].
        apply not_elem_of_cons. split; [|done]. by intros ->.
Qed.

Lemma counter_add_NoDup s (c : list (string * nat)) :
  NoDup c.*1 → NoDup (counter_add s c).*1.
Proof.
  intros Hnd. rewrite counter_add_keys.
  destruct (decide (s ∈ c.*1)) as [|Hnin]; [done|].
  apply NoDup_app. split_and!; [done| |apply NoDup_singleton].
  by intros x Hx ->%list_elem_of_singleton.
Qed.

Lemma counter_add_lookup s s' (c : list (string * nat)) :
  (list_to_map (counter_add s c) : gmap string nat) !! s'
  = if decide (s = s')
    then Some (S (default 0%nat ((list_to_map c : gmap string nat) !! s)))
    else (list_to_map c : gmap string nat) !! s'.
Proof.
  induction c as [|[k n] c IH].
  - cbn [counter_add]. rewrite list_to_map_cons, list_to_map_nil.
    destruct (decide (s = s')) as [->|Hne].
    + by rewrite lookup_insert_eq, lookup_empty.
    + by rewrite lookup_insert_ne.
  - cbn [counter_add]. destruct (decide (k = s)) as [->|Hks].
    + rewrite !list_to_map_cons. destruct (decide (s = s')) as [->|Hne].
      * by rewrite !lookup_insert_eq.
      * by rewrite !lookup_insert_ne.
    + rewrite !list_to_map_cons. destruct (decide (k = s')) as [->|Hks'].
      * rewrite !lookup_insert_eq. by rewrite decide_False by done.
      * rewrite !lookup_insert_ne by done. rewrite IH.
        by destruct (decide (s = s')).
Qed.

Lemma count_name_app s (l1 l2 : list Frame) :
  count_name s (l1 ++ l2) = (count_name s l1 + count_name s l2)%nat.
Proof. unfold count_name. by rewrite filter_app, length_app. Qed.

Lemma count_name_single s (fr : Frame) :
  count_name s [fr]
  = if decide (segment_name fr = Some s) then 1%nat else 0%nat.
Proof.
  unfold count_name. cbn. by destruct (decide (segment_name fr = Some s)).
Qed.

Lemma name_counter_agrees (frs : list Frame) :
  NoDup (name_counter frs).*1
  ∧ counts_agree (list_to_map (name_counter frs)) frs.
Proof.
  unfold name_counter, counts_agree.
  induction frs as [|fr frs [IHn IHc]] using rev_ind.
  - split; [constructor|]. intros s. cbn. by rewrite lookup_empty.
  - rewrite foldl_snoc.
    destruct (segment_name fr) as [s0|] eqn:Es.
    + split; [by apply counter_add_NoDup|]. intros s.
      rewrite counter_add_lookup, count_name_app, count_name_single, Es.
      destruct (decide (s0 = s)) as [->|Hne].
      * destruct (decide (Some s = Some s)) as [_|]; [|done]. rewrite IHc.
        destruct (decide (count_name s frs = 0%nat)) as [E0|E0].
        -- by rewrite E0.
        -- simpl.
           destruct (decide (count_name s frs + 1 = 0)%nat); [lia|].
           f_equal. lia.
      * destruct (decide (Some s0 = Some s)) as [|_]; [congruence|].
        rewrite Nat.add_0_r. apply IHc.
    + split; [done|]. intros s.
      rewrite count_name_app, count_name_single, Es.
      destruct (decide (None = Some s)) as [|_]; [done|].
      rewrite Nat.add_0_r. apply IHc.
Qed.

(** X15.  The [segment_name_count] that [main] records for a decoded
    object lists every segment name once, with the number of frames that
    carry it, and lists no name that no frame carries; frames without a
    name are not counted. *)
Theorem prepared_counts_agree ds sd :
  decode_segmentation_dcm ds = Some sd →
  NoDup (prep_segment_name_count (prepare sd)).*1
  ∧ counts_agree (list_to_map (prep_segment_name_count (prepare sd)))
                 (frames sd)
  ∧ prep_num_frames (prepare sd) = Z.of_nat (length (frames sd)).
Proof.
  intros Hdec. destruct (name_counter_agrees (frames sd)) as [Hnd Hc].
  split_and!; [done|done|].
  simpl. unfold decode_segmentation_dcm in Hdec.
  destruct (decode_frames ds); simpl in Hdec; [|done]. by injection Hdec as <-.
Qed.

End DecoderMore.

Section CountsThroughMerge.
Context `{Scalar}.
Import ConcatMultiplObjects Step_2_3_DecodeSegmentation.

Lemma count_name_const name s (l : list Frame) :
  Forall (λ fr, segment_name fr = Some name) l →
  count_name s l = if decide (name = s) then length l else 0%nat.
Proof.
  induction 1 as [|fr l Hfr _ IH].
  - by destruct (decide (name = s)).
  - change (fr :: l) with ([fr] ++ l).
    rewrite count_name_app, count_name_single, IH, Hfr.
    destruct (decide (name = s)) as [->|Hne].
    + by destruct (decide (Some s = Some s)).
    + by destruct (decide (Some name = Some s)) as [[= ?]|].
Qed.

(** X16.  The name counts of the catalog stay right through a merge
    directive whose new name is not yet the name of a frame: if the table
    agreed with the frames before the directive, it agrees with them
    after it.  (For a name that is already in use the directive stores the
    number of the frames it has just added, not their total.) *)
Theorem merge_keeps_counts st d st' :
  counts_agree (segment_name_count st) (frames (seg_data st)) →
  (∀ name, valid_entry d = Some name →
           count_name name (frames (seg_data st)) = 0%nat) →
  merge_directive st d = Some st' →
  counts_agree (segment_name_count st') (frames (seg_data st')).
Proof.
  intros Hc Hfresh. unfold merge_directive.
  destruct (valid_entry d) as [name|]; [|by intros [= <-]].
  specialize (Hfresh name eq_refl).
  destruct (emitted_frames _ _ _ _) as [new|] eqn:Enew; simpl; [|done].
  assert (Forall (λ fr, segment_name fr = Some name) new) as Hnames.
  { apply emitted_frames_inv in Enew as [_ Hall].
    apply Forall_forall. intros fr Hin. by destruct (Hall fr Hin). }
  destruct new as [|fr new]; intros [= <-]; simpl; [done|].
  intros s. rewrite count_name_app, (count_name_const name s _ Hnames).
  destruct (decide (name = s)) as [<-|Hne].
  - rewrite lookup_insert_eq, Hfresh. simpl. done.
  - rewrite lookup_insert_ne by done. rewrite Nat.add_0_r. apply Hc.
Qed.

End CountsThroughMerge.

(** * Further properties of steps 2.4.1 to 2.4.3 *)

Section NiftiMore.
Context `{Scalar}.
Import Step_2_4_NiftiGeneration.

Lemma find_matching_series_sound study ref_uid key info :
  find_matching_series study ref_uid = Some (key, info) →
  (key, info) ∈ study ∧ series_uid info = Some ref_uid.
Proof.
  induction study as [|[k i] study IH]; simpl; [done|].
  destruct (decide (series_uid i = Some ref_uid)) as [Hu|].
  - intros [= <- <-]. split; [apply elem_of_cons; by left|done].
  - intros Hf. apply IH in Hf as [Hin Hu].
    split; [apply elem_of_cons; by right|done].
Qed.

Lemma resolve_series_sound study seg_info :
  pkl_file (resolve_series study seg_info) = pkl_file seg_info
  ∧ si_ref_series_uid (resolve_series study seg_info)
    = si_ref_series_uid seg_info
  ∧ ∀ info,
      truthy_opt (si_ref_series_uid seg_info) ≠ None →
      series_info (resolve_series study seg_info) = Some (Some info) →
      series_uid info = si_ref_series_uid seg_info
      ∧ ∃ key, (key, info) ∈ study.
Proof.
  unfold resolve_series.
  destruct (si_ref_series_uid seg_info) as [[|c u]|] eqn:Er;
    [by split_and!..| |by split_and!].
  destruct (find_matching_series study _) as [[key m]|] eqn:Ef; simpl.
  - split_and!; [done|done|]. intros info _ [= <-].
    apply find_matching_series_sound in Ef as [Hin Hu].
    destruct m; simpl in *. split; [done|by exists key].
  - by split_and!.
Qed.

(** X17.  Step 2.4.1 keeps the segmentations and their order, changes
    nothing in a record but ["series_info"], and what it attaches to an
    object that declares a series identity is an entry of the catalog
    whose [series_uid] is that identity. *)
Theorem ready2nifti_sound seg_dict study i name seg_info' :
  step_2_4_1_create_ready2nifti seg_dict study !! i = Some (name, seg_info') →
  ∃ seg_info,
    seg_dict !! i = Some (name, seg_info)
    ∧ pkl_file seg_info' = pkl_file seg_info
    ∧ si_ref_series_uid seg_info' = si_ref_series_uid seg_info
    ∧ ∀ info,
        truthy_opt (si_ref_series_uid seg_info) ≠ None →
        series_info seg_info' = Some (Some info) →
        series_uid info = si_ref_series_uid seg_info
        ∧ ∃ key, (key, info) ∈ study.
Proof.
  unfold step_2_4_1_create_ready2nifti. rewrite list_lookup_fmap.
  destruct (seg_dict !! i) as [[k r]|]; simpl; [|done].
  intros [= <- <-]. exists r.
  destruct (resolve_series_sound study r) as (Hp & Hr & Hs). by split_and!.
Qed.

(** *** The order of the slices *)

Lemma insert_slice_perm ds l : insert_slice ds l ≡ₚ ds :: l.
Proof.
  induction l as [|d l IH]; simpl; [done|].
  destruct (decide _); [done|]. rewrite IH. apply Permutation_swap.
Qed.

Lemma sort_slices_perm files : sort_slices files ≡ₚ files.
Proof.
  induction files as [|ds files IH]; simpl; [done|].
  fold (sort_slices files). by rewrite insert_slice_perm, IH.
Qed.

Lemma insert_slice_sorted ds l :
  StronglySorted (λ a b, sort_key a ≤ sort_key b) l →
  StronglySorted (λ a b, sort_key a ≤ sort_key b) (insert_slice ds l).
Proof.
  induction 1 as [|d l Hl IH Hd]; simpl.
  - repeat constructor.
  - destruct (decide (sort_key ds ≤ sort_key d)) as [Hle|Hgt].
    + constructor; [by constructor|].
      constructor; [done|]. eapply Forall_impl; [exact Hd|].
      simpl. intros; lia.
    + constructor; [done|].
      rewrite insert_slice_perm. constructor; [lia|done].
Qed.

Lemma sort_slices_sorted files :
  StronglySorted (λ a b, sort_key a ≤ sort_key b) (sort_slices files).
Proof.
  induction files as [|ds files IH]; simpl; [constructor|].
  by apply insert_slice_sorted.
Qed.

Lemma insert_slice_stable k ds l :
  filter (λ d, sort_key d = k) (insert_slice ds l)
  = filter (λ d, sort_key d = k) (ds :: l).
Proof.
  induction l as [|d l IH]; simpl; [done|].
  destruct (decide (sort_key ds ≤ sort_key d)) as [Hle|Hgt]; [done|].
  rewrite !filter_cons in *.
  destruct (decide (sort_key d = k)) as [Hd|Hd];
    destruct (decide (sort_key ds = k)) as [Hs|Hs]; try lia;
    by rewrite IH.
Qed.

Lemma sort_slices_stable k files :
  filter (λ d, sort_key d = k) (sort_slices files)
  = filter (λ d, sort_key d = k) files.
Proof.
  induction files as [|ds files IH]; simpl; [done|].
  fold (sort_slices files).
  by rewrite insert_slice_stable, !filter_cons, IH.
Qed.

(** X18.  The slice list of a series holds the identifier of every file of
    the folder once, in the order of the instance numbers (a file without
    one counts as 0); files with equal numbers keep the order of their
    names, and the third dimension of the shape is the number of files. *)
Theorem slice_order files sop_list shape_ aff_ dt :
  load_sop_uid_order files = Some (sop_list, shape_, aff_, dt) →
  ∃ slices,
    sop_list = SOPInstanceUID <$> slices
    ∧ slices ≡ₚ files
    ∧ StronglySorted (λ a b, sort_key a ≤ sort_key b) slices
    ∧ (∀ k, filter (λ d, sort_key d = k) slices
            = filter (λ d, sort_key d = k) files)
    ∧ shape_.2 = length files.
Proof.
  intros Hl. exists (sort_slices files).
  assert (sop_list = SOPInstanceUID <$> sort_slices files) as Hs.
  { unfold load_sop_uid_order in Hl. destruct files as [|f0 files]; [done|].
    destruct (sort_slices (f0 :: files)) as [|first slices]; [done|].
    repeat match type of Hl with
    | context [mbind _ ?o] => destruct o; simpl in Hl; [|done]
    end.
    by injection Hl as <- _ _ _. }
  split_and!; [done|apply sort_slices_perm|apply sort_slices_sorted
              |intros; apply sort_slices_stable|].
  apply load_sop_uid_order_length in Hl.
  by rewrite <- Hl, Hs, length_fmap, sort_slices_perm.
Qed.

(** X19.  The lookup from identifier to slice index gives, for an
    identifier that several slices carry, the index of the last of them,
    and gives nothing exactly for the identifiers that no slice carries. *)
Theorem lookup_takes_last_slice sop_uid_list k i :
  sop_uid_to_index sop_uid_list !! k = Some i ↔
  sop_uid_list !! i = Some k
  ∧ ∀ j, (i < j)%nat → sop_uid_list !! j ≠ Some k.
Proof.
  split; [apply sop_uid_to_index_Some|].
  intros [Hi Hlast].
  destruct (sop_uid_to_index sop_uid_list !! k) as [i'|] eqn:E.
  - apply sop_uid_to_index_Some in E as [Hi' Hlast'].
    f_equal. destruct (Nat.lt_trichotomy i i') as [Hlt|[->|Hgt]]; [|done|].
    + by destruct (Hlast i' Hlt).
    + by destruct (Hlast' i Hgt).
  - apply sop_uid_to_index_None in E. exfalso. apply E.
    by eapply list_elem_of_lookup_2.
Qed.

(** X20.  A slice on which no frame of the segment is placed is all zero
    in the label volume of that segment. *)
Theorem unaddressed_slice_stays_zero index folder s shape_ frs j :
  (j < shape_.2)%nat →
  (∀ fr a, fr ∈ frs → segment_name fr = s →
           frame_entry index fr = Some (j, a) → ¬ fits shape_ a) →
  vol_planes (build_mask folder s shape_ (entries index s frs)).1 !! j
  = Some (np_zeros shape_.1 uint8).
Proof.
  intros Hj Hno. rewrite build_mask_eq. simpl.
  rewrite foldl_place_plane_other.
  - simpl. by apply lookup_replicate_2.
  - intros a Hin. apply entries_elem in Hin as (fr & Hfr & Hs & Hp & Hi).
    eapply Hno; [done|done|]. unfold frame_entry. by rewrite Hi, Hp.
Qed.

End NiftiMore.

Section RerunFacts.
Context `{Scalar}.
Import Step_2_4_NiftiGeneration.

(** *** Running step 2.4.2 again *)

Lemma original_nifti_step_settled_noop inp out_dir st seg_info :
  settled inp out_dir (fs242 st) seg_info →
  ∃ st', original_nifti_step false inp out_dir st seg_info = Some st'
         ∧ fs242 st' = fs242 st.
Proof.
  unfold settled, original_nifti_step, series_nii_path, readable_at.
  destruct (series_info seg_info) as [[info|]|]; [|by eexists..].
  destruct (list_dir inp _) as [files|]; [|by eexists].
  destruct (decide _); [by eexists|].
  intros [[img Hr] | Hl].
  - rewrite Hr. by eexists.
  - rewrite Hl. destruct (fs242 st !! _) as [[|]|]; by eexists.
Qed.

Lemma nib_save_inv inp path v aff fs fs' :
  nib_save inp path v aff fs = Some fs' →
  fs' = <[path := Readable (Nifti1Image v aff)]> fs.
Proof. unfold nib_save. destruct (nib_saves _ _ _); by intros [= <-]. Qed.

Lemma insert_readable fs path img p :
  readable_at fs p → readable_at (<[path := Readable img]> fs) p.
Proof.
  intros [img' Hp]. destruct (decide (path = p)) as [<-|].
  - exists img. apply lookup_insert_eq.
  - exists img'. by rewrite lookup_insert_ne.
Qed.

(** What a step of 2.4.2 does to the state, case by case. *)
Lemma original_nifti_step_cases overwrite inp out_dir st seg_info st' :
  original_nifti_step overwrite inp out_dir st seg_info = Some st' →
  st' = st
  ∨ (fs242 st' = fs242 st ∧ processed_series st' = processed_series st)
  ∨ ∃ info files,
      series_info seg_info = Some (Some info)
      ∧ list_dir inp (series_folder_path info) = Some files
      ∧ processed_series st'
        = <[series_number info := series_nii_path out_dir info]>
            (processed_series st)
      ∧ ((fs242 st' = fs242 st
          ∧ readable_at (fs242 st) (series_nii_path out_dir info))
         ∨ ∃ vol aff dims,
             load_dicom_series files = Some (vol, aff, dims)
             ∧ fs242 st' = <[series_nii_path out_dir info
                               := Readable (Nifti1Image vol aff)]> (fs242 st)).
Proof.
  unfold original_nifti_step, series_nii_path.
  destruct (series_info seg_info) as [[info|]|] eqn:Ei;
    [|intros [= <-]; by left..].
  destruct (list_dir inp _) as [files|] eqn:Ed;
    [|intros [= <-]; right; by left].
  destruct (decide _); [intros [= <-]; by left|].
  set (nii_path := path_join out_dir (py_str (series_number info) +:+ ".nii")).
  assert (∀ st1,
    match load_dicom_series files with
    | Some (vol_3d, aff, _) =>
        nib_save inp nii_path vol_3d aff (fs242 st)
        ≫= λ fs, Some {| fs242 := fs;
                         processed_series :=
                           <[series_number info := nii_path]>
                             (processed_series st);
                         log242 := log242 st
                           ++ [Created (py_str (series_number info) +:+ ".nii")
                                 (shape_tuple (vol_shape vol_3d))] |}
    | None => Some {| fs242 := fs242 st;
                      processed_series := processed_series st;
                      log242 := log242 st
                        ++ [ErrorLoading (series_number info)] |}
    end = Some st1 →
    (fs242 st1 = fs242 st ∧ processed_series st1 = processed_series st)
    ∨ ∃ vol aff dims,
        load_dicom_series files = Some (vol, aff, dims)
        ∧ processed_series st1
          = <[series_number info := nii_path]> (processed_series st)
        ∧ fs242 st1 = <[nii_path := Readable (Nifti1Image vol aff)]>
                        (fs242 st)) as Hcreate.
  { intros st1. destruct (load_dicom_series files) as [[[v a] d]|];
      [|intros [= <-]; by left].
    destruct (nib_save _ _ _ _ _) as [fs1|] eqn:Es; simpl; [|done].
    apply nib_save_inv in Es as ->. intros [= <-]. right. by exists v, a, d. }
  destruct (fs242 st !! nii_path) as [[raw|ex]|] eqn:Efs, overwrite;
    try (intros Hst;
         apply Hcreate in Hst as [Hsame|(v & a & d & Hl & Hp & Hf)];
         [right; by left|];
         right; right; exists info, files;
         split_and!; [done|done|done|]; right; by exists v, a, d).
  intros [= <-]. right; right. exists info, files.
  split_and!; [done|done|done|]. left. split; [done|]. by exists ex.
Qed.

Lemma original_nifti_step_readable overwrite inp out_dir st seg_info st' p :
  original_nifti_step overwrite inp out_dir st seg_info = Some st' →
  readable_at (fs242 st) p → readable_at (fs242 st') p.
Proof.
  intros Hstep Hp.
  apply original_nifti_step_cases in Hstep
    as [->|[[-> _]|(info & files & _ & _ & _
                     & [[-> _]|(v & a & d & _ & ->)])]];
    [done|done|done|].
  by apply insert_readable.
Qed.

Lemma settled_mono inp out_dir fs fs' seg_info :
  (∀ p, readable_at fs p → readable_at fs' p) →
  settled inp out_dir fs seg_info → settled inp out_dir fs' seg_info.
Proof.
  unfold settled. intros Hm.
  destruct (series_info seg_info) as [[info|]|]; [|done..].
  destruct (list_dir inp _); [|done]. intros [Hr|Hl]; [left; auto|by right].
Qed.

Lemma original_nifti_step_inv overwrite inp out_dir st seg_info st' :
  processed_have_files out_dir st →
  original_nifti_step overwrite inp out_dir st seg_info = Some st' →
  processed_have_files out_dir st'
  ∧ settled inp out_dir (fs242 st') seg_info.
Proof.
  intros Hinv Hstep.
  assert (settled inp out_dir (fs242 st') seg_info) as Hset.
  { revert Hstep. unfold settled, original_nifti_step, series_nii_path.
    destruct (series_info seg_info) as [[info|]|] eqn:Ei; [|done..].
    destruct (list_dir inp _) as [files|] eqn:Ed; [|done].
    destruct (decide _) as [[p Hp]|Hnp].
    { intros [= <-]. left. by eapply Hinv. }
    set (nii_path := path_join out_dir _).
    assert (∀ st1,
      match load_dicom_series files with
      | Some (vol_3d, aff, _) =>
          nib_save inp nii_path vol_3d aff (fs242 st)
          ≫= λ fs, Some {| fs242 := fs;
                           processed_series :=
                             <[series_number info := nii_path]>
                               (processed_series st);
                           log242 := log242 st
                             ++ [Created
                                   (py_str (series_number info) +:+ ".nii")
                                   (shape_tuple (vol_shape vol_3d))] |}
      | None => Some {| fs242 := fs242 st;
                        processed_series := processed_series st;
                        log242 := log242 st
                          ++ [ErrorLoading (series_number info)] |}
      end = Some st1 →
      readable_at (fs242 st1) nii_path ∨ load_dicom_series files = None)
      as Hcreate.
    { intros st1. destruct (load_dicom_series files) as [[[v a] d]|];
        [|intros _; by right].
      destruct (nib_save _ _ _ _ _) as [fs1|] eqn:Es; simpl; [|done].
      apply nib_save_inv in Es as ->. intros [= <-]. left.
      eexists. apply lookup_insert_eq. }
    destruct (fs242 st !! nii_path) as [[raw|ex]|] eqn:Efs, overwrite;
      try (by apply Hcreate).
    intros [= <-]. left. by exists ex. }
  split; [|done].
  apply original_nifti_step_cases in Hstep
    as [->|[[Hf Hp]|(info & files & Hi & Hd & Hp & Hfs)]]; [done| |].
  - intros sn p. rewrite Hp, Hf. apply Hinv.
  - intros sn p. rewrite Hp.
    destruct (decide (series_number info = sn)) as [<-|Hne].
    + intros _. unfold series_nii_path in Hfs.
      destruct Hfs as [[-> Hr]|(v & a & d & _ & ->)]; [done|].
      eexists. apply lookup_insert_eq.
    + rewrite lookup_insert_ne by done. intros Hsn.
      destruct Hfs as [[-> _]|(v & a & d & _ & ->)]; [by eapply Hinv|].
      apply insert_readable. by eapply Hinv.
Qed.

Lemma run_242_settles overwrite inp out_dir l : ∀ st st',
  processed_have_files out_dir st →
  original_nifti_loop overwrite inp out_dir st l = Some st' →
  processed_have_files out_dir st'
  ∧ (∀ p, readable_at (fs242 st) p → readable_at (fs242 st') p)
  ∧ Forall (λ kv : string * SegInfo, settled inp out_dir (fs242 st') kv.2) l.
Proof.
  induction l as [|[k x] l IH]; intros st st' Hinv; simpl.
  - intros [= <-]. by split_and!.
  - destruct (original_nifti_step overwrite inp out_dir st x) as [st1|] eqn:E1;
      simpl; [|done].
    intros Hrest.
    destruct (original_nifti_step_inv _ _ _ _ _ _ Hinv E1) as [Hinv1 Hset1].
    destruct (IH _ _ Hinv1 Hrest) as (Hinv2 & Hmono & Hall).
    split_and!; [done| |].
    + intros p Hp. apply Hmono. by eapply original_nifti_step_readable.
    + constructor; [|done]. simpl. by eapply settled_mono.
Qed.

Lemma rerun_242_noop inp out_dir l : ∀ st,
  Forall (λ kv : string * SegInfo, settled inp out_dir (fs242 st) kv.2) l →
  ∃ st', original_nifti_loop false inp out_dir st l = Some st'
         ∧ fs242 st' = fs242 st.
Proof.
  induction l as [|[k x] l IH]; intros st Hall; simpl; [by eexists|].
  apply Forall_cons in Hall as [Hx Hall]. simpl in Hx.
  destruct (original_nifti_step_settled_noop _ _ _ _ Hx) as (st1 & -> & E).
  simpl. destruct (IH st1) as (st' & -> & E'); [by rewrite E|].
  exists st'. split; [done|]. by rewrite E', E.
Qed.

(** X21.  Step 2.4.2 is idempotent on the output folder: after a run that
    came to its end, with or without the overwrite flag, a second run
    without the flag over the same records and the same series folders
    comes to its end and writes no file. *)
Theorem original_nifti_rerun_writes_nothing overwrite inp out_dir fs seg_dict
    st :
  step_2_4_2_create_original_nifti overwrite inp out_dir fs seg_dict
  = Some st →
  ∃ st',
    step_2_4_2_create_original_nifti false inp out_dir (fs242 st) seg_dict
    = Some st'
    ∧ fs242 st' = fs242 st.
Proof.
  unfold step_2_4_2_create_original_nifti. intros Hrun.
  apply run_242_settles in Hrun as (_ & _ & Hall).
  - by apply (rerun_242_noop inp out_dir seg_dict
                {| fs242 := fs242 st; processed_series := ∅; log242 := [] |}).
  - intros sn p. simpl. by rewrite lookup_empty.
Qed.

(** *** Running step 2.4.3 again on one segmentation *)

Lemma build_mask_shape folder s shape_ l :
  vol_shape (build_mask folder s shape_ l).1 = shape_.
Proof.
  rewrite build_mask_eq. simpl.
  by destruct (foldl_place_plane_shape shape_ l (np_zeros3 shape_ uint8))
    as (-> & _ & _).
Qed.

(** What the step for one segment name does to the files: nothing, or it
    stores the label volume of that name with the affine of the series. *)
Lemma seg_name_step_cases overwrite inp out_dir sn folder shape_ aff_ st kv
    st' :
  seg_name_step overwrite inp out_dir sn folder shape_ aff_ st kv = Some st' →
  (st'.1 = st.1 ∧ shaped_at st.1 shape_ (seg_nii_path out_dir sn folder kv.1))
  ∨ st'.1 = <[seg_nii_path out_dir sn folder kv.1
                := Readable (Nifti1Image (build_mask folder kv.1 shape_ kv.2).1
                               aff_)]> st.1.
Proof.
  unfold seg_name_step, save_seg_nifti, seg_nii_path, shaped_at.
  set (path := path_join out_dir _).
  set (mask := (build_mask folder kv.1 shape_ kv.2).1).
  assert (∀ msg,
    (nib_save inp path mask aff_ st.1 ≫= λ fs', Some (fs', msg))
    ≫= (λ sv : gmap string StoredFile * list Message,
          Some (sv.1, st.2 ++ (build_mask folder kv.1 shape_ kv.2).2 ++ sv.2))
    = Some st' →
    st'.1 = <[path := Readable (Nifti1Image mask aff_)]> st.1) as Hwrite.
  { intros msg. destruct (nib_save _ _ _ _ _) as [fs1|] eqn:Es; simpl; [|done].
    apply nib_save_inv in Es as ->. by intros [= <-]. }
  destruct (st.1 !! path) as [[raw|ex]|] eqn:Efs, overwrite;
    try (intros Hst; right; by eapply Hwrite).
  destruct (decide (img_shape ex = shape_tuple shape_)) as [Hs|].
  - simpl. intros [= <-]. left. split; [done|]. by exists ex.
  - intros Hst; right; by eapply Hwrite.
Qed.

Lemma seg_name_step_shaped overwrite inp out_dir sn folder shape_ aff_ st kv
    st' :
  seg_name_step overwrite inp out_dir sn folder shape_ aff_ st kv = Some st' →
  (∀ p, shaped_at st.1 shape_ p → shaped_at st'.1 shape_ p)
  ∧ shaped_at st'.1 shape_ (seg_nii_path out_dir sn folder kv.1).
Proof.
  intros Hstep.
  apply seg_name_step_cases in Hstep as [[-> Hs]| ->]; [done|].
  assert (img_shape (Nifti1Image (build_mask folder kv.1 shape_ kv.2).1 aff_)
          = shape_tuple shape_) as Hnew.
  { unfold Nifti1Image, shape_tuple. simpl. by rewrite build_mask_shape. }
  unfold shaped_at. split.
  - intros p (img & Hp & Hs).
    destruct (decide (seg_nii_path out_dir sn folder kv.1 = p)) as [<-|].
    + rewrite lookup_insert_eq. eauto.
    + rewrite lookup_insert_ne by done. eauto.
  - rewrite lookup_insert_eq. eauto.
Qed.

Lemma seg_names_shaped overwrite inp out_dir sn folder shape_ aff_ l :
  ∀ st st',
  seg_names_loop overwrite inp out_dir sn folder shape_ aff_ st l = Some st' →
  (∀ p, shaped_at st.1 shape_ p → shaped_at st'.1 shape_ p)
  ∧ Forall (λ kv : option string * list (nat * ndarray),
              shaped_at st'.1 shape_ (seg_nii_path out_dir sn folder kv.1)) l.
Proof.
  induction l as [|kv l IH]; intros st st'; simpl.
  - intros [= <-]. by split.
  - destruct (seg_name_step _ _ _ _ _ _ _ _ _) as [st1|] eqn:E1; simpl; [|done].
    intros Hrest.
    destruct (seg_name_step_shaped _ _ _ _ _ _ _ _ _ _ E1) as [Hk Ht].
    destruct (IH _ _ Hrest) as [Hk' Hall].
    split; [by auto|]. constructor; [by auto|done].
Qed.

Lemma seg_names_rerun inp out_dir sn folder shape_ aff_ l : ∀ st,
  Forall (λ kv : option string * list (nat * ndarray),
            shaped_at st.1 shape_ (seg_nii_path out_dir sn folder kv.1)) l →
  ∃ st', seg_names_loop false inp out_dir sn folder shape_ aff_ st l = Some st'
         ∧ st'.1 = st.1.
Proof.
  induction l as [|kv l IH]; intros st Hall; simpl; [by eexists|].
  apply Forall_cons in Hall as [(img & Hp & Hs) Hall].
  assert (seg_name_step false inp out_dir sn folder shape_ aff_ st kv
          = Some (st.1, st.2 ++ (build_mask folder kv.1 shape_ kv.2).2
                             ++ [FoundExisting
                                   (sn +:+ "_ON_" +:+ py_str kv.1 +:+ "__FN_"
                                       +:+ folder +:+ ".nii")
                                   (img_shape img)])) as ->.
  { unfold seg_name_step, seg_nii_path in *.
    by erewrite save_seg_nifti_skips. }
  simpl. destruct (IH (st.1, st.2 ++ (build_mask folder kv.1 shape_ kv.2).2
                             ++ [FoundExisting
                                   (sn +:+ "_ON_" +:+ py_str kv.1 +:+ "__FN_"
                                       +:+ folder +:+ ".nii")
                                   (img_shape img)]))
    as (st' & -> & E); [done|].
  by exists st'.
Qed.

(** X22.  Step 2.4.3 is idempotent for a segmentation: after its label
    volumes have been produced, with or without the overwrite flag,
    processing the same segmentation again without the flag writes no
    file. *)
Theorem seg_nifti_rerun_writes_nothing overwrite inp out_dir st folder
    seg_info st' :
  seg_nifti_step overwrite inp out_dir st folder seg_info = Some st' →
  ∃ st'', seg_nifti_step false inp out_dir st' folder seg_info = Some st''
          ∧ fs243 st'' = fs243 st'.
Proof.
  unfold seg_nifti_step.
  destruct (_ ≫= _) as [seg_data|]; [|intros [= <-]; by eauto].
  destruct (series_info seg_info) as [[info|]|]; [|done|intros [= <-]; by eauto].
  destruct (truthy_opt _) as [sn|]; [|intros [= <-]; by eauto].
  destruct (list_dir _ _) as [files|]; [|intros [= <-]; by eauto].
  destruct (match series_sop_uids_cache st !! sn with
            | Some c => Some c
            | None => load_sop_uid_order files
            end) as [[[[sops shape_] aff_] dt]|] eqn:Ec.
  - set (groups := segment_frames_map (sop_uid_to_index sops)
                     (frames seg_data)).
    destruct (seg_names_loop overwrite inp out_dir sn folder shape_ aff_
                (fs243 st, log243 st) groups) as [r|] eqn:Er; simpl; [|done].
    intros [= <-]. simpl. rewrite lookup_insert_eq. simpl.
    apply seg_names_shaped in Er as [_ Hall].
    fold groups.
    destruct (seg_names_rerun inp out_dir sn folder shape_ aff_ groups
                (r.1, r.2) Hall) as (r' & -> & Hr').
    simpl. eexists. split; [done|]. done.
  - intros [= <-]. simpl.
    destruct (series_sop_uids_cache st !! sn); [done|].
    rewrite Ec. by eauto.
Qed.

(** *** A segmentation without a matching series *)

Lemma seg_nifti_loop_app overwrite inp out_dir l1 l2 : ∀ st,
  seg_nifti_loop overwrite inp out_dir st (l1 ++ l2)
  = seg_nifti_loop overwrite inp out_dir st l1
    ≫= λ st', seg_nifti_loop overwrite inp out_dir st' l2.
Proof.
  induction l1 as [|[k x] l1 IH]; intros st; simpl; [done|].
  destruct (seg_nifti_step _ _ _ _ _ _); simpl; [apply IH|done].
Qed.

(** X23.  A segmentation that declares a series which the catalog does
    not hold gets a null ["series_info"] from step 2.4.1; if its pickle
    exists, step 2.4.3 then fails on that record and the batch is not
    finished, whatever the other records are. *)
Theorem unmatched_series_aborts_seg_nifti overwrite inp out_dir fs seg_dict
    study folder seg_info ref_uid p :
  (folder, seg_info) ∈ seg_dict →
  truthy_opt (si_ref_series_uid seg_info) = Some ref_uid →
  Forall (λ kv, series_uid kv.2 ≠ Some ref_uid) study →
  truthy_opt (pkl_file seg_info) = Some p →
  is_Some (pickles inp !! p) →
  step_2_4_3_create_seg_nifti overwrite inp out_dir fs
    (step_2_4_1_create_ready2nifti seg_dict study) = None.
Proof.
  intros Hin Hr Hno Hp [sd Hsd].
  apply list_elem_of_split in Hin as (l1 & l2 & ->).
  unfold step_2_4_3_create_seg_nifti, step_2_4_1_create_ready2nifti.
  rewrite fmap_app, seg_nifti_loop_app.
  destruct (seg_nifti_loop _ _ _ _ _) as [st|]; simpl; [|done].
  assert (si_ref_series_uid seg_info = Some ref_uid ∧ ref_uid ≠ "")
    as [Hdecl Hne].
  { destruct (si_ref_series_uid seg_info) as [[|c u]|]; simpl in Hr; [done| |done].
    by injection Hr as <-. }
  assert (series_info (resolve_series study seg_info) = Some None) as Hnull.
  { unfold resolve_series. rewrite Hdecl.
    destruct ref_uid as [|c u]; [done|].
    by rewrite find_matching_series_none. }
  unfold seg_nifti_step.
  destruct (resolve_series_sound study seg_info) as (Hpk & _ & _).
  rewrite Hpk, Hp. simpl. rewrite Hsd.
  by rewrite Hnull.
Qed.

End RerunFacts.

(** * The merged mask is the union of the source masks *)

Section MergeUnion.
Context `{Scalar}.
Import ConcatMultiplObjects.

Lemma slice_map_add_get key px (m m' : SliceMap) k :
  slice_map_add key px m = Some m' →
  sm_get k m' = if decide (key = k) then add_to (sm_get k m) px
                else sm_get k m.
Proof.
  revert m'. induction m as [|[k0 a0] m IH]; intros m'; cbn [slice_map_add].
  - unfold add_to. cbn [sm_get default].
    destruct (np_iadd _ _) as [a|]; [|done]. intros [= <-]. cbn [sm_get].
    by destruct (decide (key = k)).
  - destruct (decide (k0 = key)) as [->|Hk0].
    + destruct (np_iadd a0 px) as [a'|] eqn:Ea; [|done].
      intros [= <-]. cbn [sm_get].
      destruct (decide (key = k)) as [->|]; [|done].
      unfold add_to. by cbn [default].
    + destruct (slice_map_add key px m) as [m''|]; [|done].
      intros [= <-]. cbn [sm_get]. rewrite (IH m'' eq_refl).
      destruct (decide (k0 = k)) as [->|]; [|done].
      by rewrite decide_False.
Qed.

Lemma frame_key_uid (fr : Frame) uid :
  ref_sop_uid fr = Some uid →
  frame_key fr = Some (slice_key uid (image_position_patient fr)).
Proof. unfold frame_key. by intros ->. Qed.

Lemma slice_map_step_get old (m m' : SliceMap) fr k :
  slice_map_step old m fr = Some m' →
  sm_get k m' = match contribution old k fr with
                | Some px => add_to (sm_get k m) px
                | None => sm_get k m
                end.
Proof.
  unfold slice_map_step, contribution.
  destruct (segment_name fr) as [s|]; [|by intros [= <-]].
  destruct (decide (s ∈ old)) as [Hs|Hs].
  - destruct (pixel_data fr) as [px|]; [|by intros [= <-]].
    destruct (ref_sop_uid fr) as [uid|] eqn:Eu.
    + rewrite (frame_key_uid fr uid Eu). intros Hadd.
      rewrite (slice_map_add_get _ _ _ _ k Hadd).
      destruct (decide (slice_key uid _ = k)) as [Hk|Hk].
      * by rewrite decide_True.
      * rewrite decide_False; [done|]. by intros [_ ?].
    + unfold frame_key. rewrite Eu. by intros [= <-].
  - intros [= <-]. destruct (pixel_data fr); [|done].
    destruct (frame_key fr); [|done].
    rewrite decide_False; [done|]. by intros [? _].
Qed.

Lemma build_slice_map_get old frs k : ∀ m m' : SliceMap,
  build_slice_map old m frs = Some m' →
  sm_get k m' = foldl add_to (sm_get k m) (group old k frs).
Proof.
  unfold group. induction frs as [|fr frs IH]; intros m m'; simpl.
  - by intros [= <-].
  - destruct (slice_map_step old m fr) as [m1|] eqn:E1; simpl; [|done].
    intros Hrest. rewrite (IH _ _ Hrest).
    rewrite (slice_map_step_get _ _ _ _ k E1).
    by destruct (contribution old k fr).
Qed.

Lemma sm_get_elem k a (m : SliceMap) :
  NoDup m.*1 → (k, a) ∈ m → sm_get k m = Some a.
Proof.
  induction m as [|[k0 a0] m IH]; intros Hnd Hin.
  - by apply elem_of_nil in Hin.
  - change (((k0, a0) :: m).*1) with (k0 :: m.*1) in Hnd.
    apply NoDup_cons in Hnd as [Hk Hnd]. cbn [sm_get].
    apply elem_of_cons in Hin as [[= <- <-]|Hin].
    + by rewrite decide_True.
    + rewrite decide_False; [by apply IH|].
      intros ->. apply Hk. apply list_elem_of_fmap. by exists (k, a).
Qed.

Lemma clip_slice_map_elem k a (m : SliceMap) :
  (k, a) ∈ clip_slice_map m → ∃ b, (k, b) ∈ m ∧ a = np_clip 0 1 b.
Proof.
  unfold clip_slice_map. intros ([k' b] & [= -> ->] & Hin)%list_elem_of_fmap.
  by exists b.
Qed.

#[local] Arguments ones_at : simpl never.

(** The sum of binary arrays of one shape and of an unsigned type counts,
    element by element, the arrays that hold 1, as long as there are fewer
    arrays than the type has values. *)
Lemma foldl_add_to_counts w sh l :
  Forall (λ px, arr_dtype px = UInt w ∧ arr_shape px = sh ∧ arr_wf px
                ∧ binary_array px) l →
  l ≠ [] →
  Z.of_nat (length l) < 2 ^ Z.of_N w →
  ∃ a, foldl add_to None l = Some a
       ∧ arr_dtype a = UInt w ∧ arr_shape a = sh ∧ arr_wf a
       ∧ ∀ j, (j < length (arr_cells a))%nat →
              arr_cells a !! j = Some (Z.of_nat (ones_at j l)).
Proof.
  induction l as [|px l IH] using rev_ind; intros Hall Hne Hlen; [done|].
  rewrite foldl_snoc. apply Forall_app in Hall as [Hall Hpx].
  apply Forall_inv in Hpx as (Hdt & Hsh & Hwf & Hbin).
  rewrite length_app in Hlen. simpl in Hlen.
  assert (∀ j, ones_at j (l ++ [px])
               = (ones_at j l
                  + if decide (arr_cells px !! j = Some 1%Z) then 1 else 0)%nat)
    as Hones.
  { intros j. unfold ones_at. rewrite filter_app, length_app. f_equal.
    cbn. by destruct (decide (arr_cells px !! j = Some 1)). }
  assert (∀ j v, arr_cells px !! j = Some v → v = 0 ∨ v = 1) as Hb.
  { intros j v Hj. unfold binary_array in Hbin.
    rewrite Forall_forall in Hbin. apply Hbin.
    by eapply list_elem_of_lookup_2. }
  destruct l as [|px0 l'].
  - (* the first array *)
    simpl in *.
    unfold add_to. cbn [default].
    rewrite np_iadd_same; [|apply iadd_casts_refl|done].
    unfold np_zeros. eexists. split; [done|].
    cbn [arr_dtype arr_shape arr_cells].
    split_and!; [done|done| |].
    + unfold arr_wf in *. cbn [arr_shape arr_cells].
      rewrite length_zip_with, length_replicate. lia.
    + intros j Hj. rewrite length_zip_with, length_replicate in Hj.
      rewrite lookup_zip_with, lookup_replicate_2 by lia. cbn.
      destruct (arr_cells px !! j) as [v|] eqn:Ev;
        [|apply lookup_ge_None in Ev; lia].
      unfold wrap. rewrite Hdt, (Hones j).
      change (ones_at j []) with 0%nat.
      destruct (Hb j v Ev) as [->| ->].
      * rewrite Ev, decide_False by done. cbn.
        rewrite Z.mod_small; [done|lia].
      * rewrite Ev, decide_True by done. cbn.
        rewrite Z.mod_small; [done|lia].
  - (* one more array *)
    destruct IH as (b & -> & Hbdt & Hbsh & Hbwf & Hbcells);
      [done|done|lia|].
    change (add_to (Some b) px) with (np_iadd b px).
    rewrite np_iadd_same; [|by rewrite Hbdt, Hdt|congruence].
    eexists. split; [done|].
    cbn [arr_dtype arr_shape arr_cells].
    assert (length (arr_cells b) = length (arr_cells px)) as Hl.
    { unfold arr_wf in *. by rewrite Hbwf, Hwf, Hbsh, Hsh. }
    split_and!; [done|done| |].
    + unfold arr_wf in *. cbn [arr_shape arr_cells].
      rewrite length_zip_with. lia.
    + intros j Hj. rewrite length_zip_with in Hj.
      rewrite lookup_zip_with, Hbcells by lia. cbn.
      destruct (arr_cells px !! j) as [v|] eqn:Ev;
        [|apply lookup_ge_None in Ev; lia].
      cbn [option_fmap option_map fmap mbind option_bind].
      rewrite Hones. unfold wrap. rewrite Hbdt.
      assert (ones_at j (px0 :: l') ≤ length (px0 :: l'))%nat as Hle.
      { unfold ones_at. apply length_filter. }
      simpl in Hle, Hlen.
      destruct (Hb j v Ev) as [->| ->].
      * rewrite Ev, decide_False by done. cbn.
        rewrite Z.mod_small; [f_equal; lia|lia].
      * rewrite Ev, decide_True by done. cbn.
        rewrite Z.mod_small; [f_equal; lia|lia].
Qed.

Lemma group_elem old k (frs : list Frame) px :
  px ∈ group old k frs → ∃ fr, fr ∈ frs ∧ pixel_data fr = Some px.
Proof.
  unfold group. intros (fr & Hfr & Hc)%list_elem_of_omap.
  exists fr. split; [done|]. unfold contribution in Hc.
  destruct (segment_name fr); [|done].
  destruct (pixel_data fr) as [px'|]; [|done].
  destruct (frame_key fr); [|done].
  destruct (decide _); [|done]. by injection Hc as ->.
Qed.

Lemma group_length old k (frs : list Frame) :
  (length (group old k frs) ≤ length frs)%nat.
Proof.
  unfold group. induction frs as [|fr frs IH]; [done|].
  change (omap (contribution old k) (fr :: frs))
    with (match contribution old k fr with
          | Some px => px :: omap (contribution old k) frs
          | None => omap (contribution old k) frs
          end).
  destruct (contribution old k fr); simpl; lia.
Qed.

Lemma ones_at_pos j (l : list ndarray) :
  (0 < ones_at j l)%nat ↔ ∃ px, px ∈ l ∧ arr_cells px !! j = Some 1.
Proof.
  unfold ones_at. split.
  - intros Hpos.
    destruct (filter (λ px, arr_cells px !! j = Some 1) l) as [|px l'] eqn:E;
      [simpl in Hpos; lia|].
    assert (px ∈ filter (λ px, arr_cells px !! j = Some 1) l) as Hin
      by (rewrite E; apply elem_of_cons; by left).
    apply list_elem_of_filter in Hin as [Hone Hin]. by exists px.
  - intros (px & Hin & Hone).
    assert (px ∈ filter (λ px, arr_cells px !! j = Some 1) l) as Hf
      by by apply list_elem_of_filter.
    apply Nat.neq_0_lt_0. intros Hl%nil_length_inv.
    rewrite Hl in Hf. by apply elem_of_nil in Hf.
Qed.

(** X24.  The merged mask is the union of the source masks: when the
    label arrays of an object are well-formed binary arrays of one shape
    and of one unsigned type, and the object has fewer frames than that
    type has values, an element of the array of a merged frame is 1
    exactly when, on the same slice and position, one of the frames named
    in [old_objects] has 1 at that element. *)
Theorem merged_mask_is_union st d st' i fr' a' uid w sh j :
  merge_directive st d = Some st' →
  (length (frames (seg_data st)) ≤ i)%nat →
  frames (seg_data st') !! i = Some fr' →
  pixel_data fr' = Some a' →
  ref_sop_uid fr' = Some uid →
  Forall (λ fr, ∀ px, pixel_data fr = Some px →
                      arr_dtype px = UInt w ∧ arr_shape px = sh
                      ∧ arr_wf px ∧ binary_array px)
         (frames (seg_data st)) →
  Z.of_nat (length (frames (seg_data st))) < 2 ^ Z.of_N w →
  (j < length (arr_cells a'))%nat →
  arr_cells a' !! j = Some 1 ↔
  ∃ px, px ∈ group (old_objects d) (uid, image_position_patient fr')
               (frames (seg_data st))
        ∧ arr_cells px !! j = Some 1.
Proof.
  intros Hd Hi Hfr Ha Hu Hall Hlen Hj.
  apply merge_directive_emitted in Hd.
  destruct (valid_entry d) as [name|];
    [|rewrite Hd in Hfr; apply lookup_lt_Some in Hfr; lia].
  destruct Hd as (new & Hnew & E).
  rewrite E, lookup_app_r in Hfr by done.
  apply list_elem_of_lookup_2 in Hfr.
  unfold emitted_frames in Hnew.
  destruct (build_slice_map (old_objects d) [] (frames (seg_data st)))
    as [m|] eqn:Em; simpl in Hnew; [|done].
  injection Hnew as <-.
  apply build_new_frames_elem in Hfr
    as (uid' & ipp & a0 & Hin & _ & _ & _ & Hipp & Hu' & Hpx).
  assert (uid' = uid) as -> by congruence.
  assert (a0 = a') as -> by congruence.
  rewrite Hipp.
  apply clip_slice_map_elem in Hin as (b & Hin & ->).
  pose proof (build_slice_map_keys _ _ _ _ Em) as [Hnd _].
  pose proof (sm_get_elem _ _ _ (Hnd (NoDup_nil_2)) Hin) as Hget.
  rewrite (build_slice_map_get _ _ (uid, ipp) _ _ Em) in Hget.
  cbn [sm_get] in Hget.
  set (g := group (old_objects d) (uid, ipp) (frames (seg_data st))) in *.
  assert (Forall (λ px, arr_dtype px = UInt w ∧ arr_shape px = sh
                        ∧ arr_wf px ∧ binary_array px) g) as Hg.
  { apply Forall_forall. intros px Hpx'.
    apply group_elem in Hpx' as (fr & Hfr & Hp).
    rewrite Forall_forall in Hall. by apply (Hall fr). }
  assert (g ≠ []) as Hne by (intros Hnil; by rewrite Hnil in Hget).
  destruct (foldl_add_to_counts w sh g) as (b' & Hb' & _ & _ & _ & Hcells).
  - exact Hg.
  - done.
  - pose proof (group_length (old_objects d) (uid, ipp)
                  (frames (seg_data st))) as Hglen.
    fold g in Hglen. lia.
  - assert (b' = b) as -> by congruence.
    unfold np_clip in Hj |- *. cbn [arr_cells] in Hj |- *.
    rewrite length_fmap in Hj.
    rewrite list_lookup_fmap, (Hcells j Hj). cbn.
    rewrite <- ones_at_pos. split.
    + intros [= Hone]. lia.
    + intros Hpos. f_equal. lia.
Qed.

End MergeUnion.

(** * Shape and affine of the label volumes (steps 2.4.2 and 2.4.3) *)

Section ShapeIdentity.
Context `{Scalar}.
Import Step_2_4_NiftiGeneration.

Lemma truthy_opt_Some o s : truthy_opt o = Some s → o = Some s.
Proof. by destruct o as [[|c u]|]. Qed.

(** Every file that the loop over the segment names changes holds the
    label volume of one of the names, with the affine at hand. *)
Lemma seg_names_loop_files overwrite inp out_dir sn folder shape_ aff_ l :
  ∀ st st',
  seg_names_loop overwrite inp out_dir sn folder shape_ aff_ st l = Some st' →
  ∀ p, st'.1 !! p = st.1 !! p
       ∨ ∃ kv, kv ∈ l
               ∧ st'.1 !! p
                 = Some (Readable
                           (Nifti1Image (build_mask folder kv.1 shape_ kv.2).1
                              aff_)).
Proof.
  induction l as [|kv l IH]; intros st st'; simpl.
  - intros [= <-] p. by left.
  - destruct (seg_name_step _ _ _ _ _ _ _ _ _) as [st1|] eqn:E1; simpl; [|done].
    intros Hrest p.
    destruct (IH _ _ Hrest p) as [Hsame|(kv' & Hin & Hp)].
    + rewrite Hsame.
      apply seg_name_step_cases in E1 as [[-> _]| ->]; [by left|].
      destruct (decide (seg_nii_path out_dir sn folder kv.1 = p)) as [<-|].
      * right. exists kv. split; [apply elem_of_cons; by left|].
        apply lookup_insert_eq.
      * left. by rewrite lookup_insert_ne.
    + right. exists kv'. split; [apply elem_of_cons; by right|done].
Qed.

(** An entry of the cache was loaded from the folder of a record with that
    series number. *)
Lemma seg_nifti_step_cache overwrite inp out_dir st k x st' sn c :
  seg_nifti_step overwrite inp out_dir st k x = Some st' →
  series_sop_uids_cache st' !! sn = Some c →
  series_sop_uids_cache st !! sn = Some c
  ∨ ∃ info files,
      series_info x = Some (Some info) ∧ series_number info = Some sn
      ∧ list_dir inp (series_folder_path info) = Some files
      ∧ load_sop_uid_order files = Some c.
Proof.
  unfold seg_nifti_step.
  destruct (_ ≫= _) as [seg_data|]; [|intros [= <-]; by left].
  destruct (series_info x) as [[info|]|]; [|done|intros [= <-]; by left].
  destruct (truthy_opt _) as [sn0|] eqn:Esn; [|intros [= <-]; by left].
  destruct (list_dir _ _) as [files|] eqn:Ed; [|intros [= <-]; by left].
  destruct (match series_sop_uids_cache st !! sn0 with
            | Some c => Some c
            | None => load_sop_uid_order files
            end) as [[[[sops shape_] aff_] dt]|] eqn:Ec;
    [|intros [= <-]; by left].
  destruct (seg_names_loop _ _ _ _ _ _ _ _ _) as [r|]; simpl; [|done].
  intros [= <-]. simpl.
  destruct (decide (sn0 = sn)) as [->|Hne].
  - rewrite lookup_insert_eq. intros [= <-].
    destruct (series_sop_uids_cache st !! sn) as [c|]; [left; congruence|].
    right. exists info, files. split_and!; try done.
    by apply truthy_opt_Some.
  - rewrite lookup_insert_ne by done. by left.
Qed.

Lemma seg_nifti_loop_cache overwrite inp out_dir l : ∀ st st' sn c,
  seg_nifti_loop overwrite inp out_dir st l = Some st' →
  series_sop_uids_cache st' !! sn = Some c →
  series_sop_uids_cache st !! sn = Some c
  ∨ ∃ k x info files,
      (k, x) ∈ l
      ∧ series_info x = Some (Some info) ∧ series_number info = Some sn
      ∧ list_dir inp (series_folder_path info) = Some files
      ∧ load_sop_uid_order files = Some c.
Proof.
  induction l as [|[k x] l IH]; intros st st' sn c; simpl.
  - intros [= <-] Hc. by left.
  - destruct (seg_nifti_step _ _ _ _ _ _) as [st1|] eqn:E1; simpl; [|done].
    intros Hrest Hc.
    destruct (IH _ _ _ _ Hrest Hc)
      as [Hc1|(k' & x' & info & files & Hin & Hrec)].
    + destruct (seg_nifti_step_cache _ _ _ _ _ _ _ _ _ E1 Hc1)
        as [Hc0|(info & files & Hrec)]; [by left|].
      right. exists k, x, info, files. split; [apply elem_of_cons; by left|done].
    + right. exists k', x', info, files.
      split; [apply elem_of_cons; by right|done].
Qed.

(** C6.  Volume shape identity.  When the loader of step 2.4.2 returns the
    intensity volume of a series, the loader of step 2.4.3 returns for the
    same folder the same shape and the same affine.  For an object that
    references the series, provided no earlier record of the batch names
    another folder under the same series number (shape and affine are
    cached by series number), the step of 2.4.3 leaves a file of the
    shape of the intensity volume under the name of every segment of the
    object, and every file that it writes holds a label volume of that
    shape, plane for plane, with the affine of the intensity volume. *)
Theorem volume_shape_identity overwrite inp out_dir fs pre st folder seg_info
    st' info files vol aff dims :
  step_2_4_3_create_seg_nifti overwrite inp out_dir fs pre = Some st →
  seg_nifti_step overwrite inp out_dir st folder seg_info = Some st' →
  series_info seg_info = Some (Some info) →
  list_dir inp (series_folder_path info) = Some files →
  load_dicom_series files = Some (vol, aff, dims) →
  (∀ k x info', (k, x) ∈ pre → series_info x = Some (Some info') →
                series_number info' = series_number info →
                series_folder_path info' = series_folder_path info) →
  ∃ sop_list dt,
    load_sop_uid_order files = Some (sop_list, dims, aff, dt)
    ∧ (∀ seg_data sn s l,
         truthy_opt (pkl_file seg_info) ≫= (λ p, pickles inp !! p)
         = Some seg_data →
         truthy_opt (series_number info) = Some sn →
         (s, l) ∈ segment_frames_map (sop_uid_to_index sop_list)
                    (frames seg_data) →
         ∃ img, fs243 st' !! seg_nii_path out_dir sn folder s
                = Some (Readable img)
                ∧ img_shape img = img_shape (Nifti1Image vol aff))
    ∧ ∀ path,
        fs243 st' !! path = fs243 st !! path
        ∨ ∃ mask,
            fs243 st' !! path = Some (Readable (Nifti1Image mask aff))
            ∧ vol_shape mask = vol_shape vol
            ∧ vol_wf mask ∧ vol_wf vol
            ∧ img_shape (Nifti1Image mask aff)
              = img_shape (Nifti1Image vol aff).
Proof.
  intros Hpre Hstep Hi Hd Hload Huniq.
  destruct (load_sop_uid_order_agrees _ _ _ _ Hload) as (sops & dt & Hsop & _).
  destruct (load_dicom_series_wf _ _ _ _ Hload) as [Hshape Hwf].
  exists sops, dt. split; [done|].
  revert Hstep. unfold seg_nifti_step. rewrite Hi, Hd.
  destruct (truthy_opt (pkl_file seg_info) ≫= λ p, pickles inp !! p)
    as [seg_data|] eqn:Epk;
    [|intros [= <-]; split; [done|intros path; by left]].
  destruct (truthy_opt (series_number info)) as [sn|] eqn:Esn;
    [|intros [= <-]; split; [done|intros path; by left]].
  assert (match series_sop_uids_cache st !! sn with
          | Some c => Some c
          | None => load_sop_uid_order files
          end = Some (sops, dims, aff, dt)) as ->.
  { destruct (series_sop_uids_cache st !! sn) as [c|] eqn:Ec; [|done].
    unfold step_2_4_3_create_seg_nifti in Hpre.
    destruct (seg_nifti_loop_cache _ _ _ _ _ _ _ _ Hpre Ec)
      as [Hempty|(k & x & info' & files' & Hin & Hi' & Hsn' & Hd' & Hl')].
    { simpl in Hempty. by rewrite lookup_empty in Hempty. }
    apply truthy_opt_Some in Esn.
    rewrite (Huniq k x info' Hin Hi') in Hd' by congruence.
    congruence. }
  set (groups := segment_frames_map (sop_uid_to_index sops) (frames seg_data)).
  destruct (seg_names_loop overwrite inp out_dir sn folder dims aff
              (fs243 st, log243 st) groups) as [r|] eqn:Er; simpl; [|done].
  intros [= <-]. simpl.
  assert (img_shape (Nifti1Image vol aff) = shape_tuple dims) as Hvol.
  { unfold Nifti1Image, shape_tuple. simpl. by rewrite Hshape. }
  split.
  - intros seg_data' sn' s l [= <-] [= <-] Hin.
    apply seg_names_shaped in Er as [_ Hall].
    rewrite Forall_forall in Hall.
    destruct (Hall (s, l) Hin) as (img & Himg & Hs).
    exists img. split; [done|]. etrans; [exact Hs|]. symmetry. exact Hvol.
  - intros path.
    destruct (seg_names_loop_files _ _ _ _ _ _ _ _ _ _ Er path)
      as [Hsame|(kv & Hin & Hp)]; [by left|].
    right. exists (build_mask folder kv.1 dims kv.2).1.
    split_and!; [done| |  |done|].
    + by rewrite build_mask_shape, Hshape.
    + rewrite build_mask_eq. simpl.
      apply foldl_place_plane_wf; [done|apply np_zeros3_wf].
    + unfold Nifti1Image. simpl. by rewrite build_mask_shape, Hshape.
Qed.

End ShapeIdentity.

Section ShapeIdentityExamples.
#[local] Existing Instance Z_scalar.
Import Step_2_4_NiftiGeneration Examples.

Lemma volume_shape_identity_witness :
  ∃ st st',
    step_2_4_3_create_seg_nifti false (inputs_of [frame_a1] series_5)
      "/out/NIFTI" ∅ ready2nifti = Some st
    ∧ seg_nifti_step false (inputs_of [frame_a1] series_5) "/out/NIFTI" st
        "SEG_B" (resolved_record (info_of "/scans/5" "5" "1.2.3")) = Some st'
    ∧ load_dicom_series series_5
      = Some (series_5_volume, series_5_affine, (1, 1, 2)%nat)
    ∧ ∃ img, fs243 st' !! "/out/NIFTI/5_ON_A__FN_SEG_B.nii"
             = Some (Readable img)
             ∧ img_shape img = [1; 1; 2]%nat.
Proof.
  assert (load_dicom_series series_5
          = Some (series_5_volume, series_5_affine, (1, 1, 2)%nat)) as E
    by (vm_compute; reflexivity).
  destruct (step_2_4_3_create_seg_nifti false (inputs_of [frame_a1] series_5)
              "/out/NIFTI" ∅ ready2nifti) as [st|] eqn:E1;
    [|vm_compute in E1; discriminate].
  destruct (seg_nifti_step false (inputs_of [frame_a1] series_5) "/out/NIFTI"
              st "SEG_B" (resolved_record (info_of "/scans/5" "5" "1.2.3")))
    as [st'|] eqn:E2.
  2:{ destruct (seg_nifti_step_total false (inputs_of [frame_a1] series_5)
                  "/out/NIFTI" st "SEG_B"
                  (resolved_record (info_of "/scans/5" "5" "1.2.3")))
        as [x Hx]; [discriminate|done|congruence]. }
  exists st, st'. split_and!; [done|done|exact E|].
  destruct (volume_shape_identity false (inputs_of [frame_a1] series_5)
              "/out/NIFTI" ∅ ready2nifti st "SEG_B"
              (resolved_record (info_of "/scans/5" "5" "1.2.3")) st'
              (info_of "/scans/5" "5" "1.2.3") series_5 series_5_volume
              series_5_affine (1, 1, 2)%nat E1 E2 eq_refl eq_refl E)
    as (sops & dt & Hsop & Hfiles & _).
  - intros k x info' Hin Hi _.
    apply list_elem_of_singleton in Hin. injection Hin as -> ->.
    by injection Hi as <-.
  - assert (sops = series_5_uids) as ->
      by (vm_compute in Hsop; injection Hsop as <-; reflexivity).
    apply (Hfiles (object_of [frame_a1]) "5" (Some "A") [(0%nat, cell 1)]).
    + reflexivity.
    + reflexivity.
    + vm_compute. apply elem_of_cons. by left.
Defined.

(** C6 as it is written fails.  The folder [/scans/5_copy] holds one slice
    under the series number 5; the segmentation SEG_2 references it and
    comes after a segmentation on the two-slice series 5.  Step 2.4.3 finds
    the number 5 in its cache and writes the label volume of SEG_2 with
    two slices and the affine of series 5, where the loader gives one
    slice and another affine for the folder that SEG_2 references. *)
Lemma label_volume_takes_cached_geometry :
  ∃ st img vol aff,
    step_2_4_3_create_seg_nifti false two_folder_inputs "/out/NIFTI" ∅
      two_folder_records = Some st
    ∧ list_dir two_folder_inputs "/scans/5_copy" = Some series_5_copy
    ∧ load_dicom_series series_5_copy = Some (vol, aff, (1, 1, 1)%nat)
    ∧ fs243 st !! "/out/NIFTI/5_ON_A__FN_SEG_2.nii" = Some (Readable img)
    ∧ img_shape img = [1; 1; 2]%nat
    ∧ img_shape (Nifti1Image vol aff) = [1; 1; 1]%nat
    ∧ img_affine img ≠ aff.
Proof.
  eexists _, _, _, _. split_and!.
  - vm_compute. reflexivity.
  - vm_compute. reflexivity.
  - vm_compute. reflexivity.
  - vm_compute. reflexivity.
  - reflexivity.
  - reflexivity.
  - vm_compute. discriminate.
Qed.

End ShapeIdentityExamples.

(** * Properties of the selection (Step_2_2_SelectSegmentations.py) *)

Section SelectFacts.
Import Step_2_2_SelectSegmentations.
Variable lower : string → string.

Lemma folder_map_Some seg_info x k :
  folder_map lower seg_info !! x = Some k → k ∈ seg_info.*1 ∧ lower k = x.
Proof.
  unfold folder_map.
  induction seg_info as [|[k0 v] d IH] using rev_ind.
  - simpl. by rewrite lookup_empty.
  - rewrite foldl_snoc, fmap_app. simpl.
    destruct (decide (lower k0 = x)) as [<-|Hne].
    + rewrite lookup_insert_eq. intros [= <-].
      split; [|done]. apply elem_of_app. right. apply elem_of_cons. by left.
    + rewrite lookup_insert_ne by done. intros Hk.
      destruct (IH Hk) as [Hin Hl]. split; [|done].
      apply elem_of_app. by left.
Qed.

Lemma folder_map_None seg_info x :
  folder_map lower seg_info !! x = None ↔ x ∉ lower <$> seg_info.*1.
Proof.
  unfold folder_map.
  induction seg_info as [|[k0 v] d IH] using rev_ind.
  - simpl. rewrite lookup_empty. split; [intros _; apply not_elem_of_nil|done].
  - rewrite foldl_snoc, !fmap_app. simpl.
    rewrite not_elem_of_app, <- IH.
    destruct (decide (lower k0 = x)) as [<-|Hne].
    + rewrite lookup_insert_eq. split; [done|].
      intros [_ Hn]. exfalso. apply Hn. apply elem_of_cons. by left.
    + rewrite lookup_insert_ne by done. split.
      * intros Hn. split; [done|].
        by intros [?|?%elem_of_nil]%elem_of_cons.
      * by intros [? _].
Qed.

Lemma exported_map_Some seg_info x k :
  exported_map lower seg_info !! x = Some k →
  ∃ v e, (k, v) ∈ seg_info ∧ exported v = Some e ∧ lower e = x.
Proof.
  unfold exported_map.
  induction seg_info as [|[k0 v0] d IH] using rev_ind.
  - simpl. by rewrite lookup_empty.
  - rewrite foldl_snoc. simpl.
    assert (∀ v e, (k, v) ∈ d ∧ exported v = Some e ∧ lower e = x →
                   (k, v) ∈ d ++ [(k0, v0)] ∧ exported v = Some e
                   ∧ lower e = x) as Hleft.
    { intros v e (? & ? & ?). split; [apply elem_of_app; by left|done]. }
    destruct (exported v0) as [e0|] eqn:Ee.
    + destruct (decide (lower e0 = x)) as [<-|Hne].
      * rewrite lookup_insert_eq. intros [= <-]. exists v0, e0.
        split; [|done]. apply elem_of_app. right. apply elem_of_cons. by left.
      * rewrite lookup_insert_ne by done. intros Hk.
        destruct (IH Hk) as (v & e & Hve). exists v, e. by apply Hleft.
    + intros Hk. destruct (IH Hk) as (v & e & Hve). exists v, e.
      by apply Hleft.
Qed.

Lemma exported_map_None seg_info x :
  exported_map lower seg_info !! x = None ↔ x ∉ exported_lowers lower seg_info.
Proof.
  unfold exported_map, exported_lowers.
  induction seg_info as [|[k0 v0] d IH] using rev_ind.
  - simpl. rewrite lookup_empty. split; [intros _; apply not_elem_of_nil|done].
  - rewrite foldl_snoc, omap_app. simpl.
    rewrite not_elem_of_app, <- IH.
    destruct (exported v0) as [e0|] eqn:Ee; simpl.
    + destruct (decide (lower e0 = x)) as [<-|Hne].
      * rewrite lookup_insert_eq. split; [done|].
        intros [_ Hn]. exfalso. apply Hn. apply elem_of_cons. by left.
      * rewrite lookup_insert_ne by done. split.
        -- intros Hn. split; [done|].
           by intros [?|?%elem_of_nil]%elem_of_cons.
        -- by intros [? _].
    + split; [intros Hn; split; [done|apply not_elem_of_nil]|by intros [? _]].
Qed.

Lemma find_key_None seg_info r :
  find_key lower seg_info r = None ↔ ¬ known lower seg_info r.
Proof.
  unfold find_key, known.
  destruct (folder_map lower seg_info !! lower r) as [k|] eqn:Ef.
  - split; [done|]. intros Hn. exfalso. apply Hn. left.
    destruct (decide (lower r ∈ lower <$> seg_info.*1)) as [|Hnin]; [done|].
    apply folder_map_None in Hnin. congruence.
  - apply folder_map_None in Ef. rewrite exported_map_None. tauto.
Qed.

Lemma dict_get_elem k (d : SegInfoDict) :
  k ∈ d.*1 → ∃ v, dict_get k d = Some v ∧ (k, v) ∈ d.
Proof.
  induction d as [|[k0 v0] d IH]; [by intros ?%elem_of_nil|].
  change (((k0, v0) :: d).*1) with (k0 :: d.*1). cbn [dict_get].
  destruct (decide (k0 = k)) as [->|Hne].
  - intros _. exists v0. split; [done|]. apply elem_of_cons. by left.
  - intros [?|Hin]%elem_of_cons; [done|].
    destruct (IH Hin) as (v & Hv & Hin'). exists v.
    split; [done|]. apply elem_of_cons. by right.
Qed.

Lemma find_key_Some seg_info r k :
  find_key lower seg_info r = Some k →
  k ∈ seg_info.*1
  ∧ (lower k = lower r
     ∨ (lower r ∉ lower <$> seg_info.*1)
       ∧ ∃ v e, (k, v) ∈ seg_info ∧ exported v = Some e
                ∧ lower e = lower r).
Proof.
  unfold find_key.
  destruct (folder_map lower seg_info !! lower r) as [k'|] eqn:Ef.
  - intros [= <-]. apply folder_map_Some in Ef as [Hin Hl]. by auto.
  - intros He. apply folder_map_None in Ef.
    apply exported_map_Some in He as (v & e & Hin & He & Hl).
    split.
    + apply list_elem_of_fmap. by exists (k, v).
    + right. split; [done|]. by exists v, e.
Qed.

Lemma dict_set_elem k v (d : SegInfoDict) k' v' :
  (k', v') ∈ dict_set k v d → (k' = k ∧ v' = v) ∨ (k', v') ∈ d.
Proof.
  induction d as [|[k0 v0] d IH]; cbn [dict_set].
  - intros [[= -> ->]|?%elem_of_nil]%elem_of_cons; [by left|done].
  - destruct (decide (k0 = k)) as [->|Hne].
    + intros [[= -> ->]|Hin]%elem_of_cons; [by left|].
      right. apply elem_of_cons. by right.
    + intros [[= -> ->]|Hin]%elem_of_cons.
      * right. apply elem_of_cons. by left.
      * destruct (IH Hin) as [?|?]; [by left|].
        right. apply elem_of_cons. by right.
Qed.

Lemma dict_set_keys k v (d : SegInfoDict) :
  (dict_set k v d).*1 = if decide (k ∈ d.*1) then d.*1 else d.*1 ++ [k].
Proof.
  induction d as [|[k0 v0] d IH].
  - by destruct (decide (k ∈ ([] : SegInfoDict).*1)) as [Hin%elem_of_nil|].
  - change (((k0, v0) :: d).*1) with (k0 :: d.*1). cbn [dict_set].
    destruct (decide (k0 = k)) as [->|Hk].
    + rewrite decide_True; [done|apply elem_of_cons; by left].
    + change (((k0, v0) :: dict_set k v d).*1)
        with (k0 :: (dict_set k v d).*1).
      rewrite IH. destruct (decide (k ∈ d.*1)) as [Hin|Hnin].
      * rewrite decide_True; [done|apply elem_of_cons; by right].
      * rewrite decide_False; [done|].
        apply not_elem_of_cons. split; [|done]. by intros ->.
Qed.

Lemma dict_set_has k v (d : SegInfoDict) : k ∈ (dict_set k v d).*1.
Proof.
  rewrite dict_set_keys. destruct (decide (k ∈ d.*1)); [done|].
  apply elem_of_app. right. apply elem_of_cons. by left.
Qed.

Lemma dict_set_keeps k v (d : SegInfoDict) k' :
  k' ∈ d.*1 → k' ∈ (dict_set k v d).*1.
Proof.
  rewrite dict_set_keys. destruct (decide (k ∈ d.*1)); [done|].
  intros ?. apply elem_of_app. by left.
Qed.

Lemma dict_set_NoDup k v (d : SegInfoDict) :
  NoDup d.*1 → NoDup (dict_set k v d).*1.
Proof.
  intros Hnd. rewrite dict_set_keys.
  destruct (decide (k ∈ d.*1)) as [|Hnin]; [done|].
  apply NoDup_app. split_and!; [done| |apply NoDup_singleton].
  by intros x Hx ->%list_elem_of_singleton.
Qed.

Lemma dict_key_unique (d : SegInfoDict) k v v' :
  NoDup d.*1 → (k, v) ∈ d → (k, v') ∈ d → v = v'.
Proof.
  induction d as [|[k0 v0] d IH]; [by intros _ ?%elem_of_nil|].
  change (((k0, v0) :: d).*1) with (k0 :: d.*1).
  intros [Hnin Hnd]%NoDup_cons Hin Hin'.
  assert (∀ w, (k0, w) ∈ d → False) as Hno.
  { intros w Hw. apply Hnin. apply list_elem_of_fmap. by exists (k0, w). }
  apply elem_of_cons in Hin as [[= -> ->]|Hin];
    apply elem_of_cons in Hin' as [Heq|Hin'].
  - congruence.
  - by destruct (Hno _ Hin').
  - injection Heq as -> ->. by destruct (Hno _ Hin).
  - by apply IH.
Qed.

Lemma match_step_found seg_info m0 n0 r k v :
  find_key lower seg_info r = Some k → dict_get k seg_info = Some v →
  match_step lower seg_info (Some (m0, n0)) r = Some (dict_set k v m0, n0).
Proof. intros Ef Hv. unfold match_step. simpl. by rewrite Ef, Hv. Qed.

Lemma match_step_missing seg_info m0 n0 r :
  find_key lower seg_info r = None →
  match_step lower seg_info (Some (m0, n0)) r = Some (m0, n0 ++ [r]).
Proof. intros Ef. unfold match_step. simpl. by rewrite Ef. Qed.

(** What the loop over the requests keeps true. *)
Lemma match_loop_inv seg_info reqs : ∀ m0 n0,
  NoDup m0.*1 →
  (∀ k v, (k, v) ∈ m0 → (k, v) ∈ seg_info) →
  ∃ m n,
    foldl (match_step lower seg_info) (Some (m0, n0)) reqs = Some (m, n)
    ∧ NoDup m.*1
    ∧ (∀ k v, (k, v) ∈ m → (k, v) ∈ seg_info)
    ∧ n = n0 ++ filter (λ r, ¬ known lower seg_info r) reqs
    ∧ (∀ k, k ∈ m0.*1 → k ∈ m.*1)
    ∧ (∀ r k, r ∈ reqs → find_key lower seg_info r = Some k → k ∈ m.*1).
Proof.
  induction reqs as [|r reqs IH]; intros m0 n0 Hnd Hsub.
  - exists m0, n0. simpl. rewrite app_nil_r.
    split_and!; try done. by intros r k ?%elem_of_nil.
  - cbn [foldl]. destruct (find_key lower seg_info r) as [k|] eqn:Ef.
    + destruct (find_key_Some _ _ _ Ef) as [Hin _].
      destruct (dict_get_elem _ _ Hin) as (v & Hv & Hkv).
      rewrite (match_step_found _ _ _ _ _ _ Ef Hv).
      destruct (IH (dict_set k v m0) n0) as (m & n & Hrun & Hnd' & Hsub'
                                             & Hn & Hkeep & Hfound).
      { by apply dict_set_NoDup. }
      { intros k' v' [[-> ->]|Hin']%dict_set_elem; by auto. }
      exists m, n. split_and!; try done.
      * rewrite Hn. f_equal. rewrite filter_cons.
        rewrite decide_False; [done|].
        intros Hkn. apply find_key_None in Hkn. congruence.
      * intros k' Hk'. by apply Hkeep, dict_set_keeps.
      * intros r' k' [->|Hr']%elem_of_cons Hf'.
        -- assert (k' = k) as -> by congruence. apply Hkeep, dict_set_has.
        -- by eapply Hfound.
    + rewrite (match_step_missing _ _ _ _ Ef).
      destruct (IH m0 (n0 ++ [r])) as (m & n & Hrun & Hnd' & Hsub'
                                       & Hn & Hkeep & Hfound); [done|done|].
      exists m, n. split_and!; try done.
      * rewrite Hn, filter_cons, decide_True, <- app_assoc; [done|].
        by apply find_key_None.
      * intros r' k' [->|Hr']%elem_of_cons Hf'; [congruence|].
        by eapply Hfound.
Qed.

(** X25.  Unless a request is "all", the selection never fails, the
    selected entries are entries of the catalog under their own folder
    names, each folder at most once, and the list of unmatched requests
    holds, in the order given, exactly the requests that are neither a
    folder name nor an exported name of the catalog (letters compared
    without regard to case). *)
Theorem selection_partition user_requests seg_info :
  "all" ∉ lower <$> user_requests →
  ∃ matched not_found,
    match_segmentations lower user_requests seg_info
    = Some (matched, not_found)
    ∧ NoDup matched.*1
    ∧ (∀ k v, (k, v) ∈ matched → (k, v) ∈ seg_info)
    ∧ not_found = filter (λ r, ¬ known lower seg_info r) user_requests.
Proof.
  intros Hall. unfold match_segmentations. rewrite decide_False by done.
  destruct (match_loop_inv seg_info user_requests [] [])
    as (m & n & Hrun & Hnd & Hsub & Hn & _ & _).
  - constructor.
  - by intros k v ?%elem_of_nil.
  - exists m, n. by split_and!.
Qed.

(** X26.  A request that is the folder name of a segmentation, whatever
    the case of its letters, selects a segmentation with that folder name,
    also when it is the exported name of another one; a request that is
    no folder name but an exported name selects a segmentation with that
    exported name. *)
Theorem selection_covers user_requests seg_info matched not_found r :
  match_segmentations lower user_requests seg_info
  = Some (matched, not_found) →
  "all" ∉ lower <$> user_requests →
  NoDup seg_info.*1 →
  r ∈ user_requests →
  known lower seg_info r →
  ∃ k v,
    (k, v) ∈ matched ∧ (k, v) ∈ seg_info
    ∧ if decide (lower r ∈ lower <$> seg_info.*1)
      then lower k = lower r
      else ∃ e, exported v = Some e ∧ lower e = lower r.
Proof.
  intros Hm Hall Hnd Hr Hk. unfold match_segmentations in Hm.
  rewrite decide_False in Hm by done.
  destruct (match_loop_inv seg_info user_requests [] [])
    as (m & n & Hrun & Hndm & Hsub & _ & _ & Hfound).
  { constructor. }
  { by intros k v ?%elem_of_nil. }
  rewrite Hrun in Hm. injection Hm as <- <-.
  destruct (find_key lower seg_info r) as [k|] eqn:Ef;
    [|by apply find_key_None in Ef].
  pose proof (Hfound r k Hr Ef) as Hin.
  apply list_elem_of_fmap in Hin as ([k' v] & Hk' & Hin). simpl in Hk'.
  subst k'. exists k, v. split_and!; [done|by apply Hsub|].
  destruct (find_key_Some _ _ _ Ef) as [_ [Hl|(Hnf & v' & e & Hin' & He & Hl)]].
  - rewrite decide_True; [done|].
    rewrite <- Hl. apply list_elem_of_fmap. exists k. split; [done|].
    apply list_elem_of_fmap. exists (k, v). split; [done|by apply Hsub].
  - rewrite decide_False by done. exists e. split; [|done].
    assert (v = v') as ->; [|done].
    apply Hsub in Hin.
    exact (dict_key_unique _ _ _ _ Hnd Hin Hin').
Qed.

End SelectFacts.

(** * The image volume and the slice list (Step_2_4_NiftiGeneration.py) *)

Section VolumeAlignment.
Context `{Scalar}.
Import Step_2_4_NiftiGeneration.

Lemma fill_volume_planes slices : ∀ v idx v',
  fill_volume v idx slices = Some v' →
  (idx + length slices ≤ length (vol_planes v))%nat →
  (∀ k ds, slices !! k = Some ds →
     ∃ arr b, pixel_array ds = Some arr
              ∧ np_broadcast_to (vol_shape v).1 arr = Some b
              ∧ vol_planes v' !! (idx + k)%nat
                = Some (np_astype (vol_dtype v) b))
  ∧ (∀ j, (j < idx)%nat → vol_planes v' !! j = vol_planes v !! j).
Proof.
  induction slices as [|ds slices IH]; intros v idx v'.
  - intros [= <-] _. split; [by intros k ds ?|done].
  - cbn [fill_volume length].
    destruct (pixel_array ds) as [arr|] eqn:Ea; [|done]. cbn.
    destruct (np_broadcast_to (vol_shape v).1 arr) as [b|] eqn:Eb; [|done].
    cbn. intros Hrest Hlen.
    destruct (IH _ _ _ Hrest) as [Hk Hj].
    { cbn. rewrite length_insert. lia. }
    cbn in Hk, Hj. split.
    + intros [|k] ds' Hds; cbn in Hds.
      * injection Hds as <-. exists arr, b. split_and!; [done|done|].
        rewrite Nat.add_0_r, Hj by lia.
        apply list_lookup_insert_eq. lia.
      * destruct (Hk k ds' Hds) as (arr' & b' & ? & ? & Hp).
        exists arr', b'. split_and!; [done|done|].
        by replace (idx + S k)%nat with (S idx + k)%nat by lia.
    + intros j Hlt. rewrite Hj by lia.
      apply list_lookup_insert_ne. lia.
Qed.

#[local] Arguments fill_volume : simpl never.

(** X27.  The image volume and the slice list line up: slice [i] of the
    volume that step 2.4.2 writes holds the pixel data, broadcast to
    [(rows, cols)] and cast to int16, of the file whose identifier is
    entry [i] of the slice list by which step 2.4.3 places the masks; for
    a file whose pixel data has [(rows, cols)] already that is the pixel
    data cast to int16. *)
Theorem image_volume_follows_slice_list files vol aff dims sop_list shape_
    aff_ dt i uid :
  load_dicom_series files = Some (vol, aff, dims) →
  load_sop_uid_order files = Some (sop_list, shape_, aff_, dt) →
  sop_list !! i = Some uid →
  ∃ ds arr b,
    ds ∈ files ∧ SOPInstanceUID ds = uid ∧ pixel_array ds = Some arr
    ∧ np_broadcast_to dims.1 arr = Some b
    ∧ vol_planes vol !! i = Some (np_astype int16 b)
    ∧ (arr_shape arr = dims.1 →
       vol_planes vol !! i = Some (np_astype int16 arr)).
Proof.
  intros Hload Hord Hi.
  assert (sop_list = SOPInstanceUID <$> sort_slices files) as ->.
  { revert Hord. unfold load_sop_uid_order.
    destruct files as [|f0 files]; [done|].
    destruct (sort_slices (f0 :: files)) as [|first slices]; [done|].
    destruct (Rows first); simpl; [|done].
    destruct (Columns first); simpl; [|done].
    destruct (np_cross _ _); simpl; [|done].
    destruct (_ !! 0%nat); simpl; [|done].
    destruct (_ !! 1%nat); simpl; [|done].
    destruct (affine_set_col 0 _ _); simpl; [|done].
    destruct (affine_set_col 1 _ _); simpl; [|done].
    destruct (affine_set_col 2 _ _) as [a2|]; simpl; [|done].
    destruct (match ImagePositionPatient first with
              | Some ipp => affine_set_col 3 ipp a2
              | None => Some a2
              end); simpl; [|done].
    destruct (pixel_array first); simpl; [|done].
    by intros [= <- _ _ _]. }
  rewrite list_lookup_fmap in Hi.
  destruct (sort_slices files !! i) as [ds|] eqn:Eds; [|done].
  injection Hi as <-.
  revert Hload. unfold load_dicom_series.
  destruct (sort_slices files) as [|first slices] eqn:Es; [done|].
  destruct (Rows first) as [r|]; simpl; [|done].
  destruct (Columns first) as [c|]; simpl; [|done].
  destruct (fill_volume _ _ _) as [v|] eqn:Ev; simpl; [|done].
  intros Hrest.
  assert (vol = v ∧ dims = (r, c, S (length slices))) as [-> ->].
  { destruct (np_cross _ _); simpl in Hrest; [|done].
    destruct (_ !! 0%nat); simpl in Hrest; [|done].
    destruct (_ !! 1%nat); simpl in Hrest; [|done].
    destruct (affine_set_col 0 _ _); simpl in Hrest; [|done].
    destruct (affine_set_col 1 _ _); simpl in Hrest; [|done].
    destruct (affine_set_col 2 _ _) as [a2|]; simpl in Hrest; [|done].
    destruct (match ImagePositionPatient first with
              | Some ipp => affine_set_col 3 ipp a2
              | None => Some a2
              end); simpl in Hrest; [|done].
    by injection Hrest as <- _ <-. }
  apply fill_volume_planes in Ev as [Hk _].
  - destruct (Hk i ds Eds) as (arr & b & Ha & Hb & Hp).
    cbn in Hb, Hp.
    exists ds, arr, b. split_and!; try done.
    + rewrite <- (sort_slices_perm files), Es.
      by eapply list_elem_of_lookup_2.
    + intros Hs. cbn in Hs.
      apply np_broadcast_to_shape in Hb as [_ Hb]. by rewrite <- (Hb Hs).
  - cbn. rewrite length_replicate. lia.
Qed.

End VolumeAlignment.

Section VolumeAlignmentExamples.
#[local] Existing Instance Z_scalar.
Import Step_2_4_NiftiGeneration Examples.

Lemma image_volume_follows_slice_list_witness :
  load_dicom_series series_5
  = Some (series_5_volume, series_5_affine, (1, 1, 2)%nat)
  ∧ load_sop_uid_order series_5
    = Some (series_5_uids, (1, 1, 2)%nat, series_5_affine, int16)
  ∧ ∃ ds arr,
      ds ∈ series_5 ∧ SOPInstanceUID ds = Some "uid.2"
      ∧ pixel_array ds = Some arr
      ∧ np_broadcast_to (1, 1)%nat arr = Some arr
      ∧ vol_planes series_5_volume !! 1%nat = Some (np_astype int16 arr).
Proof.
  assert (load_dicom_series series_5
          = Some (series_5_volume, series_5_affine, (1, 1, 2)%nat)) as E1
    by (vm_compute; reflexivity).
  assert (load_sop_uid_order series_5
          = Some (series_5_uids, (1, 1, 2)%nat, series_5_affine, int16)) as E2
    by (vm_compute; reflexivity).
  split_and!; [exact E1|exact E2|].
  destruct (image_volume_follows_slice_list _ _ _ _ _ _ _ _ 1%nat
              (Some "uid.2") E1 E2 eq_refl)
    as (ds & arr & b & Hin & Hu & Ha & Hb & Hp & _).
  assert (ds = slice_file 2 (Some "uid.2") (ct_cell 7)) as ->.
  { apply elem_of_cons in Hin as [->|Hin]; [done|].
    apply list_elem_of_singleton in Hin as ->. discriminate. }
  injection Ha as <-.
  assert (b = ct_cell 7) as ->
    by (vm_compute in Hb; injection Hb as <-; reflexivity).
  by exists (slice_file 2 (Some "uid.2") (ct_cell 7)), (ct_cell 7).
Defined.

End VolumeAlignmentExamples.

(** * The properties above on the example objects *)

Section MergeMoreExamples.
#[local] Existing Instance Z_scalar.
Import ConcatMultiplObjects Examples.

Lemma merge_counter_counts_valid_witness :
  ∃ st',
    merge_object only_A ∅ [merge_X_into_Y] [merge_A_into_B] = Some st'
    ∧ max_seg_num st' = 1 + 2.
Proof.
  eexists. split; [vm_compute; reflexivity|].
  apply (merge_counter_counts_valid only_A ∅ [merge_X_into_Y]
           [merge_A_into_B]).
  vm_compute. reflexivity.
Defined.

Lemma merge_number_is_fresh_witness :
  merge_directive (start_state two_slices) merge_A_B_into_C
  = Some two_slices_merged
  ∧ segment_number (frame_of 4 (Some 3) (Some "C") (Some "uid.1") (cell 1))
    = Some (2 + 1)
  ∧ Forall (λ n, n < 2 + 1) [1; 2; 1; 2].
Proof.
  assert (merge_directive (start_state two_slices) merge_A_B_into_C
          = Some two_slices_merged) as E by (vm_compute; reflexivity).
  split; [exact E|].
  apply (merge_number_is_fresh two_slices ∅ [] merge_A_B_into_C
           (start_state two_slices) two_slices_merged 4%nat
           (frame_of 4 (Some 3) (Some "C") (Some "uid.1") (cell 1))
           eq_refl E).
  - simpl. lia.
  - reflexivity.
Defined.

Lemma merge_numbers_grow_witness :
  ∃ st3 f2,
    merge_directive (start_state two_slices) merge_A_B_into_C
    = Some two_slices_merged
    ∧ merge_directive two_slices_merged merge_A_into_B = Some st3
    ∧ frames (seg_data st3) !! 6%nat = Some f2
    ∧ ∃ n1 n2,
        segment_number
          (frame_of 4 (Some 3) (Some "C") (Some "uid.1") (cell 1)) = Some n1
        ∧ segment_number f2 = Some n2 ∧ n1 < n2.
Proof.
  assert (merge_directive (start_state two_slices) merge_A_B_into_C
          = Some two_slices_merged) as E by (vm_compute; reflexivity).
  eexists _, _. split_and!;
    [exact E|vm_compute; reflexivity|vm_compute; reflexivity|].
  eapply (merge_numbers_grow (start_state two_slices) merge_A_B_into_C
            two_slices_merged [] two_slices_merged merge_A_into_B _
            4%nat 6%nat _ _ E eq_refl).
  - vm_compute. reflexivity.
  - simpl. lia.
  - reflexivity.
  - simpl. lia.
  - vm_compute. reflexivity.
Defined.

Lemma merge_completes_witness :
  uniform_arrays (1, 1)%nat uint8 (frames two_slices)
  ∧ ∃ st',
      merge_object two_slices ∅ [] [merge_A_B_into_C] = Some st'
      ∧ (length (frames two_slices) ≤ length (frames (seg_data st')))%nat.
Proof.
  assert (uniform_arrays (1, 1)%nat uint8 (frames two_slices)) as U.
  { unfold uniform_arrays. simpl.
    repeat apply Forall_cons_2; [..|constructor];
      intros a [= <-]; split; reflexivity. }
  split; [exact U|].
  exact (merge_completes (1, 1)%nat uint8 two_slices ∅ [] [merge_A_B_into_C]
           U).
Defined.

Lemma merged_frame_provenance_witness :
  merge_directive (start_state two_slices) merge_A_B_into_C
  = Some two_slices_merged
  ∧ ∃ fr k, fr ∈ frames two_slices
            ∧ contributes ["A"; "B"] fr k
            ∧ Some "uid.2" = Some k.1.
Proof.
  assert (merge_directive (start_state two_slices) merge_A_B_into_C
          = Some two_slices_merged) as E by (vm_compute; reflexivity).
  split; [exact E|].
  destruct (merged_frame_provenance (start_state two_slices) merge_A_B_into_C
              two_slices_merged 5%nat
              (frame_of 5 (Some 3) (Some "C") (Some "uid.2") (cell 1)) E)
    as (_ & _ & _ & fr & k & Hin & Hc & Hu & _).
  - simpl. lia.
  - reflexivity.
  - by exists fr, k.
Defined.

Lemma merged_frames_one_per_slice_witness :
  merge_directive (start_state two_slices) merge_A_B_into_C
  = Some two_slices_merged
  ∧ (Some "uid.1", @None (list Z)) ≠ (Some "uid.2", None).
Proof.
  assert (merge_directive (start_state two_slices) merge_A_B_into_C
          = Some two_slices_merged) as E by (vm_compute; reflexivity).
  split; [exact E|].
  apply (merged_frames_one_per_slice (start_state two_slices)
           merge_A_B_into_C two_slices_merged 4%nat 5%nat
           (frame_of 4 (Some 3) (Some "C") (Some "uid.1") (cell 1))
           (frame_of 5 (Some 3) (Some "C") (Some "uid.2") (cell 1)) E).
  - simpl. lia.
  - simpl. lia.
  - lia.
  - reflexivity.
  - reflexivity.
Defined.

Lemma merge_rerun_duplicates_witness :
  merge_directive (start_state two_slices) merge_A_B_into_C
  = Some two_slices_merged
  ∧ ∃ st2,
      merge_directive two_slices_merged merge_A_B_into_C = Some st2
      ∧ frame_content <$> drop 6 (frames (seg_data st2))
        = frame_content
            <$> [frame_of 4 (Some 3) (Some "C") (Some "uid.1") (cell 1);
                 frame_of 5 (Some 3) (Some "C") (Some "uid.2") (cell 1)]
      ∧ max_seg_num st2 = 2 + 2.
Proof.
  assert (merge_directive (start_state two_slices) merge_A_B_into_C
          = Some two_slices_merged) as E by (vm_compute; reflexivity).
  split; [exact E|].
  apply (merge_rerun_duplicates (start_state two_slices) merge_A_B_into_C
           two_slices_merged "C" E eq_refl).
  vm_compute. intros Hin.
  apply elem_of_cons in Hin as [Hin|Hin]; [discriminate|].
  apply elem_of_cons in Hin as [Hin|Hin]; [discriminate|].
  by apply elem_of_nil in Hin.
Defined.

Lemma merge_directive_without_match_witness :
  ∃ st',
    merge_directive (start_state only_A) merge_X_into_Y = Some st'
    ∧ seg_data st' = only_A
    ∧ segment_name_count st' = ∅.
Proof.
  eexists. split; [vm_compute; reflexivity|].
  apply (merge_directive_without_match (start_state only_A) merge_X_into_Y).
  - vm_compute. reflexivity.
  - right. simpl. repeat constructor. intros s [= <-] Hin.
    apply elem_of_cons in Hin as [Hin|Hin]; [discriminate|].
    by apply elem_of_nil in Hin.
Defined.

End MergeMoreExamples.

Section DecoderMoreExamples.
#[local] Existing Instance Z_scalar.
Import ConcatMultiplObjects Step_2_3_DecodeSegmentation Examples.

Lemma frame_index_is_position_witness :
  ∃ st' fr,
    decode_segmentation_dcm seg_file_ok = Some seg_file_ok_decoded
    ∧ merge_object seg_file_ok_decoded ∅ [] [merge_Liver_Label_2] = Some st'
    ∧ frames (seg_data st') !! 2%nat = Some fr
    ∧ frame_index fr = 2.
Proof.
  assert (decode_segmentation_dcm seg_file_ok = Some seg_file_ok_decoded)
    as E by (vm_compute; reflexivity).
  eexists _, _. split_and!;
    [exact E|vm_compute; reflexivity|vm_compute; reflexivity|].
  eapply (frame_index_is_position seg_file_ok seg_file_ok_decoded ∅ []
           [merge_Liver_Label_2] _ 2%nat _ E).
  - vm_compute. reflexivity.
  - vm_compute. reflexivity.
Defined.

Lemma num_frames_is_length_witness :
  ∃ st',
    decode_segmentation_dcm seg_file_ok = Some seg_file_ok_decoded
    ∧ merge_object seg_file_ok_decoded ∅ [] [merge_Liver_Label_2] = Some st'
    ∧ num_frames (seg_data st') = Z.of_nat (length (frames (seg_data st'))).
Proof.
  assert (decode_segmentation_dcm seg_file_ok = Some seg_file_ok_decoded)
    as E by (vm_compute; reflexivity).
  eexists. split_and!; [exact E|vm_compute; reflexivity|].
  eapply (num_frames_is_length seg_file_ok seg_file_ok_decoded ∅ []
           [merge_Liver_Label_2] _ E).
  vm_compute. reflexivity.
Defined.

Lemma decoded_frame_pixels_witness :
  decode_segmentation_dcm seg_file_ok = Some seg_file_ok_decoded
  ∧ ∃ fr a, frames seg_file_ok_decoded !! 1%nat = Some fr
            ∧ pixel_data fr = Some a
            ∧ (plane (pixel_array seg_file_ok) 1 = Some a
               ∨ ∃ d r c dt,
                   depth (pixel_array seg_file_ok) = Some d ∧ (d ≤ 1)%nat
                   ∧ Rows seg_file_ok = Some r ∧ Columns seg_file_ok = Some c
                   ∧ pa_dtype (pixel_array seg_file_ok) = Some dt
                   ∧ a = np_zeros (r, c) dt).
Proof.
  assert (decode_segmentation_dcm seg_file_ok = Some seg_file_ok_decoded)
    as E by (vm_compute; reflexivity).
  split; [exact E|].
  eexists. 
  destruct (decoded_frame_pixels seg_file_ok seg_file_ok_decoded 1%nat _ E
              eq_refl) as (a & Ha & Hp).
  exists a. split_and!; [reflexivity|exact Ha|exact Hp].
Defined.

Lemma single_plane_gives_no_frames_witness :
  pixel_array single_plane_file = Plane2D (cell 1)
  ∧ (0 < (arr_shape (cell 1)).1)%nat
  ∧ ∃ sd, decode_segmentation_dcm single_plane_file = Some sd
          ∧ frames sd = [].
Proof.
  split_and!; [reflexivity|simpl; lia|].
  eexists. split; [vm_compute; reflexivity|].
  apply (single_plane_gives_no_frames single_plane_file (cell 1)).
  - reflexivity.
  - simpl. lia.
  - vm_compute. reflexivity.
Defined.

Lemma decoded_segment_name_witness :
  decode_segmentation_dcm seg_file_ok = Some seg_file_ok_decoded
  ∧ ∃ n items item,
      n ≠ 0 ∧ SegmentSequence seg_file_ok = Some items ∧ item ∈ items
      ∧ SegmentNumber item = Some n
      ∧ "Label_2"
        = default ("Label_" +:+ pretty n) (truthy_str (SegmentLabel item)).
Proof.
  assert (decode_segmentation_dcm seg_file_ok = Some seg_file_ok_decoded)
    as E by (vm_compute; reflexivity).
  split; [exact E|].
  destruct (decoded_segment_name seg_file_ok seg_file_ok_decoded 1%nat _
              "Label_2" E eq_refl eq_refl)
    as (n & items & item & _ & Hn & Hs & Hin & Hnum & Hname & _).
  by exists n, items, item.
Defined.

Lemma decoder_returns_witness :
  pixel_array seg_file_mismatch = Volume3D uint8 [cell 1; cell 0]
  ∧ is_Some (Rows seg_file_mismatch)
  ∧ ∃ sd, decode_segmentation_dcm seg_file_mismatch = Some sd
          ∧ Z.of_nat (length (frames sd)) = 2.
Proof.
  assert (is_Some (Rows seg_file_mismatch)) as R by (by eexists).
  split_and!; [reflexivity|exact R|].
  apply (decoder_returns seg_file_mismatch uint8 [cell 1; cell 0] eq_refl).
  left. split; [exact R|by eexists].
Defined.

Lemma prepared_counts_agree_witness :
  decode_segmentation_dcm seg_file_ok = Some seg_file_ok_decoded
  ∧ prep_segment_name_count (prepare seg_file_ok_decoded)
    = [("Liver", 1%nat); ("Label_2", 1%nat)]
  ∧ counts_agree (list_to_map [("Liver", 1%nat); ("Label_2", 1%nat)])
                 (frames seg_file_ok_decoded).
Proof.
  assert (decode_segmentation_dcm seg_file_ok = Some seg_file_ok_decoded)
    as E by (vm_compute; reflexivity).
  split_and!; [exact E|vm_compute; reflexivity|].
  exact (proj1 (proj2 (prepared_counts_agree _ _ E))).
Defined.

Lemma merge_keeps_counts_witness :
  ∃ st',
    merge_directive two_slices_counted merge_A_B_into_C = Some st'
    ∧ counts_agree (segment_name_count st') (frames (seg_data st')).
Proof.
  eexists. split; [vm_compute; reflexivity|].
  apply (merge_keeps_counts two_slices_counted merge_A_B_into_C).
  - apply name_counter_agrees.
  - intros name [= <-]. vm_compute. reflexivity.
  - vm_compute. reflexivity.
Defined.

End DecoderMoreExamples.

Section NiftiMoreExamples.
#[local] Existing Instance Z_scalar.
Import Step_2_4_NiftiGeneration Examples.

Lemma ready2nifti_sound_witness :
  step_2_4_1_create_ready2nifti [("SEG", seg_record (Some "1.2.3"))] catalog
  = ready2nifti
  ∧ ∃ key, (key, info_of "/scans/5" "5" "1.2.3") ∈ catalog.
Proof.
  assert (step_2_4_1_create_ready2nifti [("SEG", seg_record (Some "1.2.3"))]
            catalog = ready2nifti) as E by (vm_compute; reflexivity).
  split; [exact E|].
  destruct (ready2nifti_sound [("SEG", seg_record (Some "1.2.3"))] catalog
              0%nat "SEG" (resolved_record (info_of "/scans/5" "5" "1.2.3")))
    as (seg_info & Hs & _ & _ & Hi).
  - rewrite E. reflexivity.
  - injection Hs as <-.
    apply (Hi (info_of "/scans/5" "5" "1.2.3")); [discriminate|reflexivity].
Defined.

Lemma slice_order_witness :
  load_sop_uid_order series_5
  = Some (series_5_uids, (1, 1, 2)%nat, series_5_affine, int16)
  ∧ ∃ slices,
      series_5_uids = SOPInstanceUID <$> slices
      ∧ slices ≡ₚ series_5
      ∧ StronglySorted (λ a b, sort_key a ≤ sort_key b) slices.
Proof.
  assert (load_sop_uid_order series_5
          = Some (series_5_uids, (1, 1, 2)%nat, series_5_affine, int16)) as E
    by (vm_compute; reflexivity).
  split; [exact E|].
  destruct (slice_order _ _ _ _ _ E) as (slices & Hu & Hp & Hs & _).
  by exists slices.
Defined.

Lemma unaddressed_slice_stays_zero_witness :
  (1 < ((1, 1, 2)%nat : shape3).2)%nat
  ∧ vol_planes
      (build_mask "SEG" (Some "A") (1, 1, 2)%nat
         (entries (sop_uid_to_index series_5_uids) (Some "A")
            [frame_a1; frame_wide])).1 !! 1%nat
    = Some (np_zeros (1, 1)%nat uint8).
Proof.
  split; [simpl; lia|].
  apply (unaddressed_slice_stays_zero (sop_uid_to_index series_5_uids) "SEG"
           (Some "A") (1, 1, 2)%nat [frame_a1; frame_wide] 1%nat).
  - simpl. lia.
  - intros fr a Hin _ He.
    apply elem_of_cons in Hin as [->|Hin].
    + vm_compute in He. discriminate.
    + apply list_elem_of_singleton in Hin as ->.
      vm_compute in He. injection He as <-.
      unfold fits. simpl. lia.
Defined.

Lemma original_nifti_rerun_writes_nothing_witness :
  ∃ st st',
    step_2_4_2_create_original_nifti true (inputs_of [] series_5)
      "/out/NIFTI" (stale_folder "5.nii") ready2nifti = Some st
    ∧ step_2_4_2_create_original_nifti false (inputs_of [] series_5)
        "/out/NIFTI" (fs242 st) ready2nifti = Some st'
    ∧ fs242 st' = fs242 st.
Proof.
  destruct (step_2_4_2_create_original_nifti true (inputs_of [] series_5)
              "/out/NIFTI" (stale_folder "5.nii") ready2nifti)
    as [st|] eqn:E; [|vm_compute in E; discriminate].
  destruct (original_nifti_rerun_writes_nothing _ _ _ _ _ _ E)
    as (st' & Hrun & Hfs).
  by exists st, st'.
Defined.

Lemma seg_nifti_rerun_writes_nothing_witness :
  ∃ st' st'',
    seg_nifti_step true (inputs_of [frame_a1; frame_a3] series_5) "/out/NIFTI"
      {| fs243 := stale_folder "5_ON_A__FN_SEG.nii";
         series_sop_uids_cache := ∅; log243 := [] |}
      "SEG" (resolved_record (info_of "/scans/5" "5" "1.2.3")) = Some st'
    ∧ seg_nifti_step false (inputs_of [frame_a1; frame_a3] series_5)
        "/out/NIFTI" st' "SEG"
        (resolved_record (info_of "/scans/5" "5" "1.2.3")) = Some st''
    ∧ fs243 st'' = fs243 st'.
Proof.
  destruct (seg_nifti_step true (inputs_of [frame_a1; frame_a3] series_5)
              "/out/NIFTI"
              {| fs243 := stale_folder "5_ON_A__FN_SEG.nii";
                 series_sop_uids_cache := ∅; log243 := [] |}
              "SEG" (resolved_record (info_of "/scans/5" "5" "1.2.3")))
    as [st'|] eqn:E; [|vm_compute in E; discriminate].
  exists st'.
  destruct (seg_nifti_rerun_writes_nothing _ _ _ _ _ _ _ E)
    as (st'' & Hrun & Hfs).
  by exists st''.
Defined.

Lemma unmatched_series_aborts_seg_nifti_witness :
  truthy_opt (si_ref_series_uid (seg_record (Some "9.9.9"))) = Some "9.9.9"
  ∧ Forall (λ kv : string * SeriesInfo, series_uid kv.2 ≠ Some "9.9.9") catalog
  ∧ step_2_4_3_create_seg_nifti false (inputs_of [frame_a1] series_5)
      "/out/NIFTI" ∅
      (step_2_4_1_create_ready2nifti
         [("SEG", seg_record (Some "9.9.9")); ("SEG", seg_record None)]
         catalog) = None.
Proof.
  assert (Forall (λ kv : string * SeriesInfo, series_uid kv.2 ≠ Some "9.9.9")
            catalog) as F by (repeat constructor; discriminate).
  split_and!; [reflexivity|exact F|].
  apply (unmatched_series_aborts_seg_nifti false _ "/out/NIFTI" ∅ _ catalog
           "SEG" (seg_record (Some "9.9.9")) "9.9.9" "/seg/SEG.pkl").
  - apply elem_of_cons. by left.
  - reflexivity.
  - exact F.
  - reflexivity.
  - vm_compute. by eexists.
Defined.

End NiftiMoreExamples.

Section MergeUnionExamples.
#[local] Existing Instance Z_scalar.
Import ConcatMultiplObjects Examples.

Lemma merged_mask_is_union_witness :
  merge_directive (start_state two_slices) merge_A_B_into_C
  = Some two_slices_merged
  ∧ ∃ px, px ∈ group ["A"; "B"] ("uid.2", None) (frames two_slices)
          ∧ arr_cells px !! 0%nat = Some 1.
Proof.
  assert (merge_directive (start_state two_slices) merge_A_B_into_C
          = Some two_slices_merged) as E by (vm_compute; reflexivity).
  split; [exact E|].
  apply (merged_mask_is_union (start_state two_slices) merge_A_B_into_C
           two_slices_merged 5%nat
           (frame_of 5 (Some 3) (Some "C") (Some "uid.2") (cell 1))
           (cell 1) "uid.2" 8%N (1, 1)%nat 0%nat E).
  - simpl. lia.
  - reflexivity.
  - reflexivity.
  - reflexivity.
  - simpl. repeat apply Forall_cons_2; [..|constructor];
      intros px [= <-];
      (split_and!; [reflexivity|reflexivity|reflexivity|]);
      (apply Forall_cons_2; [lia|constructor]).
  - simpl. lia.
  - simpl. lia.
  - reflexivity.
Defined.

End MergeUnionExamples.

Section SelectExamples.
Import Step_2_2_SelectSegmentations Examples.

Lemma selection_partition_witness :
  ("all" ∉ ascii_lower <$> ["liver"; "Kidney"; "SEG_1"])
  ∧ ∃ matched,
      match_segmentations ascii_lower ["liver"; "Kidney"; "SEG_1"] assessors
      = Some (matched, ["Kidney"])
      ∧ NoDup matched.*1.
Proof.
  assert ("all" ∉ ascii_lower <$> ["liver"; "Kidney"; "SEG_1"]) as N.
  { vm_compute. intros Hin.
    apply elem_of_cons in Hin as [Hin|Hin]; [discriminate|].
    apply elem_of_cons in Hin as [Hin|Hin]; [discriminate|].
    apply elem_of_cons in Hin as [Hin|Hin]; [discriminate|].
    by apply elem_of_nil in Hin. }
  split; [exact N|].
  destruct (selection_partition ascii_lower ["liver"; "Kidney"; "SEG_1"]
              assessors N) as (matched & not_found & Hm & Hnd & _ & Hnf).
  exists matched. split; [|exact Hnd].
  rewrite Hm, Hnf. reflexivity.
Defined.

Lemma selection_covers_witness :
  match_segmentations ascii_lower ["Seg_1"] assessors
  = Some ([("SEG_1", assessor "/assessors/SEG_1/SEG" (Some "Liver"))], [])
  ∧ NoDup assessors.*1
  ∧ known ascii_lower assessors "Seg_1"
  ∧ ∃ k v,
      (k, v) ∈ [("SEG_1", assessor "/assessors/SEG_1/SEG" (Some "Liver"))]
      ∧ ascii_lower k = ascii_lower "Seg_1".
Proof.
  assert (match_segmentations ascii_lower ["Seg_1"] assessors
          = Some ([("SEG_1", assessor "/assessors/SEG_1/SEG" (Some "Liver"))],
                  [])) as E by (vm_compute; reflexivity).
  assert (NoDup assessors.*1) as D by (vm_compute; apply NoDup_ListNoDup;
    repeat constructor; simpl; intuition discriminate).
  assert (known ascii_lower assessors "Seg_1") as K.
  { left. vm_compute. apply elem_of_cons. by left. }
  split_and!; [exact E|exact D|exact K|].
  destruct (selection_covers ascii_lower ["Seg_1"] assessors _ _ "Seg_1" E)
    as (k & v & Hin & _ & Hl).
  - vm_compute. intros Hin.
    apply elem_of_cons in Hin as [Hin|Hin]; [discriminate|].
    by apply elem_of_nil in Hin.
  - exact D.
  - apply elem_of_cons. by left.
  - exact K.
  - exists k, v. split; [exact Hin|].
    rewrite decide_True in Hl; [exact Hl|].
    vm_compute. apply elem_of_cons. by left.
Defined.

End SelectExamples.
